(** * A shallow embedding of the temporal memory store of sekai-memory-for-chatbot

    Covered sources:
    - [src/models/memory_unit.py]          : [MemoryUnit], [get_key], [can_update],
                                             [get_update_score]
    - [src/storage/simple_memory_store.py] : [SimpleMemoryStore] and its operations
    - [src/eval/consistency_eval.py]       : [check_world_future_leaks],
                                             [check_symmetry_violations]

    Modelling conventions.
    - Python [int] is [Z]; Python [float] is the IEEE binary64 [float] of
      [Stdlib.Floats], so scores are computed with the rounding the program has.
    - Python [str] is [String.string] (ASCII); [str.lower] lowercases A-Z.
    - A Python [dict] is an association list kept in insertion order (the order
      in which [dict.values()] iterates); assigning an existing key keeps its
      position, a new key is appended.
    - [MemoryUnit] objects are mutable and shared between [all_memories] and the
      per-chapter lists, so the store has an explicit heap of objects indexed by
      address; both indexes hold addresses, and a mutation through one of them
      is seen through the other, as in Python.
    - [uuid.uuid4()] is a generator [uuid4 : nat -> string] called on a counter
      kept in the store. *)

From Stdlib Require Import ZArith List Bool Ascii String Floats Lia Permutation Sorted.
Import ListNotations.

Set Warnings "-inexact-float".

Open Scope Z_scope.

(** ** Python helpers *)

Module Py.

(** [min(a, b)]: CPython keeps the first argument unless the second compares
    strictly smaller. *)
Definition fmin (a b : float) : float := if (b <? a)%float then b else a.

(** [max(a, b)]: keeps the first argument unless the second compares strictly
    greater. *)
Definition fmax (a b : float) : float := if (a <? b)%float then b else a.

(** [float(n)] for the integer operand of [int * float].  Exact conversion for
    [|n| < 2^63], which covers every chapter difference the program meets. *)
Definition float_of_int (n : Z) : float :=
  if (0 <=? n)%Z then PrimFloat.of_uint63 (Uint63.of_Z n)
  else (- PrimFloat.of_uint63 (Uint63.of_Z (- n)))%float.

(** [str.lower] on ASCII text. *)
Definition lower_char (c : ascii) : ascii :=
  let n := nat_of_ascii c in
  if (Nat.leb 65 n && Nat.leb n 90)%bool then ascii_of_nat (n + 32) else c.

Fixpoint lower (s : string) : string :=
  match s with
  | EmptyString => EmptyString
  | String c t => String (lower_char c) (lower t)
  end.

(** [needle in hay] for strings: substring test. *)
Fixpoint contains (hay needle : string) : bool :=
  String.prefix needle hay ||
  match hay with
  | EmptyString => false
  | String _ t => contains t needle
  end.

(** ['::'.join(xs)] *)
Fixpoint join_sep (sep : string) (xs : list string) : string :=
  match xs with
  | [] => EmptyString
  | [x] => x
  | x :: rest => String.append x (String.append sep (join_sep sep rest))
  end.

Definition sep2 : string := "::".

(** [s.split('::')]: cut at every non-overlapping occurrence, left to right. *)
Fixpoint split_dc_aux (s : string) (cur : string) : list string :=
  match s with
  | EmptyString => [cur]
  | String ":" (String ":" t) => cur :: split_dc_aux t EmptyString
  | String c t => split_dc_aux t (String.append cur (String c EmptyString))
  end.

Definition split_dc (s : string) : list string := split_dc_aux s EmptyString.

(** [sorted] on a list of [str]: code-point lexicographic order; this is the
    only sorted permutation, so insertion sort computes what Timsort does. *)
Fixpoint insert_sorted (x : string) (l : list string) : list string :=
  match l with
  | [] => [x]
  | y :: t => if String.leb x y then x :: y :: t else y :: insert_sorted x t
  end.

Fixpoint sorted (l : list string) : list string :=
  match l with
  | [] => []
  | x :: t => insert_sorted x (sorted t)
  end.

(** The [dict] operations used by the program. *)
Section Dict.
Context {K V : Type} (eqk : K -> K -> bool).

Fixpoint get (k : K) (d : list (K * V)) : option V :=
  match d with
  | [] => None
  | (k', v) :: t => if eqk k k' then Some v else get k t
  end.

Fixpoint set_in_place (k : K) (v : V) (d : list (K * V)) : option (list (K * V)) :=
  match d with
  | [] => None
  | (k', v') :: t =>
      if eqk k k' then Some ((k', v) :: t)
      else option_map (fun t' => (k', v') :: t') (set_in_place k v t)
  end.

(** [d[k] = v] *)
Definition setitem (k : K) (v : V) (d : list (K * V)) : list (K * V) :=
  match set_in_place k v d with
  | Some d' => d'
  | None => d ++ [(k, v)]
  end.

Definition values (d : list (K * V)) : list V := map snd d.

End Dict.

End Py.

(** ** [src/models/memory_unit.py] *)

Record Provenance := mkProvenance {
  prov_chapter : Z;
  prov_source : string;
  prov_timestamp : string
}.

Record MemoryUnit := mkMemoryUnit {
  id : string;
  mem_type : string;
  subjects : list string;
  predicate : string;
  object : string;
  fact_text : string;
  chapter_start : Z;
  chapter_end : option Z;
  visibility : string;
  confidence : float;
  is_active : bool;
  provenance : Provenance;
  version : Z;
  supersedes : option string;
  superseded_by : option string;
  update_reason : option string;
  update_confidence : option float;
  embedding : option (list float);
  attrs : list (string * string)
}.

(** Field assignments [m.f = v] on a [MemoryUnit]. *)
Definition set_id (m : MemoryUnit) (v : string) : MemoryUnit :=
  mkMemoryUnit v m.(mem_type) m.(subjects) m.(predicate) m.(object) m.(fact_text)
    m.(chapter_start) m.(chapter_end) m.(visibility) m.(confidence) m.(is_active)
    m.(provenance) m.(version) m.(supersedes) m.(superseded_by) m.(update_reason)
    m.(update_confidence) m.(embedding) m.(attrs).

Definition set_chapter_start (m : MemoryUnit) (v : Z) : MemoryUnit :=
  mkMemoryUnit m.(id) m.(mem_type) m.(subjects) m.(predicate) m.(object) m.(fact_text)
    v m.(chapter_end) m.(visibility) m.(confidence) m.(is_active)
    m.(provenance) m.(version) m.(supersedes) m.(superseded_by) m.(update_reason)
    m.(update_confidence) m.(embedding) m.(attrs).

Definition set_provenance_chapter (m : MemoryUnit) (v : Z) : MemoryUnit :=
  mkMemoryUnit m.(id) m.(mem_type) m.(subjects) m.(predicate) m.(object) m.(fact_text)
    m.(chapter_start) m.(chapter_end) m.(visibility) m.(confidence) m.(is_active)
    (mkProvenance v m.(provenance).(prov_source) m.(provenance).(prov_timestamp))
    m.(version) m.(supersedes) m.(superseded_by) m.(update_reason)
    m.(update_confidence) m.(embedding) m.(attrs).

Definition set_is_active (m : MemoryUnit) (v : bool) : MemoryUnit :=
  mkMemoryUnit m.(id) m.(mem_type) m.(subjects) m.(predicate) m.(object) m.(fact_text)
    m.(chapter_start) m.(chapter_end) m.(visibility) m.(confidence) v
    m.(provenance) m.(version) m.(supersedes) m.(superseded_by) m.(update_reason)
    m.(update_confidence) m.(embedding) m.(attrs).

Definition set_chapter_end (m : MemoryUnit) (v : option Z) : MemoryUnit :=
  mkMemoryUnit m.(id) m.(mem_type) m.(subjects) m.(predicate) m.(object) m.(fact_text)
    m.(chapter_start) v m.(visibility) m.(confidence) m.(is_active)
    m.(provenance) m.(version) m.(supersedes) m.(superseded_by) m.(update_reason)
    m.(update_confidence) m.(embedding) m.(attrs).

Definition set_superseded_by (m : MemoryUnit) (v : option string) : MemoryUnit :=
  mkMemoryUnit m.(id) m.(mem_type) m.(subjects) m.(predicate) m.(object) m.(fact_text)
    m.(chapter_start) m.(chapter_end) m.(visibility) m.(confidence) m.(is_active)
    m.(provenance) m.(version) m.(supersedes) v m.(update_reason)
    m.(update_confidence) m.(embedding) m.(attrs).

Definition set_update_confidence (m : MemoryUnit) (v : option float) : MemoryUnit :=
  mkMemoryUnit m.(id) m.(mem_type) m.(subjects) m.(predicate) m.(object) m.(fact_text)
    m.(chapter_start) m.(chapter_end) m.(visibility) m.(confidence) m.(is_active)
    m.(provenance) m.(version) m.(supersedes) m.(superseded_by) m.(update_reason)
    v m.(embedding) m.(attrs).

Definition set_embedding (m : MemoryUnit) (v : option (list float)) : MemoryUnit :=
  mkMemoryUnit m.(id) m.(mem_type) m.(subjects) m.(predicate) m.(object) m.(fact_text)
    m.(chapter_start) m.(chapter_end) m.(visibility) m.(confidence) m.(is_active)
    m.(provenance) m.(version) m.(supersedes) m.(superseded_by) m.(update_reason)
    m.(update_confidence) v m.(attrs).

(** [get_key]: ["::".join(sorted(subjects)) + "::" + predicate + "::" + object] *)
Definition get_key (m : MemoryUnit) : string :=
  String.append (Py.join_sep Py.sep2 (Py.sorted m.(subjects)))
    (String.append Py.sep2
       (String.append m.(predicate) (String.append Py.sep2 m.(object)))).

Definition can_update (self new_memory : MemoryUnit) : bool :=
  if negb (String.eqb (get_key self) (get_key new_memory)) then false
  else if negb self.(is_active) then false
  else if new_memory.(chapter_start) <=? self.(chapter_start) then false
  else true.

Definition get_update_score (self new_memory : MemoryUnit) : float :=
  if negb (can_update self new_memory) then 0%float
  else
    let score := 0%float in
    let score := (score + new_memory.(confidence) * 0.3)%float in
    let recency_bonus :=
      Py.fmin 0.2 (Py.float_of_int (new_memory.(chapter_start) - self.(chapter_start)) * 0.05)%float in
    let score := (score + recency_bonus)%float in
    let score := if (self.(confidence) <? new_memory.(confidence))%float
                 then (score + 0.2)%float else score in
    let score := if self.(chapter_start) <? new_memory.(chapter_start) - 5
                 then (score + 0.1)%float else score in
    Py.fmin 1.0 score.

(** ** [src/storage/simple_memory_store.py] *)

Definition addr := nat.

Record Store := mkStore {
  heap : addr -> MemoryUnit;          (** the [MemoryUnit] objects *)
  next_addr : addr;                   (** the next free object address *)
  chapter_memories : list (Z * list addr);
  all_memories : list (string * addr);
  uuid_ctr : nat                      (** calls of [uuid.uuid4()] so far *)
}.

Definition dummy_unit : MemoryUnit :=
  mkMemoryUnit "" "" [] "" "" "" 0 None "shared" 0.9 true
    (mkProvenance 0 "" "") 1 None None None None None [].

(** [SimpleMemoryStore.__init__] on a path that does not exist. *)
Definition empty_store : Store :=
  mkStore (fun _ => dummy_unit) 0%nat [] [] 0%nat.

Definition heap_write (h : addr -> MemoryUnit) (a : addr) (m : MemoryUnit)
  : addr -> MemoryUnit :=
  fun b => if Nat.eqb b a then m else h b.

Definition set_heap (st : Store) (h : addr -> MemoryUnit) : Store :=
  mkStore h st.(next_addr) st.(chapter_memories) st.(all_memories) st.(uuid_ctr).

(** Allocate a new object. *)
Definition alloc (st : Store) (m : MemoryUnit) : Store * addr :=
  (mkStore (heap_write st.(heap) st.(next_addr) m) (S st.(next_addr))
     st.(chapter_memories) st.(all_memories) st.(uuid_ctr), st.(next_addr)).

Section WithUuid.

Variable uuid4 : nat -> string.

Definition fresh_uuid (st : Store) : string * Store :=
  (uuid4 st.(uuid_ctr),
   mkStore st.(heap) st.(next_addr) st.(chapter_memories) st.(all_memories)
     (S st.(uuid_ctr))).

Definition _add_memory_to_chapter (st : Store) (a : addr) (chapter : Z) : Store :=
  let cm := st.(chapter_memories) in
  let lst := match Py.get Z.eqb chapter cm with Some l => l | None => [] end in
  mkStore st.(heap) st.(next_addr) (Py.setitem Z.eqb chapter (lst ++ [a]) cm)
    st.(all_memories) st.(uuid_ctr).

Definition set_all_memories (st : Store) (k : string) (a : addr) : Store :=
  mkStore st.(heap) st.(next_addr) st.(chapter_memories)
    (Py.setitem String.eqb k a st.(all_memories)) st.(uuid_ctr).

(** [add_new_memory(memory, chapter)]: [memory] is the caller's candidate
    object, fresh and not yet in the store. *)
Definition add_new_memory (st : Store) (memory : MemoryUnit) (chapter : Z)
  : Store * addr :=
  let (u, st) := fresh_uuid st in
  let memory := set_id memory u in
  let memory := set_chapter_start memory chapter in
  let memory := set_provenance_chapter memory chapter in
  let (st, a) := alloc st memory in
  let st := _add_memory_to_chapter st a chapter in
  let st := set_all_memories st memory.(id) a in
  (st, a).

Definition find_all_candidate_memories (st : Store) (memory : MemoryUnit) : list addr :=
  let memory_key := get_key memory in
  filter (fun a => String.eqb (get_key (st.(heap) a)) memory_key &&
                   can_update (st.(heap) a) memory)
    (Py.values st.(all_memories)).

(** [max(xs, key=...)] over a non-empty list: the first element whose key is
    not exceeded by a later one. *)
Fixpoint py_max_by {A} (key : A -> float) (best : A) (xs : list A) : A :=
  match xs with
  | [] => best
  | x :: t => py_max_by key (if (key best <? key x)%float then x else best) t
  end.

Definition find_best_update_candidate (st : Store) (memory : MemoryUnit)
  (min_score : float) : option (addr * float) :=
  let candidates := find_all_candidate_memories st memory in
  match candidates with
  | [] => None
  | _ =>
    let scored_candidates :=
      filter (fun p => (min_score <=? snd p)%float)
        (map (fun c => (c, get_update_score (st.(heap) c) memory)) candidates) in
    match scored_candidates with
    | [] => None
    | p :: t => Some (py_max_by snd p t)
    end
  end.

Definition update_existing_memory (st : Store) (ea : addr) (new_info : MemoryUnit)
  (chapter : Z) (update_reason : string) : Store * addr :=
  let h := st.(heap) in
  let h := heap_write h ea (set_is_active (h ea) false) in
  let h := heap_write h ea (set_chapter_end (h ea) (Some (chapter - 1))) in
  let st := set_heap st h in
  let (u1, st) := fresh_uuid st in
  let h := st.(heap) in
  let st := set_heap st (heap_write h ea (set_superseded_by (h ea) (Some u1))) in
  let (u2, st) := fresh_uuid st in
  let existing_memory := st.(heap) ea in
  let updated_memory :=
    mkMemoryUnit u2 existing_memory.(mem_type) existing_memory.(subjects)
      existing_memory.(predicate) existing_memory.(object) new_info.(fact_text)
      chapter None existing_memory.(visibility) new_info.(confidence) true
      new_info.(provenance) (existing_memory.(version) + 1)
      (Some existing_memory.(id)) None (Some update_reason)
      (Some new_info.(confidence)) None existing_memory.(attrs) in
  let h := st.(heap) in
  let st := set_heap st (heap_write h ea (set_superseded_by (h ea) (Some updated_memory.(id)))) in
  let (st, na) := alloc st updated_memory in
  let st := _add_memory_to_chapter st na chapter in
  let st := set_all_memories st updated_memory.(id) na in
  (st, na).

(** The second component of the result of [smart_update_or_create]. *)
Inductive Action := UpdatedExisting (score : float) | CreatedNew.

Definition smart_update_or_create (st : Store) (memory : MemoryUnit) (chapter : Z)
  (update_threshold : float) : Store * addr * Action :=
  match find_best_update_candidate st memory update_threshold with
  | Some (existing, score) =>
      let update_reason :=
        if (0.8 <? score)%float then "high_confidence_update"%string
        else if (0.6 <? score)%float then "moderate_update"%string
        else "low_confidence_update"%string in
      let (st', na) := update_existing_memory st existing memory chapter update_reason in
      (st', na, UpdatedExisting score)
  | None =>
      let (st', na) := add_new_memory st memory chapter in
      (st', na, CreatedNew)
  end.

Definition default_threshold : float := 0.6.

End WithUuid.

(** [load_memories()]: one record per line of the JSON-lines file, in file
    order; [records] are the [MemoryUnit] objects built from the lines. *)
Definition load_memory (st : Store) (memory : MemoryUnit) : Store :=
  let (st, a) := alloc st memory in
  let st := _add_memory_to_chapter st a memory.(chapter_start) in
  set_all_memories st memory.(id) a.

Definition load_memories (records : list MemoryUnit) : Store :=
  fold_left load_memory records empty_store.

(** [get_memory_evolution(memory_id)]: a [while] loop, so a big-step relation
    [evolution_loop st current_id evolution result]; [current_id] is truthy
    when it is a non-empty string. *)
Inductive evolution_loop (st : Store) : option string -> list MemoryUnit -> list MemoryUnit -> Prop :=
| evo_stop_none evolution :
    evolution_loop st None evolution evolution
| evo_stop_empty evolution :
    evolution_loop st (Some EmptyString) evolution evolution
| evo_break cid evolution :
    cid <> EmptyString ->
    Py.get String.eqb cid st.(all_memories) = None ->
    evolution_loop st (Some cid) evolution evolution
| evo_step cid a evolution result :
    cid <> EmptyString ->
    Py.get String.eqb cid st.(all_memories) = Some a ->
    evolution_loop st (st.(heap) a).(supersedes) (st.(heap) a :: evolution) result ->
    evolution_loop st (Some cid) evolution result.

Definition get_memory_evolution (st : Store) (memory_id : string) (result : list MemoryUnit) : Prop :=
  evolution_loop st (Some memory_id) [] result.

(** [range(1, chapter + 1)] *)
Definition chapters_upto (chapter : Z) : list Z :=
  map (fun n => Z.of_nat n + 1) (seq 0 (Z.to_nat chapter)).

Definition visible_at (chapter : Z) (m : MemoryUnit) : bool :=
  m.(is_active) &&
  match m.(chapter_end) with None => true | Some e => chapter <=? e end.

Definition get_memories_at_chapter (st : Store) (chapter : Z) : list addr :=
  flat_map (fun ch =>
    match Py.get Z.eqb ch st.(chapter_memories) with
    | Some mems => filter (fun a => visible_at chapter (st.(heap) a)) mems
    | None => []
    end) (chapters_upto chapter).

(** The records [all_memories.values()] iterates over, in order. *)
Definition stored_records (st : Store) : list MemoryUnit :=
  map st.(heap) (Py.values st.(all_memories)).

(** A line of the store file, as [json.loads] reads it: the fields of a
    [MemoryUnit], each [float] a JSON number ([Some]) or [null] ([None]);
    [json.loads] also reads the literals [NaN] and [Infinity] as floats. *)
Record Line := mkLine {
  line_id : string;
  line_mem_type : string;
  line_subjects : list string;
  line_predicate : string;
  line_object : string;
  line_fact_text : string;
  line_chapter_start : Z;
  line_chapter_end : option Z;
  line_visibility : string;
  line_confidence : option float;
  line_is_active : bool;
  line_provenance : Provenance;
  line_version : Z;
  line_supersedes : option string;
  line_superseded_by : option string;
  line_update_reason : option string;
  line_update_confidence : option float;
  line_embedding : option (list (option float));
  line_attrs : list (string * string)
}.

(** Pydantic's JSON serializer writes a finite float as a number and NaN or
    an infinity as [null]. *)
Definition json_number (f : float) : option float :=
  if PrimFloat.is_finite f then Some f else None.

(** [memory.model_dump_json()]: every field is written. *)
Definition model_dump_json (m : MemoryUnit) : Line :=
  mkLine m.(id) m.(mem_type) m.(subjects) m.(predicate) m.(object) m.(fact_text)
    m.(chapter_start) m.(chapter_end) m.(visibility) (json_number m.(confidence))
    m.(is_active) m.(provenance) m.(version) m.(supersedes) m.(superseded_by)
    m.(update_reason)
    (match m.(update_confidence) with Some f => json_number f | None => None end)
    (option_map (map json_number) m.(embedding)) m.(attrs).

(** Validation of a [List[float]]: a [null] element is rejected. *)
Fixpoint float_list (xs : list (option float)) : option (list float) :=
  match xs with
  | [] => Some []
  | None :: _ => None
  | Some f :: t => option_map (cons f) (float_list t)
  end.

(** [MemoryUnit( **memory_data)]: [None] when validation raises, that is when
    [confidence] ([float]) is [null] or [embedding] holds a [null];
    [update_confidence] ([Optional[float]]) takes [null] as [None]. *)
Definition memory_unit_of_line (l : Line) : option MemoryUnit :=
  match l.(line_confidence) with
  | None => None
  | Some c =>
      let emb := match l.(line_embedding) with
                 | None => Some None
                 | Some xs => option_map Some (float_list xs)
                 end in
      match emb with
      | None => None
      | Some e =>
          Some (mkMemoryUnit l.(line_id) l.(line_mem_type) l.(line_subjects)
                  l.(line_predicate) l.(line_object) l.(line_fact_text)
                  l.(line_chapter_start) l.(line_chapter_end) l.(line_visibility) c
                  l.(line_is_active) l.(line_provenance) l.(line_version)
                  l.(line_supersedes) l.(line_superseded_by) l.(line_update_reason)
                  l.(line_update_confidence) e l.(line_attrs))
      end
  end.

Fixpoint memory_units_of_lines (ls : list Line) : option (list MemoryUnit) :=
  match ls with
  | [] => Some []
  | l :: t =>
      match memory_unit_of_line l with
      | None => None
      | Some m => option_map (cons m) (memory_units_of_lines t)
      end
  end.

(** [SimpleMemoryStore(path)] on an existing file of (non-blank) lines; an
    exception of [MemoryUnit( **memory_data)] leaves the constructor, so no
    store is built ([None]). *)
Definition load_memories_lines (lines : list Line) : option Store :=
  option_map load_memories (memory_units_of_lines lines).

(** [save_memories()]: one line per record of [all_memories.values()]. *)
Definition save_memories (st : Store) : list Line :=
  map model_dump_json (stored_records st).

(** [find_existing_memory(memory)] *)
Definition find_existing_memory (st : Store) (memory : MemoryUnit) : option addr :=
  let memory_key := get_key memory in
  find (fun a => (st.(heap) a).(is_active) && String.eqb (get_key (st.(heap) a)) memory_key)
    (Py.values st.(all_memories)).

(** [list.sort(key=lambda x: x.chapter_start)] is stable: each element goes
    after the elements already placed whose key is not greater. *)
Fixpoint insert_by_start (m : MemoryUnit) (l : list MemoryUnit) : list MemoryUnit :=
  match l with
  | [] => [m]
  | y :: t => if m.(chapter_start) <? y.(chapter_start) then m :: y :: t
              else y :: insert_by_start m t
  end.

Definition sort_by_start (l : list MemoryUnit) : list MemoryUnit :=
  fold_left (fun acc m => insert_by_start m acc) l [].

(** [get_memory_timeline(canonical_key)] *)
Definition get_memory_timeline (st : Store) (canonical_key : string) : list MemoryUnit :=
  let timeline := filter (fun m => String.eqb (get_key m) canonical_key)
                    (map st.(heap) (Py.values st.(all_memories))) in
  sort_by_start timeline.

(** [get_chapter_summary()]: [{chapter: len(memories) for ... in
    chapter_memories.items()}] *)
Definition get_chapter_summary (st : Store) : list (Z * Z) :=
  map (fun p => (fst p, Z.of_nat (List.length (snd p)))) st.(chapter_memories).

(** [get_total_memories()]: [len(all_memories)] *)
Definition get_total_memories (st : Store) : Z :=
  Z.of_nat (List.length st.(all_memories)).

(** [sorted] on a list of [int]s. *)
Fixpoint insert_Z (x : Z) (l : list Z) : list Z :=
  match l with
  | [] => [x]
  | y :: t => if x <=? y then x :: y :: t else y :: insert_Z x t
  end.

Fixpoint sort_Z (l : list Z) : list Z :=
  match l with
  | [] => []
  | x :: t => insert_Z x (sort_Z t)
  end.

(** [get_chapters_with_memories()]: [sorted(chapter_memories.keys())] *)
Definition get_chapters_with_memories (st : Store) : list Z :=
  sort_Z (map fst st.(chapter_memories)).

(** ** [src/generate_memory_sets.py]: [process_chapters_sequentially]

    The memories [extract_memories_from_chapter] returns (an LLM call) are the
    input: one [(chapter_number, memories)] pair per chapter, in order.  An
    empty list is the [continue] branch.  The [action] string contains
    ["updated"] exactly for the [updated_existing_score_...] results. *)
Record ProcessResult := mkProcessResult {
  chapters_processed : Z;
  new_memories : Z;
  updated_memories : Z;
  total_memories : Z
}.

Fixpoint process_chapter_memories (uuid4 : nat -> string) (st : Store)
  (memories : list MemoryUnit) (chapter_number : Z) (total_new total_updated : Z)
  : Store * Z * Z :=
  match memories with
  | [] => (st, total_new, total_updated)
  | memory :: rest =>
      let '(st, _, action) :=
        smart_update_or_create uuid4 st memory chapter_number default_threshold in
      match action with
      | UpdatedExisting _ =>
          process_chapter_memories uuid4 st rest chapter_number total_new (total_updated + 1)
      | CreatedNew =>
          process_chapter_memories uuid4 st rest chapter_number (total_new + 1) total_updated
      end
  end.

Fixpoint process_chapters (uuid4 : nat -> string) (st : Store)
  (chapters : list (Z * list MemoryUnit)) (total_new total_updated : Z) : Store * Z * Z :=
  match chapters with
  | [] => (st, total_new, total_updated)
  | (chapter_number, chapter_memories) :: rest =>
      let '(st, total_new, total_updated) :=
        process_chapter_memories uuid4 st chapter_memories chapter_number total_new total_updated in
      process_chapters uuid4 st rest total_new total_updated
  end.

Definition process_chapters_sequentially (uuid4 : nat -> string)
  (chapters : list (Z * list MemoryUnit)) (memory_store : Store) : Store * ProcessResult :=
  let '(st, total_new, total_updated) := process_chapters uuid4 memory_store chapters 0 0 in
  (st, mkProcessResult (Z.of_nat (List.length chapters)) total_new total_updated
         (get_total_memories st)).

(** ** [src/eval/consistency_eval.py] *)

Record WorldFutureLeak := mkWorldFutureLeak {
  wl_memory_id : string;
  wl_canonical_key : string;
  wl_chapter : Z;
  wl_fact_text : string;
  wl_future_indicator : string
}.

Definition future_indicators : list string :=
  ["will"; "going to"; "plan to"; "intend to"; "future"; "upcoming";
   "next week"; "next month"; "next year"; "tomorrow"; "later"]%string.

(** The inner [for indicator in ...: if indicator in text: ...; break]. *)
Definition first_indicator (indicators : list string) (fact_lower : string) : option string :=
  find (fun i => Py.contains fact_lower i) indicators.

Definition world_leak_of (m : MemoryUnit) : list WorldFutureLeak :=
  if String.eqb m.(mem_type) "WM" && m.(is_active) then
    match first_indicator future_indicators (Py.lower m.(fact_text)) with
    | Some indicator =>
        [mkWorldFutureLeak m.(id) (get_key m) m.(chapter_start) m.(fact_text) indicator]
    | None => []
    end
  else [].

Definition check_world_future_leaks (st : Store) : list WorldFutureLeak :=
  flat_map (fun a => world_leak_of (st.(heap) a)) (Py.values st.(all_memories)).

Record SymmetryViolation := mkSymmetryViolation {
  sv_memory_id : string;
  sv_relationship_key : string;
  sv_character1 : string;
  sv_character2 : string;
  sv_fact_text : string;
  sv_asymmetric_indicator : string
}.

Definition asymmetric_indicators : list string :=
  ["likes"; "hates"; "loves"; "dislikes"; "admires"; "despises";
   "trusts"; "distrusts"; "respects"; "disrespects"]%string.

Definition rel_key_of (c1 c2 : string) : string :=
  String.append c1 (String.append Py.sep2 c2).

Definition is_relationship_memory (m : MemoryUnit) : bool :=
  String.eqb m.(mem_type) "IC" && m.(is_active) && Nat.eqb (List.length m.(subjects)) 2.

(** One iteration of the loop building [relationships]. *)
Definition add_relationship (st : Store) (rels : list (string * list addr)) (a : addr)
  : list (string * list addr) :=
  let m := st.(heap) a in
  if is_relationship_memory m then
    match Py.sorted m.(subjects) with
    | [char1; char2] =>
        let rel_key := rel_key_of char1 char2 in
        let lst := match Py.get String.eqb rel_key rels with Some l => l | None => [] end in
        Py.setitem String.eqb rel_key (lst ++ [a]) rels
    | _ => rels  (* unreachable: [sorted] keeps the two subjects *)
    end
  else rels.

Definition relationships (st : Store) : list (string * list addr) :=
  fold_left (add_relationship st) (Py.values st.(all_memories)) [].

(** The check of one [relationships] entry; [None] is the [ValueError] raised
    when [rel_key.split("::")] does not give two parts. *)
Definition symmetry_of_group (st : Store) (rels : list (string * list addr))
  (rel_key : string) (memories : list addr) : option (list SymmetryViolation) :=
  match memories with
  | [a] =>
      let m := st.(heap) a in
      match first_indicator asymmetric_indicators (Py.lower m.(fact_text)) with
      | Some indicator =>
          match Py.split_dc rel_key with
          | [char1; char2] =>
              let reverse_key := rel_key_of char2 char1 in
              match Py.get String.eqb reverse_key rels with
              | None => Some [mkSymmetryViolation m.(id) rel_key char1 char2
                                m.(fact_text) indicator]
              | Some _ => Some []
              end
          | _ => None
          end
      | None => Some []
      end
  | _ => Some []
  end.

Fixpoint symmetry_scan (st : Store) (rels : list (string * list addr))
  (groups : list (string * list addr)) : option (list SymmetryViolation) :=
  match groups with
  | [] => Some []
  | (k, mems) :: t =>
      match symmetry_of_group st rels k mems with
      | None => None
      | Some l1 =>
          match symmetry_scan st rels t with
          | None => None
          | Some l2 => Some (l1 ++ l2)
          end
      end
  end.

Definition check_symmetry_violations (st : Store) : option (list SymmetryViolation) :=
  let rels := relationships st in
  symmetry_scan st rels rels.

(** [check_time_overlap_conflicts]: the pairs [(memory1, memory2)] with
    [memory2] after [memory1] in [all_memories.values()]; [type] and
    [description] are constants and a format of the other fields. *)
Record TimeOverlapConflict := mkTimeOverlapConflict {
  to_memory1_id : string;
  to_memory2_id : string;
  to_canonical_key : string;
  to_memory1_chapter : Z;
  to_memory2_chapter : Z;
  to_memory1_fact : string;
  to_memory2_fact : string
}.

Definition overlap_of (memory1 memory2 : MemoryUnit) : list TimeOverlapConflict :=
  if String.eqb (get_key memory1) (get_key memory2) then
    if negb (memory1.(chapter_start) =? memory2.(chapter_start)) then
      if memory1.(is_active) && memory2.(is_active) then
        [mkTimeOverlapConflict memory1.(id) memory2.(id) (get_key memory1)
           memory1.(chapter_start) memory2.(chapter_start)
           memory1.(fact_text) memory2.(fact_text)]
      else []
    else []
  else [].

Fixpoint overlap_scan (all_memories : list MemoryUnit) : list TimeOverlapConflict :=
  match all_memories with
  | [] => []
  | memory1 :: rest => flat_map (overlap_of memory1) rest ++ overlap_scan rest
  end.

Definition check_time_overlap_conflicts (st : Store) : list TimeOverlapConflict :=
  overlap_scan (map st.(heap) (Py.values st.(all_memories))).

(** [check_crosstalk_violations]; [type] and [description] are left out as
    above, and so is [known_facts], which is built and never read. *)
Record CrosstalkViolation := mkCrosstalkViolation {
  cv_memory_id : string;
  cv_character : string;
  cv_chapter : Z;
  cv_referenced_character : string;
  cv_referenced_chapter : Z;
  cv_fact_text : string
}.

(** [character_knowledge[subject][chapter].append(memory)] *)
Definition add_knowledge (chapter : Z) (a : addr)
  (ck : list (string * list (Z * list addr))) (subject : string)
  : list (string * list (Z * list addr)) :=
  if negb (String.eqb subject "world") && negb (String.eqb subject "user_123") then
    let chapters := match Py.get String.eqb subject ck with Some c => c | None => [] end in
    let lst := match Py.get Z.eqb chapter chapters with Some l => l | None => [] end in
    Py.setitem String.eqb subject (Py.setitem Z.eqb chapter (lst ++ [a]) chapters) ck
  else ck.

Definition add_memory_knowledge (st : Store) (ck : list (string * list (Z * list addr)))
  (a : addr) : list (string * list (Z * list addr)) :=
  let memory := st.(heap) a in
  if memory.(is_active) then
    fold_left (add_knowledge memory.(chapter_start) a) memory.(subjects) ck
  else ck.

Definition character_knowledge (st : Store) : list (string * list (Z * list addr)) :=
  fold_left (add_memory_knowledge st) (Py.values st.(all_memories)) [].

(** The loops over [character_knowledge.items()] for one [memory] of
    [character] at [chapter]. *)
Definition crosstalk_of (st : Store) (ck : list (string * list (Z * list addr)))
  (character : string) (chapter : Z) (a : addr) : list CrosstalkViolation :=
  let memory := st.(heap) a in
  let fact_lower := Py.lower memory.(fact_text) in
  flat_map (fun oc =>
    let '(other_char, other_chapters) := oc in
    if negb (String.eqb other_char character) then
      flat_map (fun och =>
        let '(other_chapter, other_memories) := och in
        if chapter <? other_chapter then
          flat_map (fun b =>
            if String.eqb (st.(heap) b).(mem_type) "C2U" then
              if Py.contains fact_lower (Py.lower other_char) then
                [mkCrosstalkViolation memory.(id) character chapter other_char
                   other_chapter memory.(fact_text)]
              else []
            else []) other_memories
        else []) other_chapters
    else []) ck.

Definition check_crosstalk_violations (st : Store) : list CrosstalkViolation :=
  let ck := character_knowledge st in
  flat_map (fun cc =>
    let '(character, chapters) := cc in
    flat_map (fun chapter =>
      (* [chapters[chapter]] for a key of [chapters] *)
      let mems := match Py.get Z.eqb chapter chapters with Some l => l | None => [] end in
      flat_map (crosstalk_of st ck character chapter) mems)
      (sort_Z (map fst chapters))) ck.

(** A concrete [uuid4] for evaluating the model on examples. *)
Fixpoint demo_uuid (n : nat) : string :=
  match n with
  | O => "u"
  | S k => String "x" (demo_uuid k)
  end.

(** Candidates as [MemoryExtractor] builds them, and the stores used as
    concrete inputs below. *)
Definition demo_candidate (mtype text : string) (subj : list string) (pred obj : string)
  (conf : float) (ch : Z) : MemoryUnit :=
  mkMemoryUnit "candidate" mtype subj pred obj text ch None "shared" conf true
    (mkProvenance ch "synopsis" "") 1 None None None None None [("language", "en")]%string.

Definition demo_trust (text : string) (subj : list string) (conf : float) (ch : Z) : MemoryUnit :=
  demo_candidate "IC" text subj "relationship" "trusts" conf ch.

(** Chapter 1: "sylvain trusts annette" is created. *)
Definition demo_store1 : Store :=
  fst (fst (smart_update_or_create demo_uuid empty_store
    (demo_trust "sylvain trusts annette" ["sylvain"; "annette"]%string 0.9 1) 1 default_threshold)).

(** Chapter 3: the same fact slot, subjects in the other order, supersedes it. *)
Definition demo_store2 : Store :=
  fst (fst (smart_update_or_create demo_uuid demo_store1
    (demo_trust "annette trusts sylvain" ["annette"; "sylvain"]%string 1.0 3) 3 default_threshold)).

(** Stores built by the resolver from an empty store: [process_chapters_sequentially]
    calls [smart_update_or_create] once per extracted candidate;
    [P memory chapter] restricts the calls considered. *)
Inductive resolver_reachable (uuid4 : nat -> string) (P : MemoryUnit -> Z -> Prop) : Store -> Prop :=
| reach_empty : resolver_reachable uuid4 P empty_store
| reach_step st memory chapter threshold :
    resolver_reachable uuid4 P st ->
    P memory chapter ->
    resolver_reachable uuid4 P
      (fst (fst (smart_update_or_create uuid4 st memory chapter threshold))).

(** Any call. *)
Definition any_call (_ : MemoryUnit) (_ : Z) : Prop := True.

(** A candidate as [MemoryExtractor] builds it: no [chapter_end], no links. *)
Definition fresh_candidate (m : MemoryUnit) : Prop :=
  m.(chapter_end) = None /\ m.(supersedes) = None /\ m.(superseded_by) = None.

Definition fresh_call (m : MemoryUnit) (_ : Z) : Prop := fresh_candidate m.

(** A fresh candidate passed with its own chapter, as
    [process_chapters_sequentially] does ([chapter_start = chapter_number]). *)
Definition aligned_call (m : MemoryUnit) (chapter : Z) : Prop :=
  fresh_candidate m /\ m.(chapter_start) = chapter.

(** Stores the program works with: [SimpleMemoryStore(path)] loads the
    records of the file (none when the file does not exist), then
    [process_chapters_sequentially] calls [smart_update_or_create]. *)
Inductive store_reachable (uuid4 : nat -> string) : Store -> Prop :=
| opened_from records : store_reachable uuid4 (load_memories records)
| opened_step st memory chapter threshold :
    store_reachable uuid4 st ->
    store_reachable uuid4 (fst (fst (smart_update_or_create uuid4 st memory chapter threshold))).

(** The score as the specification writes it,
    [0.3 * c + min(0.2, 0.05 * d) + (0.2 if ... else 0) + (0.1 if ... else 0)]
    clamped to [[0, 1]], evaluated with Python floats; compared below with
    [get_update_score]. *)
Definition spec_update_score (existing candidate : MemoryUnit) : float :=
  let s := (0.3 * candidate.(confidence)
            + Py.fmin 0.2 (0.05 * Py.float_of_int
                             (candidate.(chapter_start) - existing.(chapter_start))))%float in
  let s := (s + (if (existing.(confidence) <? candidate.(confidence))%float
                 then 0.2 else 0))%float in
  let s := (s + (if (existing.(chapter_start) <? candidate.(chapter_start) - 5)%Z
                 then 0.1 else 0))%float in
  Py.fmin 1 (Py.fmax 0 s).

(** Two records of one key, both observed in chapter 1. *)
Definition demo_store_tie : Store :=
  fst (fst (smart_update_or_create demo_uuid demo_store1
    (demo_trust "annette is trusted by sylvain" ["annette"; "sylvain"]%string 0.9 1)
    1 default_threshold)).

(** A stored record with a given id and [supersedes] link. *)
Definition demo_record (i : string) (sup : option string) (ch : Z) : MemoryUnit :=
  mkMemoryUnit i "IC" ["annette"; "sylvain"]%string "relationship" "trusts"
    "annette trusts sylvain" ch None "shared" 0.9 true
    (mkProvenance ch "synopsis" "") 1 sup None None None None []%string.

(** A store file whose single record names itself as its predecessor, and one
    whose record names an id that is not in the file. *)
Definition demo_store_cycle : Store := load_memories [demo_record "m1" (Some "m1"%string) 2].
Definition demo_store_dangling : Store := load_memories [demo_record "m2" (Some "m0"%string) 2].

(** Chapter 5 creates a record; a later candidate observed in chapter 10 is
    then passed with chapter number 3. *)
Definition demo_store_late : Store :=
  fst (fst (smart_update_or_create demo_uuid
    (fst (fst (smart_update_or_create demo_uuid empty_store
       (demo_trust "sylvain trusts annette" ["sylvain"; "annette"]%string 0.9 5) 5 default_threshold)))
    (demo_trust "annette trusts sylvain" ["annette"; "sylvain"]%string 1.0 10) 3 default_threshold)).

(** Whether a name contains [":"]. *)
Fixpoint has_colon (s : string) : bool :=
  match s with
  | EmptyString => false
  | String c t => Ascii.eqb c ":" || has_colon t
  end.

(** [m] is one of the records [check_symmetry_violations] groups under the
    sorted pair [(c1, c2)]. *)
Definition same_pair (c1 c2 : string) (m : MemoryUnit) : bool :=
  is_relationship_memory m &&
  match Py.sorted m.(subjects) with
  | [d1; d2] => String.eqb d1 c1 && String.eqb d2 c2
  | _ => false
  end.

(** The group key of [a] in [relationships]; [opt] turns an empty group into
    an absent key. *)
Definition grp (st : Store) (k : string) (a : addr) : bool :=
  is_relationship_memory (st.(heap) a) &&
  match Py.sorted (st.(heap) a).(subjects) with
  | [c1; c2] => String.eqb (rel_key_of c1 c2) k
  | _ => false
  end.

Definition opt {A} (l : list A) : option (list A) :=
  match l with [] => None | _ => Some l end.

(** * Properties *)

(** ** Heap and dictionary lemmas *)

Lemma heap_write_same h a m : heap_write h a m a = m.
Proof. unfold heap_write. now rewrite Nat.eqb_refl. Qed.

Lemma heap_write_other h a b m : b <> a -> heap_write h a m b = h b.
Proof. intro Hne. unfold heap_write. now rewrite (proj2 (Nat.eqb_neq b a) Hne). Qed.

Section UpdateLemmas.

Variable uuid4 : nat -> string.

(** The objects after [update_existing_memory]: the new object is at
    [next_addr st], the old one is [ea] with three fields rewritten. *)
Lemma update_existing_memory_result st ea new_info chapter reason :
  (ea < next_addr st)%nat ->
  let '(st', na) := update_existing_memory uuid4 st ea new_info chapter reason in
  let e := heap st ea in
  na = next_addr st /\
  next_addr st' = S (next_addr st) /\
  uuid_ctr st' = S (S (uuid_ctr st)) /\
  heap st' ea =
    set_superseded_by
      (set_chapter_end (set_is_active e false) (Some (chapter - 1)))
      (Some (uuid4 (S (uuid_ctr st)))) /\
  heap st' na =
    mkMemoryUnit (uuid4 (S (uuid_ctr st))) e.(mem_type) e.(subjects)
      e.(predicate) e.(object) new_info.(fact_text)
      chapter None e.(visibility) new_info.(confidence) true
      new_info.(provenance) (e.(version) + 1)
      (Some e.(id)) None (Some reason)
      (Some new_info.(confidence)) None e.(attrs) /\
  (forall b, b <> ea -> b <> na -> heap st' b = heap st b) /\
  chapter_memories st' =
    Py.setitem Z.eqb chapter
      ((match Py.get Z.eqb chapter (chapter_memories st) with Some l => l | None => [] end)
         ++ [next_addr st]) (chapter_memories st) /\
  all_memories st' =
    Py.setitem String.eqb (uuid4 (S (uuid_ctr st))) (next_addr st) (all_memories st).
Proof.
  intro Hlt. cbn.
  assert (Hne : next_addr st <> ea) by lia.
  repeat split.
  - rewrite heap_write_other by lia. rewrite !heap_write_same. reflexivity.
  - rewrite heap_write_same. rewrite !heap_write_same. reflexivity.
  - intros b Hb1 Hb2. rewrite heap_write_other by exact Hb2.
    rewrite !heap_write_other by exact Hb1. reflexivity.
Qed.

End UpdateLemmas.

(** ** C1: the supersession performed by [update_existing_memory] *)

(** C1.  For an active record [ea] of the store and a candidate with the same
    canonical key, [update_existing_memory] at chapter [c] closes the old
    record ([is_active = false], [chapter_end = c - 1], [superseded_by] = the
    new id) and creates a record that points back at it, has version
    [old.version + 1], [chapter_start = c], no [chapter_end], is active and
    carries the candidate's text, confidence and provenance. *)
Theorem update_existing_memory_supersedes (uuid4 : nat -> string) st ea cand c reason
  (Halloc : (ea < next_addr st)%nat)
  (Hin : In ea (Py.values (all_memories st)))
  (Hactive : is_active (heap st ea) = true)
  (Hkey : get_key (heap st ea) = get_key cand) :
  let '(st', na) := update_existing_memory uuid4 st ea cand c reason in
  let e := heap st' ea in
  let n := heap st' na in
  is_active e = false /\ chapter_end e = Some (c - 1) /\
  superseded_by e = Some (id n) /\ supersedes n = Some (id e) /\
  version n = version e + 1 /\ chapter_start n = c /\ chapter_end n = None /\
  is_active n = true /\ fact_text n = fact_text cand /\
  confidence n = confidence cand /\ provenance n = provenance cand.
Proof.
  pose proof (update_existing_memory_result uuid4 st ea cand c reason Halloc) as H.
  destruct (update_existing_memory uuid4 st ea cand c reason) as [st' na].
  destruct H as (Hna & _ & _ & He & Hn & _).
  cbv zeta. rewrite He, Hn. cbn. repeat split.
Qed.

Lemma update_existing_memory_supersedes_witness :
  let ea := 0%nat in
  let cand := demo_trust "annette trusts sylvain" ["annette"; "sylvain"]%string 1.0 3 in
  (ea < next_addr demo_store1)%nat /\
  In ea (Py.values (all_memories demo_store1)) /\
  is_active (heap demo_store1 ea) = true /\
  get_key (heap demo_store1 ea) = get_key cand /\
  (let '(st', na) := update_existing_memory demo_uuid demo_store1 ea cand 3 "moderate_update" in
   let e := heap st' ea in
   let n := heap st' na in
   is_active e = false /\ chapter_end e = Some (3 - 1) /\
   superseded_by e = Some (id n) /\ supersedes n = Some (id e) /\
   version n = version e + 1 /\ chapter_start n = 3 /\ chapter_end n = None /\
   is_active n = true /\ fact_text n = fact_text cand /\
   confidence n = confidence cand /\ provenance n = provenance cand).
Proof.
  intros ea cand.
  assert (H1 : (ea < next_addr demo_store1)%nat) by (vm_compute; auto).
  assert (H2 : In ea (Py.values (all_memories demo_store1))) by (vm_compute; auto).
  assert (H3 : is_active (heap demo_store1 ea) = true) by (vm_compute; auto).
  assert (H4 : get_key (heap demo_store1 ea) = get_key cand) by (vm_compute; auto).
  exact (conj H1 (conj H2 (conj H3 (conj H4
    (update_existing_memory_supersedes demo_uuid demo_store1 ea cand 3 "moderate_update"
       H1 H2 H3 H4))))).
Defined.

(** ** The order on [str] and [sorted] *)

Lemma string_compare_not_gt_trans (a b c : string) :
  String.compare a b <> Gt -> String.compare b c <> Gt -> String.compare a c <> Gt.
Proof.
  revert b c. induction a as [|x a IH]; intros [|y b] [|z c]; cbn; try congruence.
  unfold Ascii.compare.
  destruct (N.compare_spec (N_of_ascii x) (N_of_ascii y)) as [Exy|Lxy|Gxy];
  destruct (N.compare_spec (N_of_ascii y) (N_of_ascii z)) as [Eyz|Lyz|Gyz];
  try congruence.
  - rewrite Exy, Eyz, N.compare_refl. apply IH.
  - intros _ _. rewrite Exy. now rewrite (proj2 (N.compare_lt_iff _ _) Lyz).
  - intros _ _. rewrite <- Eyz. now rewrite (proj2 (N.compare_lt_iff _ _) Lxy).
  - intros _ _. now rewrite (proj2 (N.compare_lt_iff _ _) (N.lt_trans _ _ _ Lxy Lyz)).
Qed.

Lemma string_leb_trans (a b c : string) :
  String.leb a b = true -> String.leb b c = true -> String.leb a c = true.
Proof.
  unfold String.leb.
  pose proof (string_compare_not_gt_trans a b c) as H.
  destruct (String.compare a b), (String.compare b c), (String.compare a c);
    intuition congruence.
Qed.

Definition sleb (a b : string) : Prop := String.leb a b = true.

Module Sorting.

Lemma insert_sorted_perm x l : Permutation (x :: l) (Py.insert_sorted x l).
Proof.
  induction l as [|y l IH]; cbn; [reflexivity|].
  destruct (String.leb x y); [reflexivity|].
  rewrite perm_swap. now constructor.
Qed.

Lemma sorted_perm l : Permutation l (Py.sorted l).
Proof.
  induction l as [|x l IH]; cbn; [reflexivity|].
  rewrite <- insert_sorted_perm. now constructor.
Qed.

Lemma insert_sorted_ss x l :
  StronglySorted sleb l -> StronglySorted sleb (Py.insert_sorted x l).
Proof.
  induction 1 as [|y l Hl IH Hall]; cbn.
  - repeat constructor.
  - destruct (String.leb x y) eqn:Hxy.
    + constructor; [constructor; assumption|].
      constructor; [exact Hxy|].
      eapply Forall_impl; [|exact Hall]. intros z Hz. exact (string_leb_trans _ _ _ Hxy Hz).
    + constructor; [exact IH|].
      assert (Hyx : sleb y x).
      { destruct (String.leb_total x y) as [H|H]; [congruence|exact H]. }
      eapply Permutation_Forall; [apply insert_sorted_perm|].
      now constructor.
Qed.

Lemma sorted_ss l : StronglySorted sleb (Py.sorted l).
Proof. induction l; cbn; [constructor|]. now apply insert_sorted_ss. Qed.

Lemma ss_perm_eq l1 l2 :
  StronglySorted sleb l1 -> StronglySorted sleb l2 -> Permutation l1 l2 -> l1 = l2.
Proof.
  revert l2. induction l1 as [|x t1 IH]; intros l2 H1 H2 Hp.
  - symmetry. now apply Permutation_nil.
  - destruct l2 as [|y t2]; [symmetry in Hp; now apply Permutation_nil in Hp|].
    apply StronglySorted_inv in H1 as [Ht1 Hx].
    apply StronglySorted_inv in H2 as [Ht2 Hy].
    assert (Hxy : x = y).
    { assert (Hx2 : In x (y :: t2)) by (eapply Permutation_in; [exact Hp|now left]).
      assert (Hy1 : In y (x :: t1)) by (eapply Permutation_in; [symmetry; exact Hp|now left]).
      destruct Hx2 as [->|Hx2]; [reflexivity|].
      destruct Hy1 as [->|Hy1]; [reflexivity|].
      apply String.leb_antisym.
      - exact (proj1 (Forall_forall _ _) Hx _ Hy1).
      - exact (proj1 (Forall_forall _ _) Hy _ Hx2). }
    subst y. f_equal. apply IH; auto. eapply Permutation_cons_inv; exact Hp.
Qed.

Lemma sorted_perm_eq l1 l2 : Permutation l1 l2 -> Py.sorted l1 = Py.sorted l2.
Proof.
  intro Hp. apply ss_perm_eq; try apply sorted_ss.
  rewrite <- !sorted_perm. exact Hp.
Qed.

End Sorting.

(** ** C8: the canonical key ignores the order of the subjects *)

(** C8.  Two records whose subject lists are permutations of each other and
    which share predicate and object have the same canonical key, since
    [get_key] joins the sorted subjects with the predicate and the object. *)
Theorem get_key_subject_permutation (m1 m2 : MemoryUnit)
  (Hperm : Permutation m1.(subjects) m2.(subjects))
  (Hpred : m1.(predicate) = m2.(predicate))
  (Hobj : m1.(object) = m2.(object)) :
  get_key m1 = get_key m2.
Proof.
  unfold get_key. rewrite (Sorting.sorted_perm_eq _ _ Hperm), Hpred, Hobj. reflexivity.
Qed.

Lemma get_key_subject_permutation_witness :
  let m1 := demo_candidate "IC" "" ["b"; "a"]%string "p" "o" 0.9 1 in
  let m2 := demo_candidate "IC" "" ["a"; "b"]%string "p" "o" 0.9 1 in
  Permutation m1.(subjects) m2.(subjects) /\ get_key m1 = get_key m2.
Proof.
  intros m1 m2.
  assert (Hp : Permutation m1.(subjects) m2.(subjects)) by apply perm_swap.
  exact (conj Hp (get_key_subject_permutation m1 m2 Hp eq_refl eq_refl)).
Defined.

(** ** [dict] lemmas *)

Section DictLemmas.
Context {K V : Type} (eqk : K -> K -> bool).
Hypothesis eqk_spec : forall x y, eqk x y = true <-> x = y.

Lemma eqk_refl k : eqk k k = true.
Proof. now apply eqk_spec. Qed.

Lemma eqk_false k k' : k <> k' -> eqk k k' = false.
Proof.
  intro Hne. destruct (eqk k k') eqn:E; [|reflexivity].
  exfalso. apply Hne. now apply eqk_spec.
Qed.

Lemma set_in_place_none_get (k : K) (v : V) d :
  Py.set_in_place eqk k v d = None -> Py.get eqk k d = None.
Proof.
  induction d as [|[k' v'] t IH]; cbn; [reflexivity|].
  destruct (eqk k k'); [discriminate|].
  destruct (Py.set_in_place eqk k v t); [discriminate|]. auto.
Qed.

Lemma get_app_none (k : K) (d e : list (K * V)) :
  Py.get eqk k d = None -> Py.get eqk k (d ++ e) = Py.get eqk k e.
Proof.
  induction d as [|[k' v'] t IH]; cbn; [reflexivity|].
  destruct (eqk k k'); [discriminate|]. exact IH.
Qed.

Lemma get_setitem (k k' : K) (v : V) d :
  Py.get eqk k' (Py.setitem eqk k v d) =
  if eqk k' k then Some v else Py.get eqk k' d.
Proof.
  unfold Py.setitem.
  destruct (Py.set_in_place eqk k v d) as [d'|] eqn:Hs.
  - revert d' Hs. induction d as [|[k0 v0] t IH]; intros d' Hs; cbn in *; [discriminate|].
    destruct (eqk k k0) eqn:Hk0.
    + injection Hs as <-. apply eqk_spec in Hk0. subst k0. cbn. now destruct (eqk k' k).
    + destruct (Py.set_in_place eqk k v t) as [t'|] eqn:Ht; [|discriminate].
      injection Hs as <-. cbn.
      destruct (eqk k' k0) eqn:Hk'0.
      * apply eqk_spec in Hk'0. subst k0.
        destruct (eqk k' k) eqn:Hkk; [|reflexivity].
        apply eqk_spec in Hkk. subst. now rewrite eqk_refl in Hk0.
      * now apply IH.
  - pose proof (set_in_place_none_get _ _ _ Hs) as Hnone.
    destruct (eqk k' k) eqn:Hkk.
    + apply eqk_spec in Hkk. subst k'. rewrite get_app_none by exact Hnone.
      cbn. now rewrite eqk_refl.
    + destruct (Py.get eqk k' d) eqn:Hg.
      * clear -Hg. induction d as [|[k1 v1] t IH]; cbn in *; [discriminate|].
        destruct (eqk k' k1); [exact Hg|]. now apply IH.
      * rewrite get_app_none by exact Hg. cbn. now rewrite Hkk.
Qed.

Lemma in_values_setitem (k : K) (v a : V) d :
  In a (Py.values (Py.setitem eqk k v d)) -> a = v \/ In a (Py.values d).
Proof.
  unfold Py.setitem, Py.values.
  destruct (Py.set_in_place eqk k v d) as [d'|] eqn:Hs.
  - revert d' Hs. induction d as [|[k0 v0] t IH]; intros d' Hs; cbn in *; [discriminate|].
    destruct (eqk k k0).
    + injection Hs as <-. cbn. intros [H|H]; [now left|now right; right].
    + destruct (Py.set_in_place eqk k v t) as [t'|]; [|discriminate].
      injection Hs as <-. cbn. intros [H|H]; [now right; left|].
      destruct (IH t' eq_refl H); [now left|now right; right].
  - rewrite map_app, in_app_iff. cbn. intros [H|[H|[]]]; [now right|now left].
Qed.

Lemma values_setitem_new (k : K) (v : V) d :
  Py.get eqk k d = None -> Py.values (Py.setitem eqk k v d) = Py.values d ++ [v].
Proof.
  intro Hn. unfold Py.setitem.
  destruct (Py.set_in_place eqk k v d) as [d'|] eqn:Hs.
  - exfalso. revert d' Hs Hn. induction d as [|[k0 v0] t IH]; intros d' Hs Hn; cbn in *; [discriminate|].
    destruct (eqk k k0); [discriminate|].
    destruct (Py.set_in_place eqk k v t) as [t'|]; [|discriminate]. eauto.
  - unfold Py.values. now rewrite map_app.
Qed.

Lemma get_in_values (k : K) (a : V) d : Py.get eqk k d = Some a -> In a (Py.values d).
Proof.
  induction d as [|[k0 v0] t IH]; cbn; [discriminate|].
  destruct (eqk k k0); [intros [= ->]; now left|]. intro H; right; auto.
Qed.

End DictLemmas.

Lemma Z_eqb_spec' x y : Z.eqb x y = true <-> x = y.
Proof. apply Z.eqb_eq. Qed.

Lemma String_eqb_spec' x y : String.eqb x y = true <-> x = y.
Proof. apply String.eqb_eq. Qed.

(** ** The two store mutations, as seen from the heap and the indexes *)

Section StoreSteps.

Variable uuid4 : nat -> string.

Lemma add_new_memory_result st m chapter :
  let '(st', na) := add_new_memory uuid4 st m chapter in
  na = next_addr st /\
  next_addr st' = S (next_addr st) /\
  uuid_ctr st' = S (uuid_ctr st) /\
  heap st' na =
    set_provenance_chapter (set_chapter_start (set_id m (uuid4 (uuid_ctr st))) chapter) chapter /\
  (forall b, b <> na -> heap st' b = heap st b) /\
  chapter_memories st' =
    Py.setitem Z.eqb chapter
      ((match Py.get Z.eqb chapter (chapter_memories st) with Some l => l | None => [] end)
         ++ [next_addr st]) (chapter_memories st) /\
  all_memories st' =
    Py.setitem String.eqb (uuid4 (uuid_ctr st)) (next_addr st) (all_memories st).
Proof.
  cbn. repeat split.
  - now rewrite heap_write_same.
  - intros b Hb. now rewrite heap_write_other.
Qed.

Lemma py_max_by_in {A} (key : A -> float) (best : A) xs :
  In (py_max_by key best xs) (best :: xs).
Proof.
  revert best. induction xs as [|x t IH]; intro best; cbn; [now left|].
  destruct (key best <? key x)%float.
  - specialize (IH x). destruct IH as [H|H]; [right; left; exact H|right; right; exact H].
  - specialize (IH best). destruct IH as [H|H]; [left; exact H|right; right; exact H].
Qed.

Lemma find_best_in_candidates st m thr a s :
  find_best_update_candidate st m thr = Some (a, s) ->
  In a (find_all_candidate_memories st m) /\ s = get_update_score (heap st a) m /\
  (thr <=? s)%float = true.
Proof.
  unfold find_best_update_candidate.
  set (cs := find_all_candidate_memories st m).
  destruct cs as [|c0 ct] eqn:Hcs; [discriminate|].
  set (sc := filter _ _).
  destruct sc as [|p t] eqn:Hsc; [discriminate|].
  intros [= Hp].
  assert (Hin : In (a, s) sc).
  { rewrite Hsc. rewrite <- Hp. apply py_max_by_in. }
  unfold sc in Hin. apply filter_In in Hin as [Hin Hthr].
  apply in_map_iff in Hin as [c [[= <- <-] Hc]].
  cbn [snd] in Hthr. auto.
Qed.

Lemma candidate_props st m a :
  In a (find_all_candidate_memories st m) ->
  In a (Py.values (all_memories st)) /\
  get_key (heap st a) = get_key m /\
  is_active (heap st a) = true /\
  chapter_start (heap st a) < chapter_start m.
Proof.
  unfold find_all_candidate_memories. intro H.
  apply filter_In in H as [Hin Hc]. apply andb_prop in Hc as [Hk Hu].
  unfold can_update in Hu.
  destruct (String.eqb (get_key (heap st a)) (get_key m)) eqn:Hk'; [|discriminate].
  apply String.eqb_eq in Hk'.
  destruct (is_active (heap st a)); [|discriminate].
  destruct (chapter_start m <=? chapter_start (heap st a)) eqn:Hl; [discriminate|].
  apply Z.leb_gt in Hl. auto.
Qed.

(** The index invariant of the store: the per-chapter lists hold allocated
    objects under their own [chapter_start], and every object is listed. *)
Record InvIdx (st : Store) : Prop := {
  idx_am_alloc : forall a, In a (Py.values (all_memories st)) -> (a < next_addr st)%nat;
  idx_cm : forall ch l a, Py.get Z.eqb ch (chapter_memories st) = Some l -> In a l ->
           (a < next_addr st)%nat /\ chapter_start (heap st a) = ch;
  idx_cover : forall a, (a < next_addr st)%nat ->
           exists l, Py.get Z.eqb (chapter_start (heap st a)) (chapter_memories st) = Some l /\ In a l
}.

Lemma InvIdx_empty : InvIdx empty_store.
Proof.
  constructor; cbn; [tauto|discriminate|lia].
Qed.

(** Adding address [na = next_addr st] under [chapter] to the chapter lists. *)
Lemma InvIdx_extend st st' chapter :
  InvIdx st ->
  next_addr st' = S (next_addr st) ->
  chapter_start (heap st' (next_addr st)) = chapter ->
  (forall b, (b < next_addr st)%nat -> chapter_start (heap st' b) = chapter_start (heap st b)) ->
  chapter_memories st' =
    Py.setitem Z.eqb chapter
      ((match Py.get Z.eqb chapter (chapter_memories st) with Some l => l | None => [] end)
         ++ [next_addr st]) (chapter_memories st) ->
  (forall a, In a (Py.values (all_memories st')) -> a = next_addr st \/ In a (Py.values (all_memories st))) ->
  InvIdx st'.
Proof.
  intros [Ham Hcm Hcov] Hnext Hstart Hold Hcm' Ham'.
  constructor.
  - intros a Ha. destruct (Ham' a Ha) as [->|Ha']; [lia|]. specialize (Ham a Ha'). lia.
  - intros ch l a Hg Ha. rewrite Hcm', (get_setitem Z.eqb Z_eqb_spec') in Hg.
    destruct (Z.eqb ch chapter) eqn:Hch.
    + apply Z.eqb_eq in Hch. subst ch. injection Hg as <-.
      apply in_app_iff in Ha as [Ha|[<-|[]]].
      * destruct (Py.get Z.eqb chapter (chapter_memories st)) as [l0|] eqn:Hl0; [|destruct Ha].
        destruct (Hcm _ _ _ Hl0 Ha) as [Hlt Hs]. split; [lia|]. rewrite Hold by exact Hlt. exact Hs.
      * split; [lia|exact Hstart].
    + destruct (Hcm _ _ _ Hg Ha) as [Hlt Hs]. split; [lia|]. rewrite Hold by exact Hlt. exact Hs.
  - intros a Ha. rewrite Hcm', (get_setitem Z.eqb Z_eqb_spec').
    destruct (Nat.eq_dec a (next_addr st)) as [->|Hne].
    + rewrite Hstart, Z.eqb_refl. eexists; split; [reflexivity|].
      apply in_app_iff. right. now left.
    + assert (Hlt : (a < next_addr st)%nat) by lia.
      rewrite (Hold a Hlt). destruct (Hcov a Hlt) as [l [Hg Hin]].
      destruct (Z.eqb (chapter_start (heap st a)) chapter) eqn:Hch.
      * apply Z.eqb_eq in Hch. rewrite Hch in Hg. rewrite Hg.
        eexists; split; [reflexivity|]. apply in_app_iff. now left.
      * exists l. auto.
Qed.

Lemma InvIdx_add_new st m chapter :
  InvIdx st -> InvIdx (fst (add_new_memory uuid4 st m chapter)).
Proof.
  intro Hinv. pose proof (add_new_memory_result st m chapter) as H.
  destruct (add_new_memory uuid4 st m chapter) as [st' na]. cbn [fst].
  destruct H as (-> & Hnext & _ & Hna & Hother & Hcm & Ham).
  apply (InvIdx_extend st st' chapter Hinv Hnext).
  - rewrite Hna. reflexivity.
  - intros b Hb. rewrite Hother by lia. reflexivity.
  - exact Hcm.
  - intros a Ha. rewrite Ham in Ha.
    apply (in_values_setitem String.eqb) in Ha. exact Ha.
Qed.

Lemma InvIdx_update st ea m chapter reason :
  InvIdx st -> (ea < next_addr st)%nat ->
  InvIdx (fst (update_existing_memory uuid4 st ea m chapter reason)).
Proof.
  intros Hinv Hea. pose proof (update_existing_memory_result uuid4 st ea m chapter reason Hea) as H.
  destruct (update_existing_memory uuid4 st ea m chapter reason) as [st' na]. cbn [fst].
  destruct H as (-> & Hnext & _ & He & Hna & Hother & Hcm & Ham).
  apply (InvIdx_extend st st' chapter Hinv Hnext).
  - rewrite Hna. reflexivity.
  - intros b Hb. destruct (Nat.eq_dec b ea) as [->|Hne].
    + rewrite He. reflexivity.
    + rewrite Hother by lia. reflexivity.
  - exact Hcm.
  - intros a Ha. rewrite Ham in Ha.
    apply (in_values_setitem String.eqb) in Ha. exact Ha.
Qed.

Lemma InvIdx_smart st m chapter thr :
  InvIdx st -> InvIdx (fst (fst (smart_update_or_create uuid4 st m chapter thr))).
Proof.
  intro Hinv. unfold smart_update_or_create.
  destruct (find_best_update_candidate st m thr) as [[a s]|] eqn:Hb.
  - apply find_best_in_candidates in Hb as [Ha _].
    apply candidate_props in Ha as [Ha _].
    pose proof (InvIdx_update st a m chapter
      (if (0.8 <? s)%float then "high_confidence_update"%string
       else if (0.6 <? s)%float then "moderate_update"%string
       else "low_confidence_update"%string) Hinv (idx_am_alloc _ Hinv a Ha)) as H.
    destruct (update_existing_memory _ _ _ _ _ _). exact H.
  - pose proof (InvIdx_add_new st m chapter Hinv) as H.
    destruct (add_new_memory _ _ _ _). exact H.
Qed.

Lemma InvIdx_reachable P st : resolver_reachable uuid4 P st -> InvIdx st.
Proof.
  induction 1; [exact InvIdx_empty|]. now apply InvIdx_smart.
Qed.

End StoreSteps.

Lemma InvIdx_load_memory st m : InvIdx st -> InvIdx (load_memory st m).
Proof.
  intro Hinv. apply (InvIdx_extend st _ (chapter_start m) Hinv).
  - reflexivity.
  - cbn. unfold heap_write. now rewrite Nat.eqb_refl.
  - intros b Hb. cbn. unfold heap_write.
    destruct (Nat.eqb b (next_addr st)) eqn:E; [apply Nat.eqb_eq in E; lia|reflexivity].
  - reflexivity.
  - intros a Ha. cbn in Ha. apply (in_values_setitem String.eqb) in Ha. exact Ha.
Qed.

Lemma InvIdx_load records : InvIdx (load_memories records).
Proof.
  unfold load_memories.
  assert (H : forall st, InvIdx st -> InvIdx (fold_left load_memory records st)).
  { induction records as [|m records IH]; intros st Hst; [exact Hst|].
    cbn [fold_left]. apply IH. now apply InvIdx_load_memory. }
  apply H. exact (InvIdx_empty (fun _ => EmptyString)).
Qed.

Lemma InvIdx_store_reachable uuid4 st : store_reachable uuid4 st -> InvIdx st.
Proof.
  induction 1; [apply InvIdx_load|now apply InvIdx_smart].
Qed.

(** ** C2: the point-in-time query *)

Lemma in_chapters_upto ch c : In ch (chapters_upto c) <-> 1 <= ch <= c.
Proof.
  unfold chapters_upto. rewrite in_map_iff. split.
  - intros [n [<- Hn]]. apply in_seq in Hn. lia.
  - intro H. exists (Z.to_nat (ch - 1)). split; [lia|]. apply in_seq. lia.
Qed.

Lemma visible_at_iff c m :
  visible_at c m = true <->
  is_active m = true /\ (chapter_end m = None \/ exists e, chapter_end m = Some e /\ c <= e).
Proof.
  unfold visible_at. destruct (is_active m), (chapter_end m) as [e|]; cbn; split.
  - intro H. split; [reflexivity|]. right. exists e. split; [reflexivity|]. now apply Z.leb_le.
  - intros [_ [H|[e' [[= <-] He]]]]; [discriminate|]. now apply Z.leb_le.
  - auto.
  - auto.
  - discriminate.
  - intros [H _]; discriminate.
  - discriminate.
  - intros [H _]; discriminate.
Qed.

(** A store file holding one record of chapter 2, then a candidate of
    chapter 3 that supersedes it. *)
Definition demo_store_opened : Store :=
  fst (fst (smart_update_or_create demo_uuid (load_memories [demo_record "m1" None 2])
    (demo_trust "annette trusts sylvain" ["annette"; "sylvain"]%string 1.0 3) 3 default_threshold)).

(** C2 (as amended).  On every store the program works with (the records
    of a file loaded by [SimpleMemoryStore], then any calls of
    [smart_update_or_create]), [get_memories_at_chapter c] returns exactly the
    objects of the store that are active, have [1 <= chapter_start <= c], and
    have no [chapter_end] or one [>= c]; in particular never one with
    [chapter_start > c] nor one with [chapter_end < c].  The objects of the
    store are the allocated ones (each loaded or created record, also a loaded
    record whose id a later line of the file reuses), each listed in the
    chapter index under its [chapter_start]. *)
Theorem get_memories_at_chapter_exact (uuid4 : nat -> string) st c a
  (Hreach : store_reachable uuid4 st) :
  In a (get_memories_at_chapter st c) <->
  (a < next_addr st)%nat /\ is_active (heap st a) = true /\
  1 <= chapter_start (heap st a) <= c /\
  (chapter_end (heap st a) = None \/
   exists e, chapter_end (heap st a) = Some e /\ c <= e).
Proof.
  pose proof (InvIdx_store_reachable uuid4 st Hreach) as [Ham Hcm Hcov].
  unfold get_memories_at_chapter. rewrite in_flat_map. split.
  - intros [ch [Hch Ha]]. apply in_chapters_upto in Hch.
    destruct (Py.get Z.eqb ch (chapter_memories st)) as [l|] eqn:Hg; [|destruct Ha].
    apply filter_In in Ha as [Ha Hv]. apply visible_at_iff in Hv as [Hact Hend].
    destruct (Hcm _ _ _ Hg Ha) as [Hlt Hs]. subst ch. auto.
  - intros (Hlt & Hact & Hrange & Hend).
    exists (chapter_start (heap st a)). split; [now apply in_chapters_upto|].
    destruct (Hcov a Hlt) as [l [Hg Hin]]. rewrite Hg.
    apply filter_In. split; [exact Hin|]. now apply visible_at_iff.
Qed.

Lemma get_memories_at_chapter_exact_witness :
  store_reachable demo_uuid demo_store_opened /\
  (In 1%nat (get_memories_at_chapter demo_store_opened 3) <->
   (1 < next_addr demo_store_opened)%nat /\ is_active (heap demo_store_opened 1%nat) = true /\
   1 <= chapter_start (heap demo_store_opened 1%nat) <= 3 /\
   (chapter_end (heap demo_store_opened 1%nat) = None \/
    exists e, chapter_end (heap demo_store_opened 1%nat) = Some e /\ 3 <= e)).
Proof.
  assert (Hr : store_reachable demo_uuid demo_store_opened).
  { apply opened_step. apply opened_from. }
  exact (conj Hr (get_memories_at_chapter_exact demo_uuid demo_store_opened 3 1%nat Hr)).
Defined.

(** A candidate observed in a chapter numbered 0. *)
Definition demo_store_ch0 : Store :=
  fst (fst (smart_update_or_create demo_uuid empty_store
    (demo_trust "sylvain trusts annette" ["sylvain"; "annette"]%string 0.9 0) 0 default_threshold)).

(** C2, counterexample.  A store reached by the resolver from an empty store
    holds an active record with [chapter_start = 0 <= 1] and no [chapter_end],
    yet [get_memories_at_chapter 1] does not return it: the query only scans
    the chapter lists 1 to [c]. *)
Lemma get_memories_at_chapter_chapter0 :
  resolver_reachable demo_uuid any_call demo_store_ch0 /\
  In 0%nat (Py.values (all_memories demo_store_ch0)) /\
  is_active (heap demo_store_ch0 0%nat) = true /\
  chapter_start (heap demo_store_ch0 0%nat) <= 1 /\
  chapter_end (heap demo_store_ch0 0%nat) = None /\
  ~ In 0%nat (get_memories_at_chapter demo_store_ch0 1).
Proof.
  split; [apply reach_step; [apply reach_empty|exact I]|].
  vm_compute. intuition (try discriminate).
Qed.

(** ** C7: the world-future-leak scan *)

Lemma find_some_iff {A} (p : A -> bool) l x :
  find p l = Some x <->
  exists pre post, l = pre ++ x :: post /\ p x = true /\ forall y, In y pre -> p y = false.
Proof.
  induction l as [|y t IH]; cbn.
  - split; [discriminate|]. intros (pre & post & Hl & _). destruct pre; discriminate.
  - destruct (p y) eqn:Hy; split.
    + intros [= <-]. exists [], t. split; [reflexivity|]. split; [exact Hy|]. intros ? [].
    + intros ([|z pre] & post & Hl & Hx & Hpre); cbn in Hl; injection Hl as Hl1 Hl2.
      * congruence.
      * subst z. rewrite (Hpre y (or_introl eq_refl)) in Hy. discriminate.
    + intro H. apply IH in H as (pre & post & Hl & Hx & Hpre).
      exists (y :: pre), post. rewrite Hl. split; [reflexivity|]. split; [exact Hx|].
      intros z [<-|Hz]; auto.
    + intros ([|z pre] & post & Hl & Hx & Hpre); cbn in Hl; injection Hl as Hl1 Hl2.
      * congruence.
      * apply IH. exists pre, post. split; [exact Hl2|]. split; [exact Hx|].
        intros w Hw. apply Hpre. now right.
Qed.

Lemma find_none_iff {A} (p : A -> bool) l :
  find p l = None <-> forall y, In y l -> p y = false.
Proof.
  induction l as [|y t IH]; cbn; [tauto|].
  destruct (p y) eqn:Hy; split.
  - discriminate.
  - intro H. rewrite (H y (or_introl eq_refl)) in Hy. discriminate.
  - intros Hn z [<-|Hz]; [exact Hy|]. now apply IH.
  - intro H. apply IH. intros z Hz. apply H. now right.
Qed.

(** What the scan reports for one record: one leak naming the first marker
    of the lexicon found in the lowercased text, or nothing. *)
Definition world_leak_reported (m : MemoryUnit) (reports : list WorldFutureLeak) : Prop :=
  (m.(is_active) = true /\ m.(mem_type) = "WM"%string /\
   exists pre indicator post,
     future_indicators = pre ++ indicator :: post /\
     Py.contains (Py.lower m.(fact_text)) indicator = true /\
     (forall i, In i pre -> Py.contains (Py.lower m.(fact_text)) i = false) /\
     reports = [mkWorldFutureLeak m.(id) (get_key m) m.(chapter_start) m.(fact_text) indicator])
  \/
  ((m.(is_active) = false \/ m.(mem_type) <> "WM"%string \/
    forall i, In i future_indicators -> Py.contains (Py.lower m.(fact_text)) i = false) /\
   reports = []).

Lemma world_leak_of_spec m : world_leak_reported m (world_leak_of m).
Proof.
  unfold world_leak_reported, world_leak_of.
  destruct (String.eqb (mem_type m) "WM") eqn:Ht; cbn [andb].
  - apply String.eqb_eq in Ht.
    destruct (is_active m) eqn:Ha; cbn [andb].
    + destruct (first_indicator future_indicators (Py.lower (fact_text m))) as [ind|] eqn:Hf.
      * left. unfold first_indicator in Hf. apply find_some_iff in Hf as (pre & post & Hl & Hx & Hpre).
        split; [reflexivity|]. split; [exact Ht|]. exists pre, ind, post. auto.
      * right. unfold first_indicator in Hf. rewrite find_none_iff in Hf. auto.
    + right. auto.
  - right. split; [|reflexivity]. right. left. intro H. apply String.eqb_eq in H. congruence.
Qed.

(** C7.  [check_world_future_leaks] reports, record by record in the store's
    iteration order, exactly one leak for each active WORLD ([mem_type "WM"])
    record whose lowercased text contains a marker of the lexicon, naming the
    first marker of the lexicon it contains, and nothing for the other
    records. *)
Theorem check_world_future_leaks_spec st :
  exists per_record,
    Forall2 (fun a reports => world_leak_reported (heap st a) reports)
      (Py.values (all_memories st)) per_record /\
    check_world_future_leaks st = List.concat per_record.
Proof.
  unfold check_world_future_leaks.
  induction (Py.values (all_memories st)) as [|a t [rs [Hf Hc]]]; cbn.
  - exists []. split; [constructor|reflexivity].
  - exists (world_leak_of (heap st a) :: rs). split.
    + constructor; [apply world_leak_of_spec|exact Hf].
    + cbn. now rewrite Hc.
Qed.

(** ** IEEE order and sign facts on [float] *)

Module FloatFacts.

(** The order [SFcompare] puts on non-NaN values, as a lexicographic order
    on triples. *)
Definition rank (f : spec_float) : Z * Z * Z :=
  match f with
  | S754_infinity true => (0, 0, 0)
  | S754_finite true m e => (1, - e, - Zpos m)
  | S754_zero _ => (2, 0, 0)
  | S754_finite false m e => (3, e, Zpos m)
  | S754_infinity false => (4, 0, 0)
  | S754_nan => (2, 0, 0)
  end.

Definition lexc (x y : Z * Z * Z) : comparison :=
  let '(a1, b1, c1) := x in
  let '(a2, b2, c2) := y in
  match Z.compare a1 a2 with
  | Eq => match Z.compare b1 b2 with Eq => Z.compare c1 c2 | r => r end
  | r => r
  end.

Lemma SFcompare_rank x y :
  x <> S754_nan -> y <> S754_nan -> SFcompare x y = Some (lexc (rank x) (rank y)).
Proof.
  intros Hx Hy.
  destruct x as [sx|sx| |sx mx ex], y as [sy|sy| |sy my ey];
    try congruence; try destruct sx; try destruct sy; cbn; try reflexivity;
    unfold Pos.compare.
  all: try rewrite Z.compare_opp.
  all: try (destruct (Z.compare ex ey) eqn:E; reflexivity).
  all: destruct (Z.compare_spec ey ex) as [E|E|E]; cbn.
  all: try (subst; rewrite Z.compare_refl, <- Pos.compare_antisym; reflexivity).
  all: try now rewrite (proj2 (Z.compare_gt_iff ex ey) E).
  all: try now rewrite (proj2 (Z.compare_lt_iff ex ey) E).
Qed.

Definition le3 x y := lexc x y <> Gt.
Definition lt3 x y := lexc x y = Lt.

Ltac lex_cases :=
  repeat match goal with
  | x : (Z * Z * Z)%type |- _ => destruct x as [[? ?] ?]
  end;
  unfold le3, lt3, lexc in *;
  repeat match goal with
  | |- context [Z.compare ?a ?b] => destruct (Z.compare_spec a b)
  | H : context [Z.compare ?a ?b] |- _ => destruct (Z.compare_spec a b)
  end;
  try congruence; try lia.

Lemma le3_trans x y z : le3 x y -> le3 y z -> le3 x z.
Proof. lex_cases. Qed.

Lemma lt3_le3_trans x y z : lt3 x y -> le3 y z -> lt3 x z.
Proof. lex_cases. Qed.

Lemma le3_lt3_trans x y z : le3 x y -> lt3 y z -> lt3 x z.
Proof. lex_cases. Qed.

Lemma not_lt3_le3 x y : ~ lt3 x y -> le3 y x.
Proof. lex_cases. Qed.

Lemma lexc_gt x y : lexc x y = Gt -> lexc y x = Lt.
Proof. lex_cases. Qed.

Lemma not_le3_lt3 x y : ~ le3 x y -> lt3 y x.
Proof.
  unfold le3, lt3. intro H. apply lexc_gt.
  destruct (lexc x y); [exfalso; apply H; discriminate..|reflexivity].
Qed.

Definition notnan (x : float) : Prop := Prim2SF x <> S754_nan.

Lemma leb_rank x y : notnan x -> notnan y ->
  (x <=? y)%float = true <-> le3 (rank (Prim2SF x)) (rank (Prim2SF y)).
Proof.
  intros Hx Hy. rewrite leb_spec. unfold SFleb. rewrite (SFcompare_rank _ _ Hx Hy).
  unfold le3. destruct (lexc _ _); intuition congruence.
Qed.

Lemma ltb_rank x y : notnan x -> notnan y ->
  (x <? y)%float = true <-> lt3 (rank (Prim2SF x)) (rank (Prim2SF y)).
Proof.
  intros Hx Hy. rewrite ltb_spec. unfold SFltb. rewrite (SFcompare_rank _ _ Hx Hy).
  unfold lt3. destruct (lexc _ _); intuition congruence.
Qed.

Lemma leb_notnan_l x y : (x <=? y)%float = true -> notnan x.
Proof.
  rewrite leb_spec. unfold notnan, SFleb. intros H E. rewrite E in H. discriminate.
Qed.

Lemma leb_notnan_r x y : (x <=? y)%float = true -> notnan y.
Proof.
  rewrite leb_spec. unfold notnan, SFleb. intros H E. rewrite E in H.
  destruct (Prim2SF x); discriminate.
Qed.

Lemma ltb_notnan_l x y : (x <? y)%float = true -> notnan x.
Proof.
  rewrite ltb_spec. unfold notnan, SFltb. intros H E. rewrite E in H. discriminate.
Qed.

Lemma leb_trans x y z :
  (x <=? y)%float = true -> (y <=? z)%float = true -> (x <=? z)%float = true.
Proof.
  intros H1 H2.
  pose proof (leb_notnan_l _ _ H1). pose proof (leb_notnan_r _ _ H1).
  pose proof (leb_notnan_r _ _ H2).
  apply leb_rank in H1, H2; auto. apply leb_rank; auto. eapply le3_trans; eauto.
Qed.

Lemma ltb_leb_trans x y z :
  (x <? y)%float = true -> (y <=? z)%float = true -> (x <? z)%float = true.
Proof.
  intros H1 H2.
  pose proof (ltb_notnan_l _ _ H1). pose proof (leb_notnan_l _ _ H2).
  pose proof (leb_notnan_r _ _ H2).
  apply ltb_rank in H1; auto. apply leb_rank in H2; auto.
  apply ltb_rank; auto. eapply lt3_le3_trans; eauto.
Qed.

Lemma leb_ltb_trans x y z :
  (x <=? y)%float = true -> (y <? z)%float = true -> (x <? z)%float = true.
Proof.
  intros H1 H2.
  pose proof (leb_notnan_l _ _ H1). pose proof (leb_notnan_r _ _ H1).
  assert (notnan z).
  { unfold notnan. rewrite ltb_spec in H2. unfold SFltb in H2. intro E. rewrite E in H2.
    destruct (Prim2SF y); discriminate. }
  apply leb_rank in H1; auto. apply ltb_rank in H2; auto.
  apply ltb_rank; auto. eapply le3_lt3_trans; eauto.
Qed.

Lemma ltb_leb x y : (x <? y)%float = true -> (x <=? y)%float = true.
Proof.
  rewrite ltb_spec, leb_spec. unfold SFltb, SFleb. destruct (SFcompare _ _) as [[]|]; congruence.
Qed.

Lemma not_ltb_leb x y : notnan x -> notnan y ->
  (x <? y)%float = false -> (y <=? x)%float = true.
Proof.
  intros Hx Hy H. apply leb_rank; auto. apply not_lt3_le3.
  rewrite <- ltb_rank by auto. congruence.
Qed.

(** Non-negative values: [+0], positive finite values and [+inf]. *)
Definition nnz (f : spec_float) : Prop :=
  match f with
  | S754_zero false | S754_finite false _ _ | S754_infinity false => True
  | _ => False
  end.

(** Non-negative values and [-0]. *)
Definition nn0 (f : spec_float) : Prop := nnz f \/ f = S754_zero true.

Lemma shr_1_nonneg mrs : (0 <= shr_m mrs)%Z -> (0 <= shr_m (shr_1 mrs))%Z.
Proof.
  destruct mrs as [m r s0]. cbn. destruct m as [|[p|p|]|p]; cbn; lia.
Qed.

Lemma iter_pos_nonneg p mrs :
  (0 <= shr_m mrs)%Z -> (0 <= shr_m (iter_pos shr_1 p mrs))%Z.
Proof.
  revert mrs. induction p as [p IH|p IH|]; intros mrs H; cbn;
    auto using shr_1_nonneg.
Qed.

Lemma shr_fexp_nonneg prec emax m e l :
  (0 <= m)%Z -> (0 <= shr_m (fst (shr_fexp prec emax m e l)))%Z.
Proof.
  intro Hm. unfold shr_fexp, shr.
  assert (H0 : (0 <= shr_m (shr_record_of_loc m l))%Z)
    by (destruct l as [|[]]; cbn; exact Hm).
  destruct (_ - e)%Z; cbn; auto using iter_pos_nonneg.
Qed.

Lemma round_nearest_even_nonneg m l : (0 <= m)%Z -> (0 <= round_nearest_even m l)%Z.
Proof.
  intro Hm. destruct l as [|[]]; cbn; try lia. destruct (Z.even m); lia.
Qed.

Lemma binary_round_aux_nnz prec emax mx ex lx :
  (0 <= mx)%Z -> nnz (binary_round_aux prec emax false mx ex lx).
Proof.
  intro Hm. unfold binary_round_aux.
  destruct (shr_fexp prec emax mx ex lx) as [mrs' e'] eqn:E1.
  pose proof (shr_fexp_nonneg prec emax mx ex lx Hm) as H1. rewrite E1 in H1. cbn in H1.
  destruct (shr_fexp prec emax (round_nearest_even (shr_m mrs') (loc_of_shr_record mrs'))
              e' loc_Exact) as [mrs'' e''] eqn:E2.
  pose proof (shr_fexp_nonneg prec emax _ e' loc_Exact
                (round_nearest_even_nonneg _ (loc_of_shr_record mrs') H1)) as H2.
  rewrite E2 in H2. cbn in H2.
  destruct (shr_m mrs''); cbn; try lia; try exact I.
  destruct (e'' <=? emax - prec)%Z; exact I.
Qed.

Lemma binary_round_nnz prec emax m e : nnz (binary_round prec emax false m e).
Proof.
  unfold binary_round. destruct (shl_align _ _ _). apply binary_round_aux_nnz. lia.
Qed.

Lemma binary_normalize_nnz prec emax m e :
  (0 <= m)%Z -> nnz (binary_normalize prec emax m e false).
Proof.
  intro Hm. destruct m; cbn; [exact I|apply binary_round_nnz|lia].
Qed.

Lemma SFmul_nn0_pos prec emax x m e :
  nn0 x -> nn0 (SFmul prec emax x (S754_finite false m e)).
Proof.
  intros [Hx| ->]; [|right; reflexivity].
  destruct x as [[]|[]| |[] mx ex]; cbn in Hx |- *; try contradiction;
    left; try exact I. apply binary_round_aux_nnz. lia.
Qed.

Lemma SFmul_nnz_pos prec emax x m e :
  nnz x -> nnz (SFmul prec emax x (S754_finite false m e)).
Proof.
  intro Hx. destruct x as [[]|[]| |[] mx ex]; cbn in Hx |- *; try contradiction;
    try exact I. apply binary_round_aux_nnz. lia.
Qed.

Lemma SFadd_nn0_nnz prec emax x y :
  nn0 x -> nnz y -> nnz (SFadd prec emax x y).
Proof.
  intros [Hx| ->] Hy.
  - destruct x as [[]|[]| |[] mx ex], y as [[]|[]| |[] my ey];
      cbn in Hx, Hy |- *; try contradiction; try exact I.
    apply binary_round_nnz.
  - destruct y as [[]|[]| |[] my ey]; cbn in Hy |- *; try contradiction; exact I.
Qed.

Lemma SFadd_zero_l_assoc prec emax x y :
  nnz y -> SFadd prec emax (SFadd prec emax (S754_zero false) x) y = SFadd prec emax x y.
Proof.
  intro Hy. destruct x as [[]|[]| |[] mx ex]; cbn; try reflexivity;
    destruct y as [[]|[]| |[] my ey]; cbn in Hy |- *; try contradiction; reflexivity.
Qed.

Lemma SFadd_zero_r prec emax x : nnz x -> SFadd prec emax x (S754_zero false) = x.
Proof.
  intro Hx. destruct x as [[]|[]| |[] mx ex]; cbn in Hx |- *; try contradiction; reflexivity.
Qed.

Lemma SFmul_comm prec emax x y : SFmul prec emax x y = SFmul prec emax y x.
Proof.
  destruct x as [sx|sx| |sx mx ex], y as [sy|sy| |sy my ey]; cbn;
    try rewrite (Bool.xorb_comm sx sy); try reflexivity.
  now rewrite Pos.mul_comm, Z.add_comm.
Qed.

(** The same facts on [float]. *)
Definition nnzf (x : float) : Prop := nnz (Prim2SF x).
Definition nn0f (x : float) : Prop := nn0 (Prim2SF x).

Lemma mul_comm (x y : float) : (x * y)%float = (y * x)%float.
Proof. apply Prim2SF_inj. rewrite !mul_spec. apply SFmul_comm. Qed.

Lemma add_zero_l_assoc (x y : float) : nnzf y -> (0 + x + y)%float = (x + y)%float.
Proof.
  intro Hy. apply Prim2SF_inj. rewrite !add_spec.
  change (Prim2SF 0) with (S754_zero false). now apply SFadd_zero_l_assoc.
Qed.

Lemma add_zero_r (x : float) : nnzf x -> (x + 0)%float = x.
Proof.
  intro Hx. apply Prim2SF_inj. rewrite add_spec.
  change (Prim2SF 0) with (S754_zero false). now apply SFadd_zero_r.
Qed.

Lemma add_nn0_nnz (x y : float) : nn0f x -> nnzf y -> nnzf (x + y)%float.
Proof. intros. unfold nnzf. rewrite add_spec. now apply SFadd_nn0_nnz. Qed.

Lemma nnz_nn0f x : nnzf x -> nn0f x.
Proof. intro; now left. Qed.

Lemma leb_zero_nn0 (c : float) : (0 <=? c)%float = true -> nn0f c.
Proof.
  rewrite leb_spec. change (Prim2SF 0) with (S754_zero false). unfold nn0f, nn0.
  destruct (Prim2SF c) as [[]|[]| |[] mc ec]; cbn; try discriminate; intros _;
    try (left; exact I); now right.
Qed.

Lemma nnzf_notnan x : nnzf x -> notnan x.
Proof. unfold nnzf, notnan. destruct (Prim2SF x); cbn; congruence. Qed.

Lemma fmax_zero_nnz (x : float) : nnzf x -> Py.fmax 0 x = x.
Proof.
  unfold nnzf, Py.fmax. intro Hx. rewrite ltb_spec.
  change (Prim2SF 0) with (S754_zero false).
  destruct (Prim2SF x) as [[]|[]| |[] mx ex] eqn:E; cbn in Hx |- *;
    try contradiction; try reflexivity.
  apply Prim2SF_inj. rewrite E. reflexivity.
Qed.

Lemma fmin_nnz (a b : float) : nnzf a -> nnzf b -> nnzf (Py.fmin a b).
Proof. unfold Py.fmin. destruct (b <? a)%float; auto. Qed.

Lemma of_uint63_nnz n : nnzf (PrimFloat.of_uint63 n).
Proof.
  unfold nnzf. rewrite of_uint63_spec. apply binary_normalize_nnz.
  apply (proj1 (Uint63.to_Z_bounded n)).
Qed.

End FloatFacts.

(** ** Scores and the choice of the best candidate *)

Lemma leb_refl_notnan (x : float) : FloatFacts.notnan x -> (x <=? x)%float = true.
Proof.
  intro H. apply FloatFacts.leb_rank; auto. unfold FloatFacts.le3, FloatFacts.lexc.
  destruct (FloatFacts.rank _) as [[? ?] ?]. rewrite !Z.compare_refl. discriminate.
Qed.

Lemma not_leb_ltb (x y : float) : FloatFacts.notnan x -> FloatFacts.notnan y ->
  (x <=? y)%float = false -> (y <? x)%float = true.
Proof.
  intros Hx Hy H. apply FloatFacts.ltb_rank; auto. apply FloatFacts.not_le3_lt3.
  rewrite <- FloatFacts.leb_rank by auto. congruence.
Qed.

(** [max(xs, key=...)] returns the first element of maximal key, when no key
    is NaN. *)
Lemma py_max_by_spec {A} (key : A -> float) xs : forall ps best qs,
  (forall y, In y (ps ++ best :: qs ++ xs) -> FloatFacts.notnan (key y)) ->
  (forall y, In y ps -> (key y <? key best)%float = true) ->
  (forall y, In y qs -> (key y <=? key best)%float = true) ->
  exists pre post,
    ps ++ best :: qs ++ xs = pre ++ py_max_by key best xs :: post /\
    (forall y, In y pre -> (key y <? key (py_max_by key best xs))%float = true) /\
    (forall y, In y post -> (key y <=? key (py_max_by key best xs))%float = true).
Proof.
  induction xs as [|x t IH]; intros ps best qs Hnn Hps Hqs; cbn [py_max_by].
  - exists ps, qs. rewrite app_nil_r. auto.
  - destruct (key best <? key x)%float eqn:Hbx.
    + destruct (IH (ps ++ best :: qs) x [])
        as (pre & post & Heq & Hpre & Hpost).
      * intros y Hy. apply Hnn. rewrite <- app_assoc in Hy. exact Hy.
      * intros y Hy. apply in_app_or in Hy as [Hy|[<-|Hy]].
        -- eapply FloatFacts.ltb_leb_trans; [apply Hps, Hy|apply FloatFacts.ltb_leb, Hbx].
        -- exact Hbx.
        -- eapply FloatFacts.leb_ltb_trans; [apply Hqs, Hy|exact Hbx].
      * intros ? [].
      * exists pre, post. rewrite <- Heq. rewrite <- app_assoc. cbn. auto.
    + destruct (IH ps best (qs ++ [x])) as (pre & post & Heq & Hpre & Hpost).
      * intros y Hy. apply Hnn. rewrite <- app_assoc in Hy. exact Hy.
      * exact Hps.
      * intros y Hy. apply in_app_or in Hy as [Hy|[<-|[]]]; [apply Hqs, Hy|].
        apply FloatFacts.not_ltb_leb; auto; apply Hnn; apply in_or_app; right;
          [left; reflexivity|right; apply in_or_app; right; left; reflexivity].
      * exists pre, post. rewrite <- Heq. rewrite <- app_assoc. cbn. auto.
Qed.

Lemma py_max_by_first {A} (key : A -> float) best xs :
  (forall y, In y (best :: xs) -> FloatFacts.notnan (key y)) ->
  exists pre post,
    best :: xs = pre ++ py_max_by key best xs :: post /\
    (forall y, In y pre -> (key y <? key (py_max_by key best xs))%float = true) /\
    (forall y, In y post -> (key y <=? key (py_max_by key best xs))%float = true).
Proof.
  intro Hnn. apply (py_max_by_spec key xs [] best []); auto; intros ? [].
Qed.

Lemma py_max_by_max {A} (key : A -> float) best xs :
  (forall y, In y (best :: xs) -> FloatFacts.notnan (key y)) ->
  forall y, In y (best :: xs) -> (key y <=? key (py_max_by key best xs))%float = true.
Proof.
  intros Hnn y Hy.
  destruct (py_max_by_first key best xs Hnn) as (pre & post & Heq & Hpre & Hpost).
  rewrite Heq in Hy. apply in_app_or in Hy as [Hy|[<-|Hy]]; auto.
  - apply FloatFacts.ltb_leb, Hpre, Hy.
  - apply leb_refl_notnan, Hnn. apply py_max_by_in.
Qed.

Lemma lit_finite_pos (x : float) :
  match Prim2SF x with S754_finite false _ _ => true | _ => false end = true ->
  exists m e, Prim2SF x = S754_finite false m e.
Proof. destruct (Prim2SF x) as [| | |[] m e]; try discriminate; eauto. Qed.

Lemma mul_nn0_lit (c k : float) :
  FloatFacts.nn0f c ->
  match Prim2SF k with S754_finite false _ _ => true | _ => false end = true ->
  FloatFacts.nn0f (k * c)%float.
Proof.
  intros Hc Hk. destruct (lit_finite_pos k Hk) as (m & e & E).
  unfold FloatFacts.nn0f. rewrite mul_spec; unfold SF64mul; rewrite FloatFacts.SFmul_comm, E.
  now apply FloatFacts.SFmul_nn0_pos.
Qed.

Lemma mul_nnz_lit (c k : float) :
  FloatFacts.nnzf c ->
  match Prim2SF k with S754_finite false _ _ => true | _ => false end = true ->
  FloatFacts.nnzf (k * c)%float.
Proof.
  intros Hc Hk. destruct (lit_finite_pos k Hk) as (m & e & E).
  unfold FloatFacts.nnzf. rewrite mul_spec; unfold SF64mul; rewrite FloatFacts.SFmul_comm, E.
  now apply FloatFacts.SFmul_nnz_pos.
Qed.

Lemma float_of_int_nnz n : (0 <= n)%Z -> FloatFacts.nnzf (Py.float_of_int n).
Proof.
  intro H. unfold Py.float_of_int. apply Z.leb_le in H. rewrite H.
  apply FloatFacts.of_uint63_nnz.
Qed.

Lemma add_lit_cond (s : float) (b : bool) (k : float) :
  FloatFacts.nnzf s -> FloatFacts.nnzf k ->
  (if b then (s + k)%float else s) = (s + (if b then k else 0))%float /\
  FloatFacts.nnzf (if b then (s + k)%float else s).
Proof.
  intros Hs Hk. destruct b.
  - split; [reflexivity|]. apply FloatFacts.add_nn0_nnz; auto using FloatFacts.nnz_nn0f.
  - now rewrite FloatFacts.add_zero_r.
Qed.

(** For a candidate that [can_update] admits and a non-negative confidence,
    the code's score and the specified one coincide, and are non-negative. *)
Lemma get_update_score_spec (e m : MemoryUnit) :
  can_update e m = true -> (0 <=? confidence m)%float = true ->
  get_update_score e m = spec_update_score e m /\
  FloatFacts.nnzf (spec_update_score e m).
Proof.
  intros Hu Hc. unfold get_update_score, spec_update_score. rewrite Hu. cbn [negb].
  assert (Hd : (0 <= chapter_start m - chapter_start e)%Z).
  { unfold can_update in Hu.
    destruct (negb _); [discriminate|]. destruct (negb _); [discriminate|].
    destruct (chapter_start m <=? chapter_start e)%Z eqn:E; [discriminate|].
    apply Z.leb_gt in E. lia. }
  set (f := Py.float_of_int (chapter_start m - chapter_start e)).
  assert (Hf : FloatFacts.nnzf f) by now apply float_of_int_nnz.
  rewrite (FloatFacts.mul_comm f 0.05), (FloatFacts.mul_comm (confidence m) 0.3).
  set (R := Py.fmin 0.2 (0.05 * f)%float).
  assert (HR : FloatFacts.nnzf R).
  { apply FloatFacts.fmin_nnz; [exact I|]. apply mul_nnz_lit; [exact Hf|reflexivity]. }
  rewrite (FloatFacts.add_zero_l_assoc _ _ HR).
  set (T := (0.3 * confidence m + R)%float).
  assert (HT : FloatFacts.nnzf T).
  { apply FloatFacts.add_nn0_nnz; [|exact HR].
    apply mul_nn0_lit; [now apply FloatFacts.leb_zero_nn0|reflexivity]. }
  destruct (add_lit_cond T (confidence e <? confidence m)%float 0.2 HT I) as [-> H1].
  set (T1 := (T + _)%float) in H1 |- *.
  destruct (add_lit_cond T1 (chapter_start e <? chapter_start m - 5)%Z 0.1 H1 I) as [-> H2].
  set (T2 := (T1 + _)%float) in H2 |- *.
  rewrite (FloatFacts.fmax_zero_nnz _ H2). split; [reflexivity|].
  apply FloatFacts.fmin_nnz; [exact I|exact H2].
Qed.

Lemma find_all_candidate_memories_iff st m a :
  In a (find_all_candidate_memories st m) <->
  In a (Py.values (all_memories st)) /\
  is_active (heap st a) = true /\
  get_key (heap st a) = get_key m /\
  chapter_start (heap st a) < chapter_start m.
Proof.
  split.
  - intro H. destruct (candidate_props st m a H) as (? & ? & ? & ?). auto.
  - intros (Hin & Hact & Hk & Hlt). unfold find_all_candidate_memories.
    apply filter_In. split; [exact Hin|].
    unfold can_update. rewrite Hk, String.eqb_refl, Hact. cbn.
    destruct (chapter_start m <=? chapter_start (heap st a))%Z eqn:E; [|reflexivity].
    apply Z.leb_le in E. lia.
Qed.

Lemma candidate_can_update st m a :
  In a (find_all_candidate_memories st m) -> can_update (heap st a) m = true.
Proof.
  unfold find_all_candidate_memories. intro H. apply filter_In in H as [_ H].
  apply andb_prop in H. apply H.
Qed.

Lemma let_pair_eta {A B C} (p : A * B) (z : C) :
  (let (x, y) := p in (x, y, z)) = (fst p, snd p, z).
Proof. destruct p; reflexivity. Qed.

(** The scored list [find_best_update_candidate] builds, with the scores
    rewritten to [spec_update_score]. *)
Lemma scored_spec st m :
  (0 <=? confidence m)%float = true ->
  map (fun c => (c, get_update_score (heap st c) m)) (find_all_candidate_memories st m) =
  map (fun c => (c, spec_update_score (heap st c) m)) (find_all_candidate_memories st m).
Proof.
  intro Hc. apply map_ext_in. intros a Ha. f_equal.
  apply get_update_score_spec; auto using candidate_can_update.
Qed.

Lemma scored_notnan st m thr :
  (0 <=? confidence m)%float = true ->
  forall y, In y (filter (fun p => (thr <=? snd p)%float)
                   (map (fun c => (c, spec_update_score (heap st c) m))
                      (find_all_candidate_memories st m))) ->
  FloatFacts.notnan (snd y).
Proof.
  intros Hc y Hy. apply filter_In in Hy as [Hy _].
  apply in_map_iff in Hy as [a [<- Ha]]. apply FloatFacts.nnzf_notnan.
  apply get_update_score_spec; auto using candidate_can_update.
Qed.

Lemma find_best_update_candidate_spec st m thr :
  (0 <=? confidence m)%float = true ->
  let scored := filter (fun p => (thr <=? snd p)%float)
                  (map (fun c => (c, spec_update_score (heap st c) m))
                     (find_all_candidate_memories st m)) in
  (find_best_update_candidate st m thr = None /\ scored = []) \/
  (exists a pre post,
      find_best_update_candidate st m thr = Some (a, spec_update_score (heap st a) m) /\
      scored = pre ++ (a, spec_update_score (heap st a) m) :: post /\
      (forall y, In y pre -> (snd y <? spec_update_score (heap st a) m)%float = true) /\
      (forall y, In y post -> (snd y <=? spec_update_score (heap st a) m)%float = true)).
Proof.
  intro Hc. cbv zeta.
  pose proof (scored_notnan st m thr Hc) as Hnn.
  unfold find_best_update_candidate. cbv zeta. rewrite (scored_spec st m Hc).
  destruct (find_all_candidate_memories st m) as [|c0 ct] eqn:Hcs.
  - left. split; reflexivity.
  - destruct (filter _ (map _ (c0 :: ct))) as [|p t] eqn:Hsc; [left; auto|right].
    destruct (py_max_by_first snd p t Hnn) as (pre & post & Heq & Hpre & Hpost).
    assert (Hin : In (py_max_by snd p t) (p :: t)) by apply py_max_by_in.
    rewrite <- Hsc in Hin.
    apply filter_In in Hin as [Hin _]. apply in_map_iff in Hin as [a [Ha _]].
    exists a, pre, post. rewrite <- Ha in Heq, Hpre, Hpost. cbn [snd] in Hpre, Hpost.
    rewrite <- Ha. auto.
Qed.

Lemma scored_in st m thr a :
  In a (find_all_candidate_memories st m) ->
  (thr <=? spec_update_score (heap st a) m)%float = true ->
  In (a, spec_update_score (heap st a) m)
    (filter (fun p => (thr <=? snd p)%float)
       (map (fun c => (c, spec_update_score (heap st c) m))
          (find_all_candidate_memories st m))).
Proof.
  intros Ha Ht. apply filter_In. split; [|exact Ht].
  apply in_map_iff. exists a. auto.
Qed.

(** C3: [smart_update_or_create] considers exactly the active records of the
    candidate's key that start strictly earlier; each is scored as the
    specification's formula clamped to [[0, 1]]; it supersedes a candidate of
    maximal score when that score reaches the threshold, and otherwise
    (including when there is no candidate) creates a new record.  The
    candidate's confidence is a non-negative number. *)
Theorem smart_update_or_create_decision (uuid4 : nat -> string) st memory chapter thr :
  (0 <=? confidence memory)%float = true ->
  (forall a, In a (find_all_candidate_memories st memory) <->
     In a (Py.values (all_memories st)) /\ is_active (heap st a) = true /\
     get_key (heap st a) = get_key memory /\
     chapter_start (heap st a) < chapter_start memory) /\
  (forall a, In a (find_all_candidate_memories st memory) ->
     get_update_score (heap st a) memory = spec_update_score (heap st a) memory) /\
  ((exists a reason,
      In a (find_all_candidate_memories st memory) /\
      (thr <=? spec_update_score (heap st a) memory)%float = true /\
      (forall b, In b (find_all_candidate_memories st memory) ->
         (spec_update_score (heap st b) memory <=?
          spec_update_score (heap st a) memory)%float = true) /\
      smart_update_or_create uuid4 st memory chapter thr =
        (fst (update_existing_memory uuid4 st a memory chapter reason),
         snd (update_existing_memory uuid4 st a memory chapter reason),
         UpdatedExisting (spec_update_score (heap st a) memory))) \/
   ((forall b, In b (find_all_candidate_memories st memory) ->
       (thr <=? spec_update_score (heap st b) memory)%float = false) /\
    smart_update_or_create uuid4 st memory chapter thr =
      (fst (add_new_memory uuid4 st memory chapter),
       snd (add_new_memory uuid4 st memory chapter), CreatedNew))).
Proof.
  intro Hc. split; [apply find_all_candidate_memories_iff|split].
  { intros a Ha. apply get_update_score_spec; auto using candidate_can_update. }
  unfold smart_update_or_create.
  destruct (find_best_update_candidate_spec st memory thr Hc)
    as [[Hb Hsc]|(a & pre & post & Hb & Hsc & Hpre & Hpost)]; rewrite Hb.
  - right. split.
    + intros b Hin. destruct (thr <=? _)%float eqn:Ht; [|reflexivity].
      pose proof (scored_in st memory thr b Hin Ht) as H. rewrite Hsc in H. destruct H.
    + destruct (add_new_memory uuid4 st memory chapter); reflexivity.
  - assert (Ha : In (a, spec_update_score (heap st a) memory)
                   (filter (fun p => (thr <=? snd p)%float)
                      (map (fun c => (c, spec_update_score (heap st c) memory))
                         (find_all_candidate_memories st memory)))).
    { rewrite Hsc. apply in_or_app. right. left. reflexivity. }
    apply filter_In in Ha as [Ha Hta]. cbn [snd] in Hta.
    apply in_map_iff in Ha as [a' [[= ->] Ha]].
    left. eexists a, _. split; [exact Ha|]. split; [exact Hta|]. split.
    + intros b Hin.
      assert (Hnb : FloatFacts.notnan (spec_update_score (heap st b) memory)).
      { apply FloatFacts.nnzf_notnan, get_update_score_spec;
          auto using candidate_can_update. }
      destruct (thr <=? spec_update_score (heap st b) memory)%float eqn:Ht.
      * pose proof (scored_in st memory thr b Hin Ht) as H. rewrite Hsc in H.
        apply in_app_or in H as [H|[H|H]].
        -- apply FloatFacts.ltb_leb. exact (Hpre _ H).
        -- injection H as <- _. apply leb_refl_notnan, Hnb.
        -- exact (Hpost _ H).
      * apply FloatFacts.ltb_leb. eapply FloatFacts.ltb_leb_trans; [|exact Hta].
        apply not_leb_ltb; auto. eapply FloatFacts.leb_notnan_l; exact Hta.
    + apply let_pair_eta.
Qed.

Lemma smart_update_or_create_decision_witness :
  let cand := demo_trust "annette trusts sylvain" ["annette"; "sylvain"]%string 1.0 3 in
  (0 <=? confidence cand)%float = true /\
  find_all_candidate_memories demo_store1 cand = [0%nat] /\
  snd (smart_update_or_create demo_uuid demo_store1 cand 3 default_threshold) =
    UpdatedExisting (spec_update_score (heap demo_store1 0%nat) cand).
Proof.
  intro cand.
  assert (Hc : (0 <=? confidence cand)%float = true) by (vm_compute; reflexivity).
  assert (Hcs : find_all_candidate_memories demo_store1 cand = [0%nat])
    by (vm_compute; reflexivity).
  assert (Ht : (default_threshold <=? spec_update_score (heap demo_store1 0%nat) cand)%float = true)
    by (vm_compute; reflexivity).
  split; [exact Hc|split; [exact Hcs|]].
  destruct (smart_update_or_create_decision demo_uuid demo_store1 cand 3 default_threshold Hc)
    as (_ & _ & [(a & r & Ha & _ & _ & E)|(Hno & _)]).
  - rewrite E. rewrite Hcs in Ha. destruct Ha as [<-|[]]. reflexivity.
  - exfalso. assert (H0 : In 0%nat (find_all_candidate_memories demo_store1 cand))
      by (rewrite Hcs; left; reflexivity).
    rewrite (Hno 0%nat H0) in Ht. discriminate.
Defined.

Lemma filter_eq_cons_inv {A} (f : A -> bool) l pre x post :
  filter f l = pre ++ x :: post ->
  exists l1 l2, l = l1 ++ x :: l2 /\ filter f l1 = pre /\ filter f l2 = post.
Proof.
  revert pre. induction l as [|y t IH]; intros pre H; cbn in H.
  - destruct pre; discriminate.
  - destruct (f y) eqn:Hy.
    + destruct pre as [|p pre'].
      * injection H as <- H. exists [], t. cbn. auto.
      * injection H as <- H. destruct (IH pre' H) as (l1 & l2 & -> & H1 & H2).
        exists (y :: l1), l2. cbn. rewrite Hy, H1. auto.
    + destruct (IH pre H) as (l1 & l2 & -> & H1 & H2).
      exists (y :: l1), l2. cbn. rewrite Hy. auto.
Qed.

(** C9, counterexample.  Two active records of one key, both started in
    chapter 1, tie at the same score for a chapter-3 candidate, above the
    threshold; [find_best_update_candidate] raises nothing and returns the
    first of them. *)
Lemma find_best_update_candidate_tie :
  let cand := demo_trust "annette trusts sylvain" ["annette"; "sylvain"]%string 1.0 3 in
  find_all_candidate_memories demo_store_tie cand = [0%nat; 1%nat] /\
  get_update_score (heap demo_store_tie 0%nat) cand =
    get_update_score (heap demo_store_tie 1%nat) cand /\
  (default_threshold <=? get_update_score (heap demo_store_tie 0%nat) cand)%float = true /\
  find_best_update_candidate demo_store_tie cand default_threshold =
    Some (0%nat, get_update_score (heap demo_store_tie 0%nat) cand).
Proof. vm_compute. repeat split. Qed.

(** C9, amended: there is no tie error.  With a non-negative candidate
    confidence, [find_best_update_candidate] returns [None] exactly when no
    candidate reaches the threshold; otherwise it returns a candidate [a] with
    its score, which reaches the threshold, is maximal among the candidates
    reaching it, and is strictly greater than the score of every earlier such
    candidate: ties go to the candidate met first in [all_memories]. *)
Theorem find_best_update_candidate_first_max st m thr :
  (0 <=? confidence m)%float = true ->
  (find_best_update_candidate st m thr = None <->
   forall b, In b (find_all_candidate_memories st m) ->
     (thr <=? get_update_score (heap st b) m)%float = false) /\
  (forall a s, find_best_update_candidate st m thr = Some (a, s) ->
     s = get_update_score (heap st a) m /\
     (thr <=? s)%float = true /\
     (forall b, In b (find_all_candidate_memories st m) ->
        (thr <=? get_update_score (heap st b) m)%float = true ->
        (get_update_score (heap st b) m <=? s)%float = true) /\
     exists pre post,
       find_all_candidate_memories st m = pre ++ a :: post /\
       forall b, In b pre -> (thr <=? get_update_score (heap st b) m)%float = true ->
         (get_update_score (heap st b) m <? s)%float = true).
Proof.
  intro Hc.
  assert (Hs : forall b, In b (find_all_candidate_memories st m) ->
            get_update_score (heap st b) m = spec_update_score (heap st b) m)
    by (intros b Hb; apply get_update_score_spec; auto using candidate_can_update).
  destruct (find_best_update_candidate_spec st m thr Hc)
    as [[Hb Hsc]|(a & pre & post & Hb & Hsc & Hpre & Hpost)]; rewrite Hb.
  - split; [split; [intros _|reflexivity]|intros a s [=]].
    intros b Hin. rewrite (Hs b Hin). destruct (thr <=? _)%float eqn:Ht; [|reflexivity].
    pose proof (scored_in st m thr b Hin Ht) as H. rewrite Hsc in H. destruct H.
  - assert (Ha : In (a, spec_update_score (heap st a) m)
                   (filter (fun p => (thr <=? snd p)%float)
                      (map (fun c => (c, spec_update_score (heap st c) m))
                         (find_all_candidate_memories st m)))).
    { rewrite Hsc. apply in_or_app. right. left. reflexivity. }
    apply filter_In in Ha as [Ha Hta]. cbn [snd] in Hta.
    apply in_map_iff in Ha as [a' [[= ->] Ha]].
    split; [split; [intros [=]|intro H; specialize (H a Ha);
      rewrite (Hs a Ha), Hta in H; discriminate]|].
    intros a0 s [= <- <-]. rewrite (Hs a Ha). split; [reflexivity|]. split; [exact Hta|].
    split.
    + intros b Hin Ht. rewrite (Hs b Hin) in Ht |- *.
      pose proof (scored_in st m thr b Hin Ht) as H. rewrite Hsc in H.
      apply in_app_or in H as [H|[H|H]].
      * apply FloatFacts.ltb_leb. exact (Hpre _ H).
      * injection H as <- _. apply leb_refl_notnan.
        eapply FloatFacts.leb_notnan_r; exact Ht.
      * exact (Hpost _ H).
    + apply filter_eq_cons_inv in Hsc as (l1 & l2 & Hl & Hl1 & _).
      apply map_eq_app in Hl as (c1 & c2 & Hcs & Hm1 & Hm2).
      apply map_eq_cons in Hm2 as (a1 & c2' & -> & [= ->] & _).
      exists c1, c2'. split; [exact Hcs|].
      intros b Hin Ht.
      assert (Hbc : In b (find_all_candidate_memories st m))
        by (rewrite Hcs; apply in_or_app; left; exact Hin).
      rewrite (Hs b Hbc) in Ht |- *. apply (Hpre (b, spec_update_score (heap st b) m)).
      rewrite <- Hl1, <- Hm1. apply filter_In. split; [|exact Ht].
      apply in_map_iff. exists b. auto.
Qed.

Lemma find_best_update_candidate_first_max_witness :
  let cand := demo_trust "annette trusts sylvain" ["annette"; "sylvain"]%string 1.0 3 in
  (0 <=? confidence cand)%float = true /\
  exists pre post,
    find_all_candidate_memories demo_store_tie cand = pre ++ 0%nat :: post /\
    forall b, In b pre ->
      (default_threshold <=? get_update_score (heap demo_store_tie b) cand)%float = true ->
      (get_update_score (heap demo_store_tie b) cand <?
       get_update_score (heap demo_store_tie 0%nat) cand)%float = true.
Proof.
  intro cand.
  assert (Hc : (0 <=? confidence cand)%float = true) by (vm_compute; reflexivity).
  assert (Hb : find_best_update_candidate demo_store_tie cand default_threshold =
               Some (0%nat, get_update_score (heap demo_store_tie 0%nat) cand))
    by (vm_compute; reflexivity).
  split; [exact Hc|].
  exact (proj2 (proj2 (proj2 (proj2
    (find_best_update_candidate_first_max demo_store_tie cand default_threshold Hc)
    _ _ Hb)))).
Defined.

(** ** Ids, back links and [chapter_end] on resolver-built stores *)

Section StoreIds.

Variable uuid4 : nat -> string.

Lemma smart_update_or_create_cases st m chapter thr :
  (exists ea reason, In ea (find_all_candidate_memories st m) /\
     fst (fst (smart_update_or_create uuid4 st m chapter thr)) =
     fst (update_existing_memory uuid4 st ea m chapter reason)) \/
  fst (fst (smart_update_or_create uuid4 st m chapter thr)) =
  fst (add_new_memory uuid4 st m chapter).
Proof.
  unfold smart_update_or_create.
  destruct (find_best_update_candidate st m thr) as [[a s]|] eqn:Hb.
  - left. apply find_best_in_candidates in Hb as [Ha _].
    match goal with |- context [update_existing_memory uuid4 st a m chapter ?r] =>
      exists a, r; split; [exact Ha|];
      destruct (update_existing_memory uuid4 st a m chapter r); reflexivity
    end.
  - right. destruct (add_new_memory uuid4 st m chapter); reflexivity.
Qed.

Lemma reachable_mono (P Q : MemoryUnit -> Z -> Prop) st :
  (forall m c, P m c -> Q m c) ->
  resolver_reachable uuid4 P st -> resolver_reachable uuid4 Q st.
Proof.
  intros HPQ. induction 1; [apply reach_empty|]. apply reach_step; auto.
Qed.

Hypothesis uuid4_inj : forall k1 k2, uuid4 k1 = uuid4 k2 -> k1 = k2.

(** Ids of allocated objects are drawn from [uuid4], pairwise distinct and
    indexed by [all_memories]; a [supersedes] link names an older object of
    the same canonical key. *)
Record InvIds (st : Store) : Prop := {
  ids_drawn : forall a, (a < next_addr st)%nat ->
    exists k, (k < uuid_ctr st)%nat /\ id (heap st a) = uuid4 k;
  ids_inj : forall a b, (a < next_addr st)%nat -> (b < next_addr st)%nat ->
    id (heap st a) = id (heap st b) -> a = b;
  ids_index : forall i a, Py.get String.eqb i (all_memories st) = Some a <->
    (a < next_addr st)%nat /\ id (heap st a) = i;
  ids_back : forall b i, (b < next_addr st)%nat -> supersedes (heap st b) = Some i ->
    exists a, (a < b)%nat /\ id (heap st a) = i /\ get_key (heap st a) = get_key (heap st b)
}.

Lemma InvIds_empty : InvIds empty_store.
Proof.
  constructor; cbn; try lia. intros i a. split; [discriminate|lia].
Qed.

Lemma InvIds_fresh st k a :
  InvIds st -> (uuid_ctr st <= k)%nat -> (a < next_addr st)%nat -> id (heap st a) <> uuid4 k.
Proof.
  intros Hi Hk Ha E. destruct (ids_drawn st Hi a Ha) as (k' & Hk' & E').
  rewrite E' in E. apply uuid4_inj in E. lia.
Qed.

(** One new object at [next_addr st], with the fresh id [uuid4 k]. *)
Lemma InvIds_extend st st' k :
  InvIds st ->
  next_addr st' = S (next_addr st) ->
  (uuid_ctr st <= k < uuid_ctr st')%nat ->
  id (heap st' (next_addr st)) = uuid4 k ->
  (forall b, (b < next_addr st)%nat ->
     id (heap st' b) = id (heap st b) /\ supersedes (heap st' b) = supersedes (heap st b) /\
     get_key (heap st' b) = get_key (heap st b)) ->
  all_memories st' = Py.setitem String.eqb (uuid4 k) (next_addr st) (all_memories st) ->
  (supersedes (heap st' (next_addr st)) = None \/
   exists a, (a < next_addr st)%nat /\
     supersedes (heap st' (next_addr st)) = Some (id (heap st a)) /\
     get_key (heap st a) = get_key (heap st' (next_addr st))) ->
  InvIds st'.
Proof.
  intros Hi Hn Hk Hid Hold Ham Hback.
  assert (Hfr : forall a, (a < next_addr st)%nat -> id (heap st a) <> uuid4 k)
    by (intros; apply (InvIds_fresh st k a Hi); lia).
  constructor; rewrite ?Hn.
  - intros a Ha. destruct (Nat.eq_dec a (next_addr st)) as [->|Hne].
    + exists k. split; [lia|exact Hid].
    + destruct (ids_drawn st Hi a ltac:(lia)) as (k' & Hk' & E).
      exists k'. split; [lia|]. rewrite (proj1 (Hold a ltac:(lia))). exact E.
  - intros a b Ha Hb E.
    destruct (Nat.eq_dec a (next_addr st)) as [->|Hna],
             (Nat.eq_dec b (next_addr st)) as [->|Hnb]; auto.
    + rewrite Hid, (proj1 (Hold b ltac:(lia))) in E. exfalso. apply (Hfr b); [lia|auto].
    + rewrite Hid, (proj1 (Hold a ltac:(lia))) in E. exfalso. apply (Hfr a); [lia|auto].
    + rewrite (proj1 (Hold a ltac:(lia))), (proj1 (Hold b ltac:(lia))) in E.
      apply (ids_inj st Hi); auto; lia.
  - intros i a. rewrite Ham, (get_setitem String.eqb String_eqb_spec').
    destruct (String.eqb i (uuid4 k)) eqn:Ei.
    + apply String.eqb_eq in Ei. subst i. split.
      * intros [= <-]. split; [lia|exact Hid].
      * intros [Ha E]. destruct (Nat.eq_dec a (next_addr st)) as [->|Hne]; [reflexivity|].
        rewrite (proj1 (Hold a ltac:(lia))) in E. exfalso. apply (Hfr a); [lia|exact E].
    + apply String.eqb_neq in Ei. rewrite (ids_index st Hi). split.
      * intros [Ha E]. split; [lia|]. rewrite (proj1 (Hold a Ha)). exact E.
      * intros [Ha E]. destruct (Nat.eq_dec a (next_addr st)) as [->|Hne].
        -- rewrite Hid in E. congruence.
        -- split; [lia|]. rewrite <- (proj1 (Hold a ltac:(lia))). exact E.
  - intros b i Hb E. destruct (Nat.eq_dec b (next_addr st)) as [->|Hne].
    + destruct Hback as [Hn'|(a & Ha & Hs & Hkey)]; [congruence|].
      rewrite Hs in E. injection E as <-. exists a.
      destruct (Hold a Ha) as (H1 & _ & H3). rewrite H1, H3. auto.
    + destruct (Hold b ltac:(lia)) as (_ & H2 & H3). rewrite H2 in E.
      destruct (ids_back st Hi b i ltac:(lia) E) as (a & Hab & Ha1 & Ha2).
      exists a. destruct (Hold a ltac:(lia)) as (G1 & _ & G3).
      rewrite G1, G3, H3. auto.
Qed.

Lemma InvIds_add_new st m chapter :
  InvIds st -> supersedes m = None -> InvIds (fst (add_new_memory uuid4 st m chapter)).
Proof.
  intros Hi Hm. pose proof (add_new_memory_result uuid4 st m chapter) as H.
  destruct (add_new_memory uuid4 st m chapter) as [st' na]. cbn [fst].
  destruct H as (-> & Hnext & Hctr & Hna & Hother & _ & Ham).
  apply (InvIds_extend st st' (uuid_ctr st) Hi Hnext); try lia.
  - rewrite Hna. reflexivity.
  - intros b Hb. rewrite Hother by lia. auto.
  - exact Ham.
  - left. rewrite Hna. exact Hm.
Qed.

Lemma InvIds_update st ea m chapter reason :
  InvIds st -> (ea < next_addr st)%nat ->
  InvIds (fst (update_existing_memory uuid4 st ea m chapter reason)).
Proof.
  intros Hi Hea. pose proof (update_existing_memory_result uuid4 st ea m chapter reason Hea) as H.
  destruct (update_existing_memory uuid4 st ea m chapter reason) as [st' na]. cbn [fst].
  destruct H as (-> & Hnext & Hctr & He & Hna & Hother & _ & Ham).
  apply (InvIds_extend st st' (S (uuid_ctr st)) Hi Hnext); try lia.
  - rewrite Hna. reflexivity.
  - intros b Hb. destruct (Nat.eq_dec b ea) as [->|Hne].
    + rewrite He. auto.
    + rewrite Hother by lia. auto.
  - exact Ham.
  - right. exists ea. split; [exact Hea|]. rewrite Hna. auto.
Qed.

Lemma InvIds_reachable st : resolver_reachable uuid4 fresh_call st -> InvIds st.
Proof.
  intro Hr. induction Hr as [|st m chapter thr Hr IH Hm]; [exact InvIds_empty|].
  destruct (smart_update_or_create_cases st m chapter thr) as [(ea & r & Hea & ->)| ->].
  - apply InvIds_update; [exact IH|].
    apply candidate_props in Hea as [Hea _].
    exact (idx_am_alloc _ (InvIdx_reachable uuid4 _ st Hr) ea Hea).
  - apply InvIds_add_new; [exact IH|]. apply Hm.
Qed.

End StoreIds.

Section Chains.

Variable uuid4 : nat -> string.

Lemma back_link_same_key st a b :
  InvIds uuid4 st -> (a < next_addr st)%nat -> (b < next_addr st)%nat ->
  supersedes (heap st b) = Some (id (heap st a)) ->
  get_key (heap st a) = get_key (heap st b) /\ (a < b)%nat.
Proof.
  intros Hi Ha Hb Hs.
  destruct (ids_back uuid4 st Hi b _ Hb Hs) as (a' & Hab & Hid & Hk).
  assert (a' = a) as -> by (apply (ids_inj uuid4 st Hi); auto; lia).
  auto.
Qed.

Lemma evolution_loop_same_key st K cur ev r :
  InvIds uuid4 st ->
  evolution_loop st cur ev r ->
  (forall y, In y ev -> get_key y = K) ->
  (forall i a, cur = Some i -> Py.get String.eqb i (all_memories st) = Some a ->
     get_key (heap st a) = K) ->
  forall y, In y r -> get_key y = K.
Proof.
  intros Hi Hl. induction Hl as [ev|ev|cid ev _ _|cid a ev r Hne Hg Hl IH]; auto.
  intros Hev Hcur. apply IH.
  - intros y [<-|Hy]; [exact (Hcur cid a eq_refl Hg)|auto].
  - intros i a' Hs Hg'. rewrite <- (Hcur cid a eq_refl Hg).
    apply (ids_index uuid4 st Hi) in Hg as [Ha Hida], Hg' as [Ha' Hida'].
    rewrite <- Hida' in Hs. exact (proj1 (back_link_same_key st a' a Hi Ha' Ha Hs)).
Qed.

(** Walking back from an allocated record along [supersedes] ends after at
    most [a] steps. *)
Lemma evolution_loop_terminates st :
  InvIds uuid4 st ->
  forall a, (a < next_addr st)%nat ->
  forall ev, exists r, evolution_loop st (supersedes (heap st a)) ev r.
Proof.
  intros Hi a. induction a as [a IH] using lt_wf_ind. intros Ha ev.
  destruct (supersedes (heap st a)) as [i|] eqn:Hs; [|eexists; apply evo_stop_none].
  destruct (string_dec i EmptyString) as [->|Hne]; [eexists; apply evo_stop_empty|].
  destruct (ids_back uuid4 st Hi a i Ha Hs) as (a' & Hlt & Hid & _).
  assert (Hg : Py.get String.eqb i (all_memories st) = Some a')
    by (apply (ids_index uuid4 st Hi); split; [lia|exact Hid]).
  destruct (IH a' Hlt ltac:(lia) (heap st a' :: ev)) as [r Hr].
  exists r. eapply evo_step; eauto.
Qed.

End Chains.

Lemma evolution_loop_det st cur ev r1 :
  evolution_loop st cur ev r1 -> forall r2, evolution_loop st cur ev r2 -> r1 = r2.
Proof.
  induction 1 as [ev|ev|cid ev Hne Hg|cid a ev r Hne Hg Hl IH]; intros r2 H2;
    inversion H2; subst; try congruence.
  match goal with
  | H1 : Py.get _ cid _ = Some ?x, H2 : Py.get _ cid _ = Some ?y |- _ =>
      rewrite H1 in H2; injection H2 as <-
  end.
  apply IH. assumption.
Qed.

Lemma demo_uuid_inj k1 k2 : demo_uuid k1 = demo_uuid k2 -> k1 = k2.
Proof.
  revert k2. induction k1 as [|k1 IH]; intros [|k2]; cbn; try discriminate; auto.
  intro H. injection H as H. f_equal. auto.
Qed.

Lemma in_insert_by_start x m l : In x (insert_by_start m l) <-> x = m \/ In x l.
Proof.
  induction l as [|y t IH]; cbn; [split; intros [H|[]]; auto|].
  destruct (chapter_start m <? chapter_start y); cbn; rewrite ?IH;
    split; intros H; intuition congruence.
Qed.

Lemma in_sort_by_start x l : In x (sort_by_start l) <-> In x l.
Proof.
  unfold sort_by_start.
  assert (H : forall acc, In x (fold_left (fun acc m => insert_by_start m acc) l acc) <->
                          In x acc \/ In x l).
  { induction l as [|m t IH]; intro acc; cbn [fold_left]; [cbn; tauto|].
    rewrite IH, in_insert_by_start. cbn. intuition congruence. }
  rewrite H. cbn. tauto.
Qed.

(** What the walk gathers are records of [all_memories.values()]. *)
Lemma evolution_loop_stored st cur ev r :
  evolution_loop st cur ev r -> forall x, In x r -> In x ev \/ In x (stored_records st).
Proof.
  induction 1 as [ev|ev|cid ev _ _|cid a ev r _ Hg _ IH]; auto.
  intros x Hx. destruct (IH x Hx) as [[<-|H]|H]; auto.
  right. apply in_map. exact (get_in_values String.eqb _ _ _ Hg).
Qed.

Lemma in_get_memory_timeline st x :
  In x (stored_records st) -> In x (get_memory_timeline st (get_key x)).
Proof.
  intro Hx. unfold get_memory_timeline. apply in_sort_by_start. apply filter_In.
  split; [exact Hx|apply String.eqb_refl].
Qed.

(** C10.  [update_existing_memory] copies the canonical key, [mem_type],
    [subjects], [predicate], [object], [visibility] and [attrs] of the
    superseded record into the new one; and on every store the resolver builds
    from an empty store (fresh candidates, distinct uuids), a [supersedes]
    link joins two records of one canonical key, so every chain that
    [get_memory_evolution] returns lies within a single key, and
    [get_memory_timeline] of the key of any record of the chain returns every
    record of the chain. *)
Theorem supersession_same_key (uuid4 : nat -> string)
  (uuid4_inj : forall k1 k2, uuid4 k1 = uuid4 k2 -> k1 = k2) :
  (forall st ea cand c reason, (ea < next_addr st)%nat ->
     let '(st', na) := update_existing_memory uuid4 st ea cand c reason in
     let e := heap st' ea in
     let n := heap st' na in
     get_key n = get_key e /\ get_key e = get_key (heap st ea) /\
     mem_type n = mem_type e /\ subjects n = subjects e /\ predicate n = predicate e /\
     object n = object e /\ visibility n = visibility e /\ attrs n = attrs e) /\
  (forall st, resolver_reachable uuid4 fresh_call st ->
     (forall a b, (a < next_addr st)%nat -> (b < next_addr st)%nat ->
        supersedes (heap st b) = Some (id (heap st a)) ->
        get_key (heap st a) = get_key (heap st b)) /\
     (forall i r, get_memory_evolution st i r ->
        forall x y, In x r -> In y r -> get_key x = get_key y) /\
     (forall i r, get_memory_evolution st i r ->
        forall x y, In x r -> In y r -> In y (get_memory_timeline st (get_key x)))).
Proof.
  split.
  - intros st ea cand c reason Hea.
    pose proof (update_existing_memory_result uuid4 st ea cand c reason Hea) as H.
    destruct (update_existing_memory uuid4 st ea cand c reason) as [st' na].
    destruct H as (_ & _ & _ & He & Hn & _). cbv zeta. rewrite He, Hn.
    repeat split.
  - intros st Hr. pose proof (InvIds_reachable uuid4 uuid4_inj st Hr) as Hi.
    assert (Hsame : forall i r, get_memory_evolution st i r ->
              forall x y, In x r -> In y r -> get_key x = get_key y).
    { intros i r Hl x y Hx Hy.
      destruct (Py.get String.eqb i (all_memories st)) as [a|] eqn:Hg.
      - assert (HK : forall z, In z r -> get_key z = get_key (heap st a)).
        { apply (evolution_loop_same_key uuid4 st _ (Some i) [] r Hi Hl).
          - intros ? [].
          - intros i' a' [= <-] Hg'. rewrite Hg in Hg'. injection Hg' as <-. reflexivity. }
        rewrite (HK x Hx), (HK y Hy). reflexivity.
      - inversion Hl; subst; try contradiction; congruence. }
    split; [|split; [exact Hsame|]].
    + intros a b Ha Hb Hs. exact (proj1 (back_link_same_key uuid4 st a b Hi Ha Hb Hs)).
    + intros i r Hl x y Hx Hy. rewrite (Hsame i r Hl x y Hx Hy).
      apply in_get_memory_timeline.
      destruct (evolution_loop_stored st _ _ _ Hl y Hy) as [[]|H]. exact H.
Qed.

Lemma supersession_same_key_witness :
  (forall k1 k2, demo_uuid k1 = demo_uuid k2 -> k1 = k2) /\
  get_key (heap demo_store2 0%nat) = get_key (heap demo_store2 1%nat).
Proof.
  split; [exact demo_uuid_inj|].
  assert (Hr : resolver_reachable demo_uuid fresh_call demo_store2).
  { apply reach_step; [|repeat split]. apply reach_step; [|repeat split]. apply reach_empty. }
  assert (Ha : (0 < next_addr demo_store2)%nat) by (vm_compute; lia).
  assert (Hb : (1 < next_addr demo_store2)%nat) by (vm_compute; lia).
  assert (Hs : supersedes (heap demo_store2 1%nat) = Some (id (heap demo_store2 0%nat)))
    by (vm_compute; reflexivity).
  exact (proj1 (proj2 (supersession_same_key demo_uuid demo_uuid_inj) demo_store2 Hr)
           0%nat 1%nat Ha Hb Hs).
Defined.

(** ** C4: the evolution walk *)

(** A set [C] of non-empty ids, each stored with a [supersedes] link back
    into [C]: the walk from any of them never stops. *)
Lemma evolution_loop_cycle st (C : list string) :
  (forall i, In i C -> i <> EmptyString /\
     exists a, Py.get String.eqb i (all_memories st) = Some a /\
     exists j, supersedes (heap st a) = Some j /\ In j C) ->
  forall cur ev r, evolution_loop st cur ev r -> forall i, cur = Some i -> In i C -> False.
Proof.
  intros HC cur ev r Hl.
  induction Hl as [ev|ev|cid ev Hne Hg|cid a ev r Hne Hg Hl IH]; intros i Hi HiC.
  - discriminate.
  - injection Hi as <-. exact (proj1 (HC _ HiC) eq_refl).
  - injection Hi as <-. destruct (HC _ HiC) as (_ & a & Hg' & _). congruence.
  - injection Hi as <-. destruct (HC _ HiC) as (_ & a' & Hg' & j & Hj & HjC).
    rewrite Hg in Hg'. injection Hg' as <-. exact (IH j Hj HjC).
Qed.

(** C4, counterexample.  [get_memory_evolution] keeps no visited set and
    raises nothing.  On the store loaded from a file whose record ["m1"] names
    ["m1"] as the record it supersedes, the walk from ["m1"] has no result at
    all (the [while] loop runs forever); on the store whose record ["m2"]
    names the absent id ["m0"], the walk stops and returns [[m2]] instead of
    failing. *)
Lemma get_memory_evolution_cycle_and_dangling :
  (forall r, ~ get_memory_evolution demo_store_cycle "m1" r) /\
  get_memory_evolution demo_store_dangling "m2" [heap demo_store_dangling 0%nat].
Proof.
  split.
  - intros r Hr.
    apply (evolution_loop_cycle demo_store_cycle ["m1"%string]) with
      (cur := Some "m1"%string) (ev := []) (r := r) (i := "m1"%string);
      [|exact Hr|reflexivity|left; reflexivity].
    intros i [<-|[]]. split; [discriminate|].
    exists 0%nat. split; [reflexivity|]. exists "m1"%string. split; [reflexivity|left; reflexivity].
  - eapply evo_step; [discriminate|reflexivity|].
    apply evo_break; [discriminate|reflexivity].
Qed.

(** [walk_links st cur chain last]: with [current_id = cur], the loop meets
    the stored objects [chain] one after the other, following [supersedes],
    and then holds [current_id = last]. *)
Fixpoint walk_links (st : Store) (cur : option string) (chain : list addr)
  (last : option string) : Prop :=
  match chain with
  | [] => cur = last
  | a :: t => exists i, cur = Some i /\ i <> EmptyString /\
                Py.get String.eqb i (all_memories st) = Some a /\
                walk_links st (supersedes (heap st a)) t last
  end.

Lemma evolution_loop_walk st chain : forall cur j ev,
  walk_links st cur chain (Some j) -> j <> EmptyString ->
  Py.get String.eqb j (all_memories st) = None ->
  evolution_loop st cur ev (rev (map (heap st) chain) ++ ev).
Proof.
  induction chain as [|a t IH]; intros cur j ev Hw Hj Hg; cbn in Hw.
  - subst cur. apply evo_break; assumption.
  - destruct Hw as (i & -> & Hi & Hga & Hw).
    eapply evo_step; [exact Hi|exact Hga|].
    cbn [map rev]. rewrite <- app_assoc. cbn [app].
    exact (IH _ j (heap st a :: ev) Hw Hj Hg).
Qed.

(** A store file of two records, ["m3"] superseding ["m2"], which names the
    absent id ["m0"]. *)
Definition demo_store_chain : Store :=
  load_memories [demo_record "m2" (Some "m0"%string) 2; demo_record "m3" (Some "m2"%string) 3].

(** C4, amended.  [get_memory_evolution] tracks no visited ids and has no
    error outcome.  On every store the resolver builds from an empty store
    (fresh candidates, distinct uuids) the walk terminates.  In general, a set
    of stored ids whose [supersedes] links stay inside the set makes the walk
    from any of them run forever, and a [supersedes] id absent from the store
    silently ends the walk, which returns the chain gathered so far: when the
    walk from [i] meets the stored objects [chain] and then an absent id, it
    returns exactly those objects, oldest first. *)
Theorem get_memory_evolution_outcomes (uuid4 : nat -> string)
  (uuid4_inj : forall k1 k2, uuid4 k1 = uuid4 k2 -> k1 = k2) :
  (forall st, resolver_reachable uuid4 fresh_call st ->
     forall i, exists r, get_memory_evolution st i r) /\
  (forall st (C : list string),
     (forall i, In i C -> i <> EmptyString /\
        exists a, Py.get String.eqb i (all_memories st) = Some a /\
        exists j, supersedes (heap st a) = Some j /\ In j C) ->
     forall i, In i C -> forall r, ~ get_memory_evolution st i r) /\
  (forall st i chain j, walk_links st (Some i) chain (Some j) -> j <> EmptyString ->
     Py.get String.eqb j (all_memories st) = None ->
     forall r, get_memory_evolution st i r <-> r = rev (map (heap st) chain)).
Proof.
  split; [|split].
  - intros st Hr i. pose proof (InvIds_reachable uuid4 uuid4_inj st Hr) as Hi.
    unfold get_memory_evolution.
    destruct (string_dec i EmptyString) as [->|Hne]; [eexists; apply evo_stop_empty|].
    destruct (Py.get String.eqb i (all_memories st)) as [a|] eqn:Hg;
      [|eexists; apply evo_break; auto].
    pose proof Hg as Ha. apply (ids_index uuid4 st Hi) in Ha as [Ha _].
    destruct (evolution_loop_terminates uuid4 st Hi a Ha [heap st a]) as [r Hl].
    exists r. eapply evo_step; eauto.
  - intros st C HC i HiC r Hl. exact (evolution_loop_cycle st C HC _ _ _ Hl i eq_refl HiC).
  - intros st i chain j Hw Hj Hgj r.
    assert (H : get_memory_evolution st i (rev (map (heap st) chain))).
    { unfold get_memory_evolution. rewrite <- (app_nil_r (rev _)).
      exact (evolution_loop_walk st chain _ j [] Hw Hj Hgj). }
    split; [intro Hr; exact (evolution_loop_det _ _ _ _ Hr _ H)|intros ->; exact H].
Qed.

Lemma get_memory_evolution_outcomes_witness :
  (forall k1 k2, demo_uuid k1 = demo_uuid k2 -> k1 = k2) /\
  (exists r, get_memory_evolution demo_store2 "xxu" r) /\
  walk_links demo_store_chain (Some "m3"%string) [1%nat; 0%nat] (Some "m0"%string) /\
  get_memory_evolution demo_store_chain "m3"
    [heap demo_store_chain 0%nat; heap demo_store_chain 1%nat].
Proof.
  assert (Hr : resolver_reachable demo_uuid fresh_call demo_store2).
  { apply reach_step; [|repeat split]. apply reach_step; [|repeat split]. apply reach_empty. }
  assert (Hw : walk_links demo_store_chain (Some "m3"%string) [1%nat; 0%nat] (Some "m0"%string)).
  { exists "m3"%string. split; [reflexivity|]. split; [discriminate|]. split; [reflexivity|].
    exists "m2"%string. split; [reflexivity|]. split; [discriminate|]. split; [reflexivity|].
    reflexivity. }
  pose proof (get_memory_evolution_outcomes demo_uuid demo_uuid_inj) as (H1 & _ & H3).
  split; [exact demo_uuid_inj|]. split; [exact (H1 demo_store2 Hr "xxu"%string)|].
  split; [exact Hw|].
  exact (proj2 (H3 demo_store_chain "m3"%string [1%nat; 0%nat] "m0"%string Hw
    ltac:(discriminate) eq_refl _) eq_refl).
Defined.

(** ** C5: [chapter_end] of superseded records *)

Section ChapterEnd.

Variable uuid4 : nat -> string.

(** A closed record links to the record that superseded it, which starts the
    chapter after the closing one. *)
Definition end_linked (st : Store) : Prop :=
  forall a e, (a < next_addr st)%nat -> chapter_end (heap st a) = Some e ->
    exists b, (b < next_addr st)%nat /\
      superseded_by (heap st a) = Some (id (heap st b)) /\
      supersedes (heap st b) = Some (id (heap st a)) /\
      e = chapter_start (heap st b) - 1.

Definition end_after_start (st : Store) : Prop :=
  forall a e, (a < next_addr st)%nat -> chapter_end (heap st a) = Some e ->
    chapter_start (heap st a) <= e.

Lemma end_linked_add st m chapter :
  end_linked st -> chapter_end m = None -> end_linked (fst (add_new_memory uuid4 st m chapter)).
Proof.
  intros Hl Hm. pose proof (add_new_memory_result uuid4 st m chapter) as H.
  destruct (add_new_memory uuid4 st m chapter) as [st' na]. cbn [fst].
  destruct H as (-> & Hnext & _ & Hna & Hother & _).
  intros a e Ha Hae. rewrite Hnext in Ha.
  destruct (Nat.eq_dec a (next_addr st)) as [->|Hne].
  - rewrite Hna in Hae. cbn in Hae. congruence.
  - rewrite Hother in Hae |- * by exact Hne.
    destruct (Hl a e ltac:(lia) Hae) as (b & Hb & H1 & H2 & H3).
    exists b. rewrite Hnext, (Hother b) by lia. repeat split; auto; lia.
Qed.

Lemma end_linked_update st ea m chapter reason :
  end_linked st -> (ea < next_addr st)%nat ->
  end_linked (fst (update_existing_memory uuid4 st ea m chapter reason)).
Proof.
  intros Hl Hea. pose proof (update_existing_memory_result uuid4 st ea m chapter reason Hea) as H.
  destruct (update_existing_memory uuid4 st ea m chapter reason) as [st' na]. cbn [fst].
  destruct H as (-> & Hnext & _ & He & Hna & Hother & _).
  (* the fields of [ea] the successor links read are unchanged *)
  assert (Hsame : forall b, (b < next_addr st)%nat ->
            id (heap st' b) = id (heap st b) /\ supersedes (heap st' b) = supersedes (heap st b) /\
            chapter_start (heap st' b) = chapter_start (heap st b)).
  { intros b Hb. destruct (Nat.eq_dec b ea) as [->|Hne]; [rewrite He; auto|].
    rewrite Hother by lia. auto. }
  intros a e Ha Hae. rewrite Hnext in Ha.
  destruct (Nat.eq_dec a ea) as [->|Hne].
  - rewrite He in Hae. cbn in Hae. injection Hae as <-.
    exists (next_addr st). rewrite Hnext, He, Hna. cbn. repeat split; auto.
  - destruct (Nat.eq_dec a (next_addr st)) as [->|Hna'].
    + rewrite Hna in Hae. cbn in Hae. congruence.
    + rewrite Hother in Hae |- * by assumption.
      destruct (Hl a e ltac:(lia) Hae) as (b & Hb & H1 & H2 & H3).
      destruct (Hsame b Hb) as (G1 & G2 & G3).
      destruct (Hsame a ltac:(lia)) as (G1a & _ & _).
      exists b. rewrite Hnext, G1, G2, G3. repeat split; auto; lia.
Qed.

Lemma end_linked_reachable st : resolver_reachable uuid4 fresh_call st -> end_linked st.
Proof.
  intro Hr. induction Hr as [|st m chapter thr Hr IH Hm].
  - intros a e Ha. cbn in Ha. lia.
  - destruct (smart_update_or_create_cases uuid4 st m chapter thr) as [(ea & r & Hea & ->)| ->].
    + apply end_linked_update; [exact IH|].
      apply candidate_props in Hea as [Hea _].
      exact (idx_am_alloc _ (InvIdx_reachable uuid4 _ st Hr) ea Hea).
    + apply end_linked_add; [exact IH|]. apply Hm.
Qed.

Lemma end_after_start_reachable st :
  resolver_reachable uuid4 aligned_call st -> end_after_start st.
Proof.
  intro Hr. induction Hr as [|st m chapter thr Hr IH [Hm Hch]].
  - intros a e Ha. cbn in Ha. lia.
  - destruct (smart_update_or_create_cases uuid4 st m chapter thr) as [(ea & r & Hea & ->)| ->].
    + destruct (candidate_props st m ea Hea) as (Hin & _ & _ & Hlt).
      pose proof (idx_am_alloc _ (InvIdx_reachable uuid4 _ st Hr) ea Hin) as Hea'.
      pose proof (update_existing_memory_result uuid4 st ea m chapter r Hea') as H.
      destruct (update_existing_memory uuid4 st ea m chapter r) as [st' na]. cbn [fst].
      destruct H as (-> & Hnext & _ & He & Hna & Hother & _).
      intros a e Ha Hae. rewrite Hnext in Ha.
      destruct (Nat.eq_dec a ea) as [->|Hne].
      * rewrite He in Hae |- *. cbn in Hae |- *. injection Hae as <-. lia.
      * destruct (Nat.eq_dec a (next_addr st)) as [->|Hna'].
        -- rewrite Hna in Hae. cbn in Hae. congruence.
        -- rewrite Hother in Hae |- * by assumption. apply (IH a e); auto; lia.
    + pose proof (add_new_memory_result uuid4 st m chapter) as H.
      destruct (add_new_memory uuid4 st m chapter) as [st' na]. cbn [fst].
      destruct H as (-> & Hnext & _ & Hna & Hother & _).
      intros a e Ha Hae. rewrite Hnext in Ha.
      destruct (Nat.eq_dec a (next_addr st)) as [->|Hne].
      * rewrite Hna in Hae. cbn in Hae. destruct Hm as [Hm _]. congruence.
      * rewrite Hother in Hae |- * by exact Hne. apply (IH a e); auto; lia.
Qed.

End ChapterEnd.

(** C5, counterexample.  From an empty store, a record created in chapter 5
    is superseded by a candidate observed in chapter 10 that is passed with
    chapter number 3 (score 0.7 >= 0.6): the superseded record ends up with
    [chapter_start = 5] and [chapter_end = 2 < 5]. *)
Lemma chapter_end_before_start :
  resolver_reachable demo_uuid fresh_call demo_store_late /\
  (0 < next_addr demo_store_late)%nat /\
  chapter_start (heap demo_store_late 0%nat) = 5 /\
  chapter_end (heap demo_store_late 0%nat) = Some 2.
Proof.
  split; [|vm_compute; repeat split; lia].
  apply reach_step; [|repeat split]. apply reach_step; [|repeat split]. apply reach_empty.
Qed.

(** C5, amended.  On every store the resolver builds from an empty store with
    fresh candidates, a record whose [chapter_end] is set to [e] links through
    [superseded_by] to the record that superseded it, which links back through
    [supersedes] and has [chapter_start = e + 1].  When moreover every call
    passes the candidate's own [chapter_start] as the chapter, [chapter_end]
    is at least [chapter_start]. *)
Theorem chapter_end_successor (uuid4 : nat -> string) st :
  (resolver_reachable uuid4 fresh_call st ->
   forall a e, (a < next_addr st)%nat -> chapter_end (heap st a) = Some e ->
     exists b, (b < next_addr st)%nat /\
       superseded_by (heap st a) = Some (id (heap st b)) /\
       supersedes (heap st b) = Some (id (heap st a)) /\
       e = chapter_start (heap st b) - 1) /\
  (resolver_reachable uuid4 aligned_call st ->
   forall a e, (a < next_addr st)%nat -> chapter_end (heap st a) = Some e ->
     chapter_start (heap st a) <= e).
Proof.
  split.
  - apply end_linked_reachable.
  - apply end_after_start_reachable.
Qed.

Lemma chapter_end_successor_witness :
  resolver_reachable demo_uuid aligned_call demo_store2 /\
  chapter_start (heap demo_store2 0%nat) <= 2.
Proof.
  assert (Hr : resolver_reachable demo_uuid aligned_call demo_store2).
  { apply reach_step; [|repeat split]. apply reach_step; [|repeat split]. apply reach_empty. }
  assert (Ha : (0 < next_addr demo_store2)%nat) by (vm_compute; lia).
  assert (He : chapter_end (heap demo_store2 0%nat) = Some 2) by (vm_compute; reflexivity).
  exact (conj Hr (proj2 (chapter_end_successor demo_uuid demo_store2) Hr 0%nat 2 Ha He)).
Defined.

(** ** C6: the symmetry scan *)

Lemma string_append_empty_r s : String.append s EmptyString = s.
Proof. induction s as [|c s IH]; cbn; [reflexivity|now rewrite IH]. Qed.

Lemma string_append_assoc a b c :
  String.append (String.append a b) c = String.append a (String.append b c).
Proof. induction a as [|x a IH]; cbn; [reflexivity|now rewrite IH]. Qed.

Lemma split_dc_aux_char x s cur :
  x <> ":"%char ->
  Py.split_dc_aux (String x s) cur = Py.split_dc_aux s (String.append cur (String x EmptyString)).
Proof.
  intro Hx. destruct x as [[] [] [] [] [] [] [] []]; try reflexivity.
  exfalso. apply Hx. reflexivity.
Qed.

Lemma split_dc_aux_no_colon c cur :
  has_colon c = false -> Py.split_dc_aux c cur = [String.append cur c].
Proof.
  revert cur. induction c as [|x c IH]; intros cur H; cbn [has_colon] in H.
  - cbn. now rewrite string_append_empty_r.
  - apply orb_false_iff in H as [Hx Hc].
    rewrite split_dc_aux_char by (intro E; subst; discriminate).
    rewrite IH by exact Hc. now rewrite string_append_assoc.
Qed.

Lemma split_dc_aux_sep c1 c2 cur :
  has_colon c1 = false ->
  Py.split_dc_aux (String.append c1 (String.append Py.sep2 c2)) cur =
  String.append cur c1 :: Py.split_dc_aux c2 EmptyString.
Proof.
  revert cur. induction c1 as [|x c1 IH]; intros cur H; cbn [has_colon] in H.
  - cbn. now rewrite string_append_empty_r.
  - apply orb_false_iff in H as [Hx Hc]. cbn [String.append].
    rewrite split_dc_aux_char by (intro E; subst; discriminate).
    rewrite IH by exact Hc. now rewrite string_append_assoc.
Qed.

Lemma split_rel_key c1 c2 :
  has_colon c1 = false -> has_colon c2 = false ->
  Py.split_dc (rel_key_of c1 c2) = [c1; c2].
Proof.
  intros H1 H2. unfold Py.split_dc, rel_key_of.
  rewrite split_dc_aux_sep, split_dc_aux_no_colon by assumption. reflexivity.
Qed.

Lemma rel_key_inj c1 c2 d1 d2 :
  has_colon c1 = false -> has_colon c2 = false ->
  has_colon d1 = false -> has_colon d2 = false ->
  rel_key_of c1 c2 = rel_key_of d1 d2 -> c1 = d1 /\ c2 = d2.
Proof.
  intros H1 H2 H3 H4 E.
  pose proof (split_rel_key c1 c2 H1 H2) as S1. rewrite E, split_rel_key in S1 by assumption.
  injection S1 as -> ->. auto.
Qed.

Section DictKeys.
Context {K V : Type} (eqk : K -> K -> bool) (eqk_spec : forall x y, eqk x y = true <-> x = y).

Lemma set_in_place_keys (k : K) (v : V) d d' :
  Py.set_in_place eqk k v d = Some d' -> map fst d' = map fst d.
Proof.
  revert d'. induction d as [|[k0 v0] t IH]; intros d' H; cbn in H; [discriminate|].
  destruct (eqk k k0); [injection H as <-; reflexivity|].
  destruct (Py.set_in_place eqk k v t) as [t'|] eqn:Ht; [|discriminate].
  injection H as <-. cbn. f_equal. now apply IH.
Qed.

Lemma get_none_notin (k : K) (d : list (K * V)) :
  Py.get eqk k d = None -> ~ In k (map fst d).
Proof.
  induction d as [|[k0 v0] t IH]; cbn; [tauto|].
  destruct (eqk k k0) eqn:E; [discriminate|]. intros Hg [H|H]; [|exact (IH Hg H)].
  subst k0. rewrite (proj2 (eqk_spec k k) eq_refl) in E. discriminate.
Qed.

Lemma setitem_nodup (k : K) (v : V) d :
  NoDup (map fst d) -> NoDup (map fst (Py.setitem eqk k v d)).
Proof.
  intro Hd. unfold Py.setitem.
  destruct (Py.set_in_place eqk k v d) as [d'|] eqn:Hs.
  - now rewrite (set_in_place_keys k v d d' Hs).
  - apply (set_in_place_none_get eqk) in Hs. apply get_none_notin in Hs.
    rewrite map_app. cbn. apply NoDup_app; auto using NoDup_cons, NoDup_nil.
    + intros x Hx [<-|[]]. exact (Hs Hx).
Qed.

Lemma in_nodup_get (k : K) (v : V) d :
  NoDup (map fst d) -> In (k, v) d -> Py.get eqk k d = Some v.
Proof.
  induction d as [|[k0 v0] t IH]; cbn; [tauto|]. intros Hd Hin.
  inversion Hd as [|? ? Hn Ht]; subst.
  destruct (eqk k k0) eqn:E.
  - apply eqk_spec in E. subst k0. destruct Hin as [[= ->]|Hin]; [reflexivity|].
    exfalso. apply Hn. apply in_map_iff. exists (k, v). auto.
  - destruct Hin as [[= -> ->]|Hin]; [|auto].
    rewrite (proj2 (eqk_spec k k) eq_refl) in E. discriminate.
Qed.

Lemma get_in (k : K) (v : V) d : Py.get eqk k d = Some v -> In (k, v) d.
Proof.
  induction d as [|[k0 v0] t IH]; cbn; [discriminate|].
  destruct (eqk k k0) eqn:E; [|auto].
  apply eqk_spec in E. intros [= ->]. subst. now left.
Qed.

End DictKeys.

Lemma add_relationship_get st rels ys a :
  (forall k, Py.get String.eqb k rels = opt (filter (grp st k) ys)) ->
  forall k, Py.get String.eqb k (add_relationship st rels a) = opt (filter (grp st k) (ys ++ [a])).
Proof.
  intros H k. rewrite filter_app. unfold add_relationship. cbn [filter].
  unfold grp at 2.
  destruct (is_relationship_memory (heap st a)) eqn:Hr; cbn [andb];
    [|rewrite app_nil_r; apply H].
  destruct (Py.sorted (subjects (heap st a))) as [|c1 [|c2 [|c3 t]]] eqn:Hs;
    try (rewrite app_nil_r; apply H).
  rewrite (get_setitem String.eqb String_eqb_spec').
  destruct (String.eqb k (rel_key_of c1 c2)) eqn:Ek.
  - apply String.eqb_eq in Ek. subst k. rewrite String.eqb_refl, H.
    destruct (filter _ ys); reflexivity.
  - rewrite String.eqb_sym, Ek, app_nil_r. apply H.
Qed.

Lemma fold_relationships_get st xs : forall rels ys,
  (forall k, Py.get String.eqb k rels = opt (filter (grp st k) ys)) ->
  forall k, Py.get String.eqb k (fold_left (add_relationship st) xs rels) =
            opt (filter (grp st k) (ys ++ xs)).
Proof.
  induction xs as [|a t IH]; intros rels ys H k; cbn [fold_left].
  - rewrite app_nil_r. apply H.
  - rewrite (IH _ (ys ++ [a])); [now rewrite <- app_assoc|].
    apply add_relationship_get. exact H.
Qed.

(** Each key of [relationships] holds the records of its group, in store
    order. *)
Lemma relationships_get st k :
  Py.get String.eqb k (relationships st) = opt (filter (grp st k) (Py.values (all_memories st))).
Proof.
  unfold relationships. apply (fold_relationships_get st _ [] []). reflexivity.
Qed.

Lemma relationships_nodup st : NoDup (map fst (relationships st)).
Proof.
  unfold relationships.
  assert (H : forall xs rels, NoDup (map fst rels) ->
            NoDup (map fst (fold_left (add_relationship st) xs rels))).
  { induction xs as [|a t IH]; intros rels Hr; cbn; [exact Hr|]. apply IH.
    unfold add_relationship. destruct (is_relationship_memory _); [|exact Hr].
    destruct (Py.sorted _) as [|c1 [|c2 [|c3 t']]]; try exact Hr.
    apply (setitem_nodup String.eqb String_eqb_spec'). exact Hr. }
  apply H. constructor.
Qed.

Lemma sorted_pair_leb l c1 c2 : Py.sorted l = [c1; c2] -> String.leb c1 c2 = true.
Proof.
  intro H. pose proof (Sorting.sorted_ss l) as Hs. rewrite H in Hs.
  apply StronglySorted_inv in Hs as [_ Hf]. inversion Hf. assumption.
Qed.

Lemma sorted_pair_in l c1 c2 c : Py.sorted l = [c1; c2] -> In c [c1; c2] -> In c l.
Proof.
  intros H Hc. rewrite <- H in Hc.
  eapply Permutation_in; [symmetry; apply Sorting.sorted_perm|exact Hc].
Qed.

Lemma symmetry_scan_spec st rels (P : string -> list addr -> SymmetryViolation -> Prop) groups :
  (forall k mems, In (k, mems) groups ->
     exists Lg, symmetry_of_group st rels k mems = Some Lg /\ forall v, In v Lg <-> P k mems v) ->
  exists L, symmetry_scan st rels groups = Some L /\
    forall v, In v L <-> exists k mems, In (k, mems) groups /\ P k mems v.
Proof.
  induction groups as [|[k mems] t IH]; intro H.
  - exists []. split; [reflexivity|]. intro v. split; [intros []|].
    intros (k & mems & [] & _).
  - destruct (H k mems (or_introl eq_refl)) as (Lg & Hg & HLg).
    destruct IH as (L & HL & HLi); [intros k' m' Hin; apply H; now right|].
    exists (Lg ++ L). cbn. rewrite Hg, HL. split; [reflexivity|].
    intro v. rewrite in_app_iff, HLg, HLi. split.
    + intros [Hp|(k' & m' & Hin & Hp)]; [exists k, mems; auto|exists k', m'; auto].
    + intros (k' & m' & [[= <- <-]|Hin] & Hp); [now left|right; exists k', m'; auto].
Qed.

Section Symmetry.

Variable st : Store.

(** Subjects of relationship records contain no [":"], so that
    [rel_key.split("::")] gives back the two names. *)
Hypothesis no_colon : forall a, In a (Py.values (all_memories st)) ->
  is_relationship_memory (heap st a) = true ->
  forall c, In c (subjects (heap st a)) -> has_colon c = false.

Lemma pair_no_colon a c1 c2 :
  In a (Py.values (all_memories st)) -> is_relationship_memory (heap st a) = true ->
  Py.sorted (subjects (heap st a)) = [c1; c2] ->
  has_colon c1 = false /\ has_colon c2 = false.
Proof.
  intros Hin Hr Hs. split; apply (no_colon a Hin Hr);
    apply (sorted_pair_in _ c1 c2); auto; [now left|right; now left].
Qed.

Lemma grp_facts k a :
  In a (Py.values (all_memories st)) -> grp st k a = true ->
  is_relationship_memory (heap st a) = true /\
  exists c1 c2, Py.sorted (subjects (heap st a)) = [c1; c2] /\ k = rel_key_of c1 c2 /\
    has_colon c1 = false /\ has_colon c2 = false /\ String.leb c1 c2 = true.
Proof.
  intros Hin Hg. unfold grp in Hg. apply andb_prop in Hg as [Hr Hk]. split; [exact Hr|].
  destruct (Py.sorted (subjects (heap st a))) as [|c1 [|c2 [|c3 t]]] eqn:Hs;
    try discriminate.
  apply String.eqb_eq in Hk. destruct (pair_no_colon a c1 c2 Hin Hr Hs).
  exists c1, c2. repeat split; auto. exact (sorted_pair_leb _ _ _ Hs).
Qed.

Lemma same_pair_facts b d1 d2 :
  same_pair d1 d2 (heap st b) = true ->
  is_relationship_memory (heap st b) = true /\ Py.sorted (subjects (heap st b)) = [d1; d2].
Proof.
  unfold same_pair. intro H. apply andb_prop in H as [Hr H]. split; [exact Hr|].
  destruct (Py.sorted (subjects (heap st b))) as [|x1 [|x2 [|x3 t]]]; try discriminate.
  apply andb_prop in H as [E1 E2]. apply String.eqb_eq in E1, E2. now subst.
Qed.

Lemma entry_filter k mems :
  In (k, mems) (relationships st) ->
  mems = filter (grp st k) (Py.values (all_memories st)).
Proof.
  intro H. apply (in_nodup_get String.eqb String_eqb_spec') in H;
    [|apply relationships_nodup].
  rewrite relationships_get in H. unfold opt in H.
  destruct (filter _ _); congruence.
Qed.

Lemma reverse_lookup c1 c2 :
  has_colon c1 = false -> has_colon c2 = false -> String.leb c1 c2 = true -> c1 <> c2 ->
  Py.get String.eqb (rel_key_of c2 c1) (relationships st) = None.
Proof.
  intros H1 H2 Hle Hne. rewrite relationships_get.
  replace (filter _ _) with (@nil addr); [reflexivity|].
  symmetry. rewrite <- (filter_false (Py.values (all_memories st))). apply filter_ext_in.
  intros b Hb. destruct (grp st _ b) eqn:Hg; [|reflexivity].
  exfalso. destruct (grp_facts _ b Hb Hg) as (_ & d1 & d2 & Hs & Hk & G1 & G2 & Gle).
  destruct (rel_key_inj c2 c1 d1 d2 H2 H1 G1 G2 Hk) as [<- <-].
  apply Hne. apply String.leb_antisym; assumption.
Qed.

Lemma same_pair_grp c1 c2 b :
  has_colon c1 = false -> has_colon c2 = false -> In b (Py.values (all_memories st)) ->
  same_pair c1 c2 (heap st b) = grp st (rel_key_of c1 c2) b.
Proof.
  intros H1 H2 Hb. unfold same_pair, grp.
  destruct (is_relationship_memory (heap st b)) eqn:Hr; [cbn [andb]|reflexivity].
  destruct (Py.sorted (subjects (heap st b))) as [|d1 [|d2 [|d3 t]]] eqn:Hs; try reflexivity.
  destruct (pair_no_colon b d1 d2 Hb Hr Hs) as [G1 G2].
  destruct (String.eqb d1 c1) eqn:E1, (String.eqb d2 c2) eqn:E2; cbn [andb].
  - apply String.eqb_eq in E1, E2. subst. symmetry. apply String.eqb_refl.
  - symmetry. apply String.eqb_neq. intro E.
    destruct (rel_key_inj d1 d2 c1 c2 G1 G2 H1 H2 E) as [_ ->].
    now rewrite String.eqb_refl in E2.
  - symmetry. apply String.eqb_neq. intro E.
    destruct (rel_key_inj d1 d2 c1 c2 G1 G2 H1 H2 E) as [-> _].
    now rewrite String.eqb_refl in E1.
  - symmetry. apply String.eqb_neq. intro E.
    destruct (rel_key_inj d1 d2 c1 c2 G1 G2 H1 H2 E) as [-> _].
    now rewrite String.eqb_refl in E1.
Qed.

(** What one key of [relationships] contributes. *)
Definition group_flag (k : string) (mems : list addr) (v : SymmetryViolation) : Prop :=
  exists a c1 c2 ind, mems = [a] /\
    filter (fun b => same_pair c1 c2 (heap st b)) (Py.values (all_memories st)) = [a] /\
    first_indicator asymmetric_indicators (Py.lower (fact_text (heap st a))) = Some ind /\
    c1 <> c2 /\ k = rel_key_of c1 c2 /\
    v = mkSymmetryViolation (id (heap st a)) (rel_key_of c1 c2) c1 c2
          (fact_text (heap st a)) ind.

Lemma lone_pair a d1 d2 c1 c2 :
  filter (fun b => same_pair d1 d2 (heap st b)) (Py.values (all_memories st)) = [a] ->
  Py.sorted (subjects (heap st a)) = [c1; c2] -> d1 = c1 /\ d2 = c2.
Proof.
  intros Hf Hs.
  assert (Ha : In a (filter (fun b => same_pair d1 d2 (heap st b)) (Py.values (all_memories st))))
    by (rewrite Hf; now left).
  apply filter_In in Ha as [_ Ha]. apply same_pair_facts in Ha as [_ Hs'].
  rewrite Hs in Hs'. now injection Hs' as -> ->.
Qed.

Lemma symmetry_of_group_spec k mems :
  In (k, mems) (relationships st) ->
  exists Lg, symmetry_of_group st (relationships st) k mems = Some Lg /\
  forall v, In v Lg <-> group_flag k mems v.
Proof.
  intro Hkm. pose proof (entry_filter k mems Hkm) as Hm. unfold group_flag.
  destruct mems as [|a [|a2 t]].
  - exists []. split; [reflexivity|]. intro v. split; [intros []|].
    intros (a & _ & _ & _ & [=] & _).
  - assert (Ha : In a (filter (grp st k) (Py.values (all_memories st))))
      by (rewrite <- Hm; now left).
    apply filter_In in Ha as [Hin Hg].
    destruct (grp_facts k a Hin Hg) as (Hr & c1 & c2 & Hs & -> & H1 & H2 & Hle).
    cbn [symmetry_of_group].
    destruct (first_indicator asymmetric_indicators (Py.lower (fact_text (heap st a))))
      as [ind|] eqn:Hind.
    + rewrite (split_rel_key c1 c2 H1 H2).
      destruct (String.eqb c1 c2) eqn:Ec.
      * apply String.eqb_eq in Ec. subst c2. exists [].
        rewrite (in_nodup_get String.eqb String_eqb_spec' _ _ _ (relationships_nodup st) Hkm).
        split; [reflexivity|]. intro v. split; [intros []|].
        intros (a' & d1 & d2 & ind' & [= <-] & Hf & _ & Hne & _).
        destruct (lone_pair a d1 d2 c1 c1 Hf Hs) as [-> ->]. now apply Hne.
      * apply String.eqb_neq in Ec.
        rewrite (reverse_lookup c1 c2 H1 H2 Hle Ec).
        eexists. split; [reflexivity|]. intro v. split.
        -- intros [<-|[]]. exists a, c1, c2, ind. repeat split; auto.
           rewrite Hm. apply filter_ext_in. intros b Hb. now apply same_pair_grp.
        -- intros (a' & d1 & d2 & ind' & [= <-] & Hf & Hind' & Hne & _ & ->). left.
           destruct (lone_pair a d1 d2 c1 c2 Hf Hs) as [-> ->].
           rewrite Hind in Hind'. now injection Hind' as ->.
    + exists []. split; [reflexivity|]. intro v. split; [intros []|].
      intros (a' & _ & _ & ind' & [= <-] & _ & Hind' & _). congruence.
  - exists []. split; [reflexivity|]. intro v. split; [intros []|].
    intros (a0 & _ & _ & _ & [=] & _).
Qed.

Lemma check_symmetry_violations_flags :
  exists L, check_symmetry_violations st = Some L /\
  forall v, In v L <->
    exists a c1 c2 ind,
      filter (fun b => same_pair c1 c2 (heap st b)) (Py.values (all_memories st)) = [a] /\
      first_indicator asymmetric_indicators (Py.lower (fact_text (heap st a))) = Some ind /\
      c1 <> c2 /\
      v = mkSymmetryViolation (id (heap st a)) (rel_key_of c1 c2) c1 c2
            (fact_text (heap st a)) ind.
Proof.
  destruct (symmetry_scan_spec st (relationships st) group_flag (relationships st)
              symmetry_of_group_spec) as (L & HL & Hiff).
  exists L. split; [exact HL|]. intro v. rewrite Hiff. split.
  - intros (k & mems & _ & a & c1 & c2 & ind & _ & Hf & Hind & Hne & _ & Hv).
    exists a, c1, c2, ind. repeat split; auto.
  - intros (a & c1 & c2 & ind & Hf & Hind & Hne & Hv).
    assert (Ha : In a (filter (fun b => same_pair c1 c2 (heap st b)) (Py.values (all_memories st))))
      by (rewrite Hf; now left).
    apply filter_In in Ha as [Hin Hp]. apply same_pair_facts in Hp as [Hr Hs].
    destruct (pair_no_colon a c1 c2 Hin Hr Hs) as [H1 H2].
    exists (rel_key_of c1 c2), [a]. split.
    + apply (get_in String.eqb String_eqb_spec'). rewrite relationships_get.
      rewrite <- (filter_ext_in _ _ _ (fun b Hb => same_pair_grp c1 c2 b H1 H2 Hb)).
      now rewrite Hf.
    + exists a, c1, c2, ind. repeat split; auto.
Qed.

End Symmetry.

(** C6 (amended): when the subjects of relationship records contain no [":"],
    the symmetry scan raises nothing and flags exactly the records [a] that are
    the only active INTERCHARACTER two-subject record of their sorted pair
    [(c1, c2)], whose lowercased text contains an asymmetric term [ind], and
    whose two subjects differ. The reverse-key lookup never succeeds for two
    distinct subjects, since every key of [relationships] is built from the
    sorted pair; so no other record, in either order, suppresses the flag. *)
Theorem check_symmetry_violations_spec st
  (no_colon : forall a, In a (Py.values (all_memories st)) ->
     is_relationship_memory (heap st a) = true ->
     forall c, In c (subjects (heap st a)) -> has_colon c = false) :
  (exists L, check_symmetry_violations st = Some L /\
   forall v, In v L <->
     exists a c1 c2 ind,
       filter (fun b => same_pair c1 c2 (heap st b)) (Py.values (all_memories st)) = [a] /\
       first_indicator asymmetric_indicators (Py.lower (fact_text (heap st a))) = Some ind /\
       c1 <> c2 /\
       v = mkSymmetryViolation (id (heap st a)) (rel_key_of c1 c2) c1 c2
             (fact_text (heap st a)) ind) /\
  (forall a c1 c2, In a (Py.values (all_memories st)) ->
     is_relationship_memory (heap st a) = true ->
     Py.sorted (subjects (heap st a)) = [c1; c2] -> c1 <> c2 ->
     Py.get String.eqb (rel_key_of c2 c1) (relationships st) = None).
Proof.
  split; [exact (check_symmetry_violations_flags st no_colon)|].
  intros a c1 c2 Hin Hr Hs Hne.
  destruct (pair_no_colon st no_colon a c1 c2 Hin Hr Hs) as [H1 H2].
  exact (reverse_lookup st no_colon c1 c2 H1 H2 (sorted_pair_leb _ _ _ Hs) Hne).
Qed.

Lemma demo_store2_no_colon : forall a, In a (Py.values (all_memories demo_store2)) ->
  is_relationship_memory (heap demo_store2 a) = true ->
  forall c, In c (subjects (heap demo_store2 a)) -> has_colon c = false.
Proof.
  intros a Ha _ c Hc. vm_compute in Ha.
  destruct Ha as [<-|[<-|[]]]; vm_compute in Hc;
    repeat (destruct Hc as [<-|Hc]; [reflexivity|]); destruct Hc.
Qed.

Lemma check_symmetry_violations_spec_witness :
  (forall a, In a (Py.values (all_memories demo_store2)) ->
     is_relationship_memory (heap demo_store2 a) = true ->
     forall c, In c (subjects (heap demo_store2 a)) -> has_colon c = false) /\
  check_symmetry_violations demo_store2 <> None.
Proof.
  split; [exact demo_store2_no_colon|].
  destruct (proj1 (check_symmetry_violations_spec demo_store2 demo_store2_no_colon))
    as (L & HL & _).
  rewrite HL. discriminate.
Defined.

(** C6 (counterexample): in [demo_store2] the chapter-1 record
    "sylvain trusts annette" exists, superseded, and the chapter-3 record
    "annette trusts sylvain" is the only active record of the pair; the scan
    still flags the chapter-3 record, although a record exists for the
    reverse pair. *)
Lemma check_symmetry_violations_reverse_record :
  In 0%nat (Py.values (all_memories demo_store2)) /\
  fact_text (heap demo_store2 0%nat) = "sylvain trusts annette"%string /\
  is_active (heap demo_store2 0%nat) = false /\
  In 1%nat (Py.values (all_memories demo_store2)) /\
  fact_text (heap demo_store2 1%nat) = "annette trusts sylvain"%string /\
  check_symmetry_violations demo_store2 =
    Some [mkSymmetryViolation (id (heap demo_store2 1%nat)) "annette::sylvain" "annette" "sylvain"
            "annette trusts sylvain" "trusts"]%string.
Proof. vm_compute. repeat split; auto. Qed.


(** * Further properties: indexes, persistence, queries and checks *)

(** ** Dictionary and list helpers *)

Section DictMore.
Context {K V : Type} (eqk : K -> K -> bool) (eqk_spec : forall x y, eqk x y = true <-> x = y).

Lemma get_none_set_in_place (k : K) (v : V) d :
  Py.get eqk k d = None -> Py.set_in_place eqk k v d = None.
Proof.
  induction d as [|[k0 v0] t IH]; cbn; [reflexivity|].
  destruct (eqk k k0); [discriminate|]. intro H. now rewrite (IH H).
Qed.

Lemma setitem_new (k : K) (v : V) d :
  Py.get eqk k d = None -> Py.setitem eqk k v d = d ++ [(k, v)].
Proof. intro H. unfold Py.setitem. now rewrite get_none_set_in_place. Qed.

Lemma keys_setitem (k : K) (v : V) d :
  map fst (Py.setitem eqk k v d) =
  match Py.get eqk k d with Some _ => map fst d | None => map fst d ++ [k] end.
Proof.
  destruct (Py.get eqk k d) eqn:Hg.
  - unfold Py.setitem. destruct (Py.set_in_place eqk k v d) as [d'|] eqn:Hs.
    + exact (set_in_place_keys eqk k v d d' Hs).
    + apply (set_in_place_none_get eqk) in Hs. congruence.
  - rewrite setitem_new by exact Hg. now rewrite map_app.
Qed.

Lemma in_keys_get (k : K) (d : list (K * V)) : In k (map fst d) -> exists v, Py.get eqk k d = Some v.
Proof.
  induction d as [|[k0 v0] t IH]; cbn; [tauto|].
  destruct (eqk k k0) eqn:E; [eauto|]. intros [->|H]; [|auto].
  rewrite (proj2 (eqk_spec k k) eq_refl) in E. discriminate.
Qed.

Lemma notin_keys_get (k : K) (d : list (K * V)) : ~ In k (map fst d) -> Py.get eqk k d = None.
Proof.
  intro H. destruct (Py.get eqk k d) eqn:Hg; [|reflexivity].
  exfalso. apply H. apply (get_in eqk eqk_spec) in Hg. apply in_map_iff. now exists (k, v).
Qed.

(** Two dictionaries with the same keys in the same order and the same
    lookups are equal. *)
Lemma dict_ext (d1 d2 : list (K * V)) :
  map fst d1 = map fst d2 -> NoDup (map fst d1) ->
  (forall k, Py.get eqk k d1 = Py.get eqk k d2) -> d1 = d2.
Proof.
  revert d2. induction d1 as [|[k1 v1] t1 IH]; intros [|[k2 v2] t2] Hk Hn Hg;
    cbn in Hk; try discriminate; [reflexivity|].
  injection Hk as <- Hk. inversion Hn as [|? ? Hnot Hn']; subst.
  pose proof (Hg k1) as E. cbn in E. rewrite (proj2 (eqk_spec k1 k1) eq_refl) in E.
  injection E as <-. f_equal. apply IH; auto.
  intro k. specialize (Hg k). cbn in Hg. destruct (eqk k k1) eqn:Ek; [|exact Hg].
  apply eqk_spec in Ek. subst k.
  rewrite (notin_keys_get k1 t1 Hnot). rewrite Hk in Hnot.
  now rewrite (notin_keys_get k1 t2 Hnot).
Qed.

End DictMore.

Lemma opt_default {A} (l : list A) :
  match opt l with Some l' => l' | None => [] end = l.
Proof. now destruct l. Qed.

(** Keys in order of first occurrence, as a [dict] gets them. *)
Definition first_keys (l : list Z) : list Z :=
  fold_left (fun acc x => if existsb (Z.eqb x) acc then acc else acc ++ [x]) l [].

Lemma first_keys_snoc l x :
  first_keys (l ++ [x]) =
  if existsb (Z.eqb x) (first_keys l) then first_keys l else first_keys l ++ [x].
Proof. unfold first_keys. now rewrite fold_left_app. Qed.

Lemma in_first_keys l x : In x (first_keys l) <-> In x l.
Proof.
  induction l as [|y l IH] using rev_ind; [cbn; tauto|].
  rewrite first_keys_snoc, in_app_iff. cbn.
  destruct (existsb (Z.eqb y) (first_keys l)) eqn:E.
  - apply existsb_exists in E as (z & Hz & Ez). apply Z.eqb_eq in Ez. subst z.
    rewrite IH. split; [tauto|]. intros [H|[<-|[]]]; [exact H|]. now apply IH.
  - rewrite in_app_iff, IH. cbn. tauto.
Qed.

Lemma first_keys_nodup l : NoDup (first_keys l).
Proof.
  induction l as [|y l IH] using rev_ind; [constructor|].
  rewrite first_keys_snoc. destruct (existsb (Z.eqb y) (first_keys l)) eqn:E; [exact IH|].
  apply NoDup_app; [exact IH|repeat constructor; auto|].
  intros z Hz [Ez|[]]. subst z. assert (existsb (Z.eqb y) (first_keys l) = true); [|congruence].
  apply existsb_exists. exists y. split; [exact Hz|apply Z.eqb_refl].
Qed.

(** [seq 0 n] lists the addresses below [n]. *)
Lemma map_seq_ext {A} (f g : addr -> A) n :
  (forall a, (a < n)%nat -> f a = g a) -> map f (seq 0 n) = map g (seq 0 n).
Proof. intro H. apply map_ext_in. intros a Ha. apply in_seq in Ha. apply H. lia. Qed.

Lemma filter_seq_ext (f g : addr -> bool) n :
  (forall a, (a < n)%nat -> f a = g a) -> filter f (seq 0 n) = filter g (seq 0 n).
Proof. intro H. apply filter_ext_in. intros a Ha. apply in_seq in Ha. apply H. lia. Qed.

(** ** The shape of the two indexes

    A store is well-shaped when [all_memories] lists every allocated object
    under its own id, in allocation order, the ids being distinct, and
    [chapter_memories] lists, under each chapter, the objects whose
    [chapter_start] it is, in allocation order, the chapters in order of first
    use. *)

Definition by_chapter (st : Store) (ch : Z) : list addr :=
  filter (fun a => Z.eqb (chapter_start (heap st a)) ch) (seq 0 (next_addr st)).

Definition starts (st : Store) : list Z :=
  map (fun a => chapter_start (heap st a)) (seq 0 (next_addr st)).

Record Shape (st : Store) : Prop := {
  sh_am : all_memories st = map (fun a => (id (heap st a), a)) (seq 0 (next_addr st));
  sh_ids : forall a b, (a < next_addr st)%nat -> (b < next_addr st)%nat ->
             id (heap st a) = id (heap st b) -> a = b;
  sh_cm : forall ch, Py.get Z.eqb ch (chapter_memories st) = opt (by_chapter st ch);
  sh_cm_keys : map fst (chapter_memories st) = first_keys (starts st)
}.

Lemma by_chapter_nonempty st ch : by_chapter st ch <> [] <-> In ch (starts st).
Proof.
  unfold by_chapter, starts. rewrite in_map_iff. split.
  - intro H. destruct (filter _ _) as [|a t] eqn:Hf; [contradiction|].
    assert (Ha : In a (filter (fun a => Z.eqb (chapter_start (heap st a)) ch) (seq 0 (next_addr st))))
      by (rewrite Hf; now left).
    apply filter_In in Ha as [Ha E]. apply Z.eqb_eq in E. now exists a.
  - intros (a & E & Ha) Hf.
    assert (In a (filter (fun a => Z.eqb (chapter_start (heap st a)) ch) (seq 0 (next_addr st))))
      as Hin by (apply filter_In; split; [exact Ha|now apply Z.eqb_eq]).
    rewrite Hf in Hin. destruct Hin.
Qed.

Lemma values_shape st : Shape st -> Py.values (all_memories st) = seq 0 (next_addr st).
Proof.
  intro Hs. unfold Py.values. rewrite (sh_am st Hs), map_map. cbn. apply map_id.
Qed.

Lemma Shape_get_am st i a : Shape st ->
  Py.get String.eqb i (all_memories st) = Some a <-> (a < next_addr st)%nat /\ id (heap st a) = i.
Proof.
  intro Hs. split.
  - intro H. apply (get_in String.eqb String_eqb_spec') in H.
    rewrite (sh_am st Hs) in H. apply in_map_iff in H as (b & [= <- <-] & Hb).
    apply in_seq in Hb. split; [lia|reflexivity].
  - intros [Ha <-]. apply (in_nodup_get String.eqb String_eqb_spec').
    + rewrite (sh_am st Hs), map_map. cbn.
      apply NoDup_map_inv with (f := fun a => a). rewrite map_map.
      apply (NoDup_map_NoDup_ForallPairs).
      * intros x y Hx Hy E. apply in_seq in Hx, Hy. apply (sh_ids st Hs); auto; lia.
      * apply seq_NoDup.
    + rewrite (sh_am st Hs). apply in_map_iff. exists a. split; [reflexivity|].
      apply in_seq. lia.
Qed.

Lemma Shape_extend st st' :
  Shape st ->
  next_addr st' = S (next_addr st) ->
  (forall b, (b < next_addr st)%nat ->
     id (heap st' b) = id (heap st b) /\ chapter_start (heap st' b) = chapter_start (heap st b)) ->
  (forall b, (b < next_addr st)%nat -> id (heap st b) <> id (heap st' (next_addr st))) ->
  all_memories st' =
    Py.setitem String.eqb (id (heap st' (next_addr st))) (next_addr st) (all_memories st) ->
  chapter_memories st' =
    Py.setitem Z.eqb (chapter_start (heap st' (next_addr st)))
      ((match Py.get Z.eqb (chapter_start (heap st' (next_addr st))) (chapter_memories st)
        with Some l => l | None => [] end) ++ [next_addr st]) (chapter_memories st) ->
  Shape st'.
Proof.
  intros Hs Hn Hold Hfresh Ham Hcm.
  set (n := next_addr st) in *. set (c := chapter_start (heap st' n)) in *.
  assert (Hstarts : starts st' = starts st ++ [c]).
  { unfold starts. rewrite Hn, seq_S, map_app. cbn. f_equal.
    apply map_seq_ext. intros b Hb. apply Hold. exact Hb. }
  assert (Hbc : forall ch, by_chapter st' ch =
            by_chapter st ch ++ (if Z.eqb c ch then [n] else [])).
  { intro ch. unfold by_chapter. rewrite Hn, seq_S, filter_app. cbn. f_equal.
    apply filter_seq_ext. intros b Hb. now rewrite (proj2 (Hold b Hb)). }
  constructor.
  - rewrite Ham, setitem_new.
    + rewrite (sh_am st Hs), Hn, seq_S, map_app. cbn. f_equal.
      apply map_seq_ext. intros b Hb. now rewrite (proj1 (Hold b Hb)).
    + destruct (Py.get String.eqb _ (all_memories st)) as [a|] eqn:Hg; [|reflexivity].
      exfalso. apply (Shape_get_am st _ a Hs) in Hg as [Ha Hid].
      exact (Hfresh a Ha Hid).
  - intros a b Ha Hb E. rewrite Hn in Ha, Hb.
    destruct (Nat.eq_dec a n) as [->|Han], (Nat.eq_dec b n) as [->|Hbn]; [reflexivity|..].
    + exfalso. rewrite (proj1 (Hold b ltac:(lia))) in E. exact (Hfresh b ltac:(lia) (eq_sym E)).
    + exfalso. rewrite (proj1 (Hold a ltac:(lia))) in E. exact (Hfresh a ltac:(lia) E).
    + rewrite (proj1 (Hold a ltac:(lia))), (proj1 (Hold b ltac:(lia))) in E.
      apply (sh_ids st Hs); auto; lia.
  - intro ch. rewrite Hcm, (get_setitem Z.eqb Z_eqb_spec'), Hbc.
    destruct (Z.eqb ch c) eqn:E.
    + apply Z.eqb_eq in E. subst ch. rewrite Z.eqb_refl, (sh_cm st Hs), opt_default.
      now destruct (by_chapter st c).
    + rewrite Z.eqb_sym, E, app_nil_r. apply (sh_cm st Hs).
  - rewrite Hcm, keys_setitem, Hstarts, first_keys_snoc, (sh_cm st Hs), <- (sh_cm_keys st Hs).
    destruct (existsb (Z.eqb c) (map fst (chapter_memories st))) eqn:E.
    + apply existsb_exists in E as (c' & Hc' & Ec). apply Z.eqb_eq in Ec. subst c'.
      rewrite (sh_cm_keys st Hs), in_first_keys, <- by_chapter_nonempty in Hc'.
      now destruct (by_chapter st c).
    + destruct (by_chapter st c) eqn:Hb; [reflexivity|].
      exfalso. assert (Hin : In c (map fst (chapter_memories st))).
      { rewrite (sh_cm_keys st Hs), in_first_keys, <- by_chapter_nonempty. now rewrite Hb. }
      assert (existsb (Z.eqb c) (map fst (chapter_memories st)) = true); [|congruence].
      apply existsb_exists. exists c. split; [exact Hin|apply Z.eqb_refl].
Qed.

Section ResolverShape.

Variable uuid4 : nat -> string.
Hypothesis uuid4_inj : forall k1 k2, uuid4 k1 = uuid4 k2 -> k1 = k2.

(** The resolver invariant: well-shaped, and every id was drawn earlier. *)
Record InvStore (st : Store) : Prop := {
  inv_shape : Shape st;
  inv_drawn : forall a, (a < next_addr st)%nat ->
    exists k, (k < uuid_ctr st)%nat /\ id (heap st a) = uuid4 k
}.

Lemma InvStore_empty : InvStore empty_store.
Proof.
  constructor; [constructor|]; cbn; try lia; reflexivity.
Qed.

Lemma InvStore_fresh st k a :
  InvStore st -> (uuid_ctr st <= k)%nat -> (a < next_addr st)%nat -> id (heap st a) <> uuid4 k.
Proof.
  intros Hi Hk Ha E. destruct (inv_drawn st Hi a Ha) as (k' & Hk' & E').
  rewrite E' in E. apply uuid4_inj in E. lia.
Qed.

Lemma InvStore_add_new st m chapter :
  InvStore st -> InvStore (fst (add_new_memory uuid4 st m chapter)).
Proof.
  intros Hi. pose proof (add_new_memory_result uuid4 st m chapter) as H.
  destruct (add_new_memory uuid4 st m chapter) as [st' na]. cbn [fst].
  destruct H as (-> & Hnext & Hctr & Hna & Hother & Hcm & Ham).
  constructor.
  - apply (Shape_extend st st' (inv_shape st Hi) Hnext).
    + intros b Hb. rewrite Hother by lia. auto.
    + intros b Hb. rewrite Hna. cbn. apply (InvStore_fresh st (uuid_ctr st) b Hi); [lia|exact Hb].
    + rewrite Ham, Hna. reflexivity.
    + rewrite Hcm, Hna. reflexivity.
  - intros a Ha. rewrite Hnext in Ha. rewrite Hctr.
    destruct (Nat.eq_dec a (next_addr st)) as [->|Hne].
    + exists (uuid_ctr st). rewrite Hna. split; [lia|reflexivity].
    + destruct (inv_drawn st Hi a ltac:(lia)) as (k & Hk & E).
      exists k. rewrite Hother by exact Hne. split; [lia|exact E].
Qed.

Lemma InvStore_update st ea m chapter reason :
  InvStore st -> (ea < next_addr st)%nat ->
  InvStore (fst (update_existing_memory uuid4 st ea m chapter reason)).
Proof.
  intros Hi Hea. pose proof (update_existing_memory_result uuid4 st ea m chapter reason Hea) as H.
  destruct (update_existing_memory uuid4 st ea m chapter reason) as [st' na]. cbn [fst].
  destruct H as (-> & Hnext & Hctr & He & Hna & Hother & Hcm & Ham).
  assert (Hold : forall b, (b < next_addr st)%nat -> heap st' b = heap st b \/ b = ea)
    by (intros b Hb; destruct (Nat.eq_dec b ea); [now right|left; apply Hother; lia]).
  constructor.
  - apply (Shape_extend st st' (inv_shape st Hi) Hnext).
    + intros b Hb. destruct (Nat.eq_dec b ea) as [->|Hne].
      * rewrite He. cbn. auto.
      * rewrite Hother by lia. auto.
    + intros b Hb. rewrite Hna. cbn.
      apply (InvStore_fresh st (S (uuid_ctr st)) b Hi); [lia|exact Hb].
    + rewrite Ham, Hna. reflexivity.
    + rewrite Hcm, Hna. reflexivity.
  - intros a Ha. rewrite Hnext in Ha. rewrite Hctr.
    destruct (Nat.eq_dec a (next_addr st)) as [->|Hne].
    + exists (S (uuid_ctr st)). rewrite Hna. split; [lia|reflexivity].
    + destruct (inv_drawn st Hi a ltac:(lia)) as (k & Hk & E).
      exists k. split; [lia|].
      destruct (Nat.eq_dec a ea) as [->|Hne'].
      * rewrite He. exact E.
      * rewrite Hother by lia. exact E.
Qed.

Lemma InvStore_smart st m chapter thr :
  InvStore st -> InvStore (fst (fst (smart_update_or_create uuid4 st m chapter thr))).
Proof.
  intro Hi.
  destruct (smart_update_or_create_cases uuid4 st m chapter thr) as [(ea & r & Hea & ->)| ->].
  - apply InvStore_update; [exact Hi|].
    apply candidate_props in Hea as [Hea _].
    rewrite (values_shape st (inv_shape st Hi)) in Hea. apply in_seq in Hea. lia.
  - now apply InvStore_add_new.
Qed.

Lemma InvStore_reachable P st : resolver_reachable uuid4 P st -> InvStore st.
Proof.
  induction 1; [exact InvStore_empty|]. now apply InvStore_smart.
Qed.

(** Every call adds exactly one object. *)
Lemma smart_next_addr st m chapter thr :
  InvStore st ->
  next_addr (fst (fst (smart_update_or_create uuid4 st m chapter thr))) = S (next_addr st).
Proof.
  intro Hi.
  destruct (smart_update_or_create_cases uuid4 st m chapter thr) as [(ea & r & Hea & ->)| ->].
  - apply candidate_props in Hea as [Hea _].
    rewrite (values_shape st (inv_shape st Hi)) in Hea. apply in_seq in Hea.
    pose proof (update_existing_memory_result uuid4 st ea m chapter r ltac:(lia)) as H.
    destruct (update_existing_memory uuid4 st ea m chapter r). cbn [fst].
    destruct H as (_ & Hn & _). exact Hn.
  - pose proof (add_new_memory_result uuid4 st m chapter) as H.
    destruct (add_new_memory uuid4 st m chapter). cbn [fst].
    destruct H as (_ & Hn & _). exact Hn.
Qed.

End ResolverShape.

(** ** Loading a file *)

Lemma load_memory_result st m :
  let st' := load_memory st m in
  next_addr st' = S (next_addr st) /\ heap st' (next_addr st) = m /\
  (forall b, b <> next_addr st -> heap st' b = heap st b) /\
  all_memories st' = Py.setitem String.eqb (id m) (next_addr st) (all_memories st) /\
  chapter_memories st' =
    Py.setitem Z.eqb (chapter_start m)
      ((match Py.get Z.eqb (chapter_start m) (chapter_memories st) with Some l => l | None => [] end)
         ++ [next_addr st]) (chapter_memories st).
Proof.
  cbn. repeat split.
  - apply heap_write_same.
  - intros b Hb. now apply heap_write_other.
Qed.

Lemma Shape_load_memory st m :
  Shape st -> (forall b, (b < next_addr st)%nat -> id (heap st b) <> id m) ->
  Shape (load_memory st m).
Proof.
  intros Hs Hf. destruct (load_memory_result st m) as (Hn & Hna & Hother & Ham & Hcm).
  apply (Shape_extend st _ Hs Hn).
  - intros b Hb. rewrite Hother by lia. auto.
  - rewrite Hna. exact Hf.
  - rewrite Hna. exact Ham.
  - rewrite Hna. exact Hcm.
Qed.

(** A file whose lines have distinct ids loads into a well-shaped store
    holding line [a] at address [a]. *)
Lemma load_memories_spec records :
  NoDup (map id records) ->
  Shape (load_memories records) /\
  next_addr (load_memories records) = List.length records /\
  forall a, (a < List.length records)%nat -> heap (load_memories records) a = nth a records dummy_unit.
Proof.
  induction records as [|m records IH] using rev_ind; intro Hnd.
  - split; [constructor|]; cbn; try lia; try reflexivity. split; [reflexivity|lia].
  - rewrite map_app in Hnd. cbn in Hnd.
    assert (Hnd' : NoDup (map id records)) by (eapply NoDup_app_remove_r; exact Hnd).
    assert (Hm : ~ In (id m) (map id records)).
    { apply NoDup_remove_2 in Hnd. now rewrite app_nil_r in Hnd. }
    destruct (IH Hnd') as (Hs & Hn & Hh).
    unfold load_memories. rewrite fold_left_app. cbn [fold_left]. fold (load_memories records).
    destruct (load_memory_result (load_memories records) m) as (Hn' & Hna & Hother & _ & _).
    rewrite length_app. cbn [List.length]. split; [|split].
    + apply Shape_load_memory; [exact Hs|]. intros b Hb E. apply Hm.
      rewrite Hn in Hb. rewrite Hh in E by exact Hb. rewrite <- E.
      apply in_map. apply nth_In. exact Hb.
    + rewrite Hn', Hn. lia.
    + intros a Ha. destruct (Nat.eq_dec a (List.length records)) as [->|Hne].
      * rewrite <- Hn at 1. rewrite Hna. rewrite app_nth2 by lia.
        now rewrite Nat.sub_diag.
      * rewrite Hother by lia. rewrite app_nth1 by lia. apply Hh. lia.
Qed.

Lemma map_nth_seq_self {A} (l : list A) d :
  map (fun a => nth a l d) (seq 0 (List.length l)) = l.
Proof.
  induction l as [|x l IH]; [reflexivity|]. cbn [List.length]. rewrite <- cons_seq. cbn.
  f_equal. rewrite <- seq_shift, map_map. cbn. exact IH.
Qed.

Lemma nth_map_seq {A} (f : addr -> A) n a d :
  (a < n)%nat -> nth a (map f (seq 0 n)) d = f a.
Proof.
  intro Ha. rewrite (nth_indep _ d (f 0%nat)) by (rewrite length_map, length_seq; exact Ha).
  rewrite map_nth, seq_nth by exact Ha. reflexivity.
Qed.

Lemma stored_records_shape st :
  Shape st -> stored_records st = map (heap st) (seq 0 (next_addr st)).
Proof. intro Hs. unfold stored_records. now rewrite values_shape. Qed.

Lemma get_total_memories_shape st :
  Shape st -> get_total_memories st = Z.of_nat (next_addr st).
Proof.
  intro Hs. unfold get_total_memories. rewrite (sh_am st Hs), length_map, length_seq.
  reflexivity.
Qed.

Lemma cm_lists_below st ch l a :
  Shape st -> Py.get Z.eqb ch (chapter_memories st) = Some l -> In a l -> (a < next_addr st)%nat.
Proof.
  intros Hs Hg Ha. rewrite (sh_cm st Hs) in Hg. unfold opt, by_chapter in Hg.
  destruct (filter _ _) eqn:Hf; [discriminate|]. injection Hg as <-.
  rewrite <- Hf in Ha. apply filter_In in Ha as [Ha _]. apply in_seq in Ha. lia.
Qed.

(** Two well-shaped stores with the same objects below the same [next_addr]
    have the same indexes. *)
Lemma Shape_same_indexes st1 st2 :
  Shape st1 -> Shape st2 -> next_addr st1 = next_addr st2 ->
  (forall a, (a < next_addr st1)%nat -> heap st1 a = heap st2 a) ->
  all_memories st1 = all_memories st2 /\ chapter_memories st1 = chapter_memories st2.
Proof.
  intros H1 H2 Hn Hh. split.
  - rewrite (sh_am st1 H1), (sh_am st2 H2), <- Hn. apply map_seq_ext.
    intros a Ha. now rewrite Hh.
  - assert (Hst : starts st1 = starts st2).
    { unfold starts. rewrite <- Hn. apply map_seq_ext. intros a Ha. now rewrite Hh. }
    apply (dict_ext Z.eqb Z_eqb_spec').
    + now rewrite (sh_cm_keys st1 H1), (sh_cm_keys st2 H2), Hst.
    + rewrite (sh_cm_keys st1 H1). apply first_keys_nodup.
    + intro ch. rewrite (sh_cm st1 H1), (sh_cm st2 H2). f_equal.
      unfold by_chapter. rewrite <- Hn. apply filter_seq_ext. intros a Ha. now rewrite Hh.
Qed.

(** Loading records with distinct ids, [all_memories.values()] lists them
    in order. *)
Lemma stored_records_load_memories records :
  NoDup (map id records) -> stored_records (load_memories records) = records.
Proof.
  intro Hnd. destruct (load_memories_spec records Hnd) as (Hs & Hn & Hh).
  rewrite (stored_records_shape _ Hs), Hn.
  transitivity (map (fun a => nth a records dummy_unit) (seq 0 (List.length records))).
  - apply map_seq_ext. exact Hh.
  - apply map_nth_seq_self.
Qed.

(** The floats of a record that pydantic writes as numbers. *)
Definition finite_floats (m : MemoryUnit) : bool :=
  PrimFloat.is_finite m.(confidence) &&
  match m.(update_confidence) with Some f => PrimFloat.is_finite f | None => true end &&
  match m.(embedding) with Some xs => forallb PrimFloat.is_finite xs | None => true end.

(** The floats of a line that are numbers, not [null], and finite. *)
Definition line_finite (l : Line) : bool :=
  match l.(line_confidence) with Some c => PrimFloat.is_finite c | None => false end &&
  match l.(line_update_confidence) with Some f => PrimFloat.is_finite f | None => true end &&
  match l.(line_embedding) with
  | Some xs => forallb (fun o => match o with Some f => PrimFloat.is_finite f | None => false end) xs
  | None => true
  end.

Lemma json_number_finite f : PrimFloat.is_finite f = true -> json_number f = Some f.
Proof. intro H. unfold json_number. now rewrite H. Qed.

Lemma json_number_nonfinite f : PrimFloat.is_finite f = false -> json_number f = None.
Proof. intro H. unfold json_number. now rewrite H. Qed.

Lemma float_list_finite xs :
  forallb PrimFloat.is_finite xs = true -> float_list (map json_number xs) = Some xs.
Proof.
  induction xs as [|x xs IH]; [reflexivity|]. cbn [forallb map float_list].
  intro H. apply andb_prop in H as [H1 H2].
  rewrite (json_number_finite x H1), (IH H2). reflexivity.
Qed.

Lemma float_list_none xs :
  float_list (map json_number xs) = None <-> exists f, In f xs /\ PrimFloat.is_finite f = false.
Proof.
  induction xs as [|x xs IH]; cbn [map float_list].
  - split; [discriminate|]. intros (f & [] & _).
  - unfold json_number at 1. destruct (PrimFloat.is_finite x) eqn:Hx.
    + destruct (float_list (map json_number xs)) as [ys|] eqn:Hys; cbn.
      * split; [discriminate|]. intros (f & [<-|Hf] & Hnf); [congruence|].
        discriminate (proj2 IH (ex_intro _ f (conj Hf Hnf))).
      * split; [intros _|intros _; reflexivity]. destruct (proj1 IH eq_refl) as (f & Hf & Hnf).
        exists f. auto.
    + split; [intros _|intros _; reflexivity]. exists x. split; [now left|exact Hx].
Qed.

Lemma reload_dumped m :
  memory_unit_of_line (model_dump_json m) =
  if PrimFloat.is_finite m.(confidence) then
    match m.(embedding) with
    | None => Some (set_update_confidence m
                (match m.(update_confidence) with Some f => json_number f | None => None end))
    | Some xs =>
        match float_list (map json_number xs) with
        | Some ys => Some (set_update_confidence (set_embedding m (Some ys))
                (match m.(update_confidence) with Some f => json_number f | None => None end))
        | None => None
        end
    end
  else None.
Proof.
  destruct m. unfold memory_unit_of_line, model_dump_json. cbn [confidence embedding].
  unfold json_number at 1. destruct (PrimFloat.is_finite confidence0); [|reflexivity].
  destruct embedding0 as [xs|]; cbn; [|reflexivity].
  destruct (float_list (map json_number xs)); reflexivity.
Qed.

Lemma memory_unit_of_line_dump m :
  finite_floats m = true -> memory_unit_of_line (model_dump_json m) = Some m.
Proof.
  unfold finite_floats. intro H. apply andb_prop in H as [H H3]. apply andb_prop in H as [H1 H2].
  rewrite reload_dumped, H1.
  assert (Hu : (match update_confidence m with Some f => json_number f | None => None end) =
               update_confidence m).
  { destruct (update_confidence m) as [f|]; [exact (json_number_finite f H2)|reflexivity]. }
  rewrite Hu. destruct m; cbn in *.
  destruct embedding0 as [xs|]; [rewrite (float_list_finite xs H3)|]; reflexivity.
Qed.

Lemma units_of_lines_dump ms :
  Forall (fun m => finite_floats m = true) ms ->
  memory_units_of_lines (map model_dump_json ms) = Some ms.
Proof.
  induction 1 as [|m ms Hm _ IH]; [reflexivity|].
  cbn [map memory_units_of_lines]. rewrite (memory_unit_of_line_dump m Hm), IH. reflexivity.
Qed.

Lemma units_of_lines_none ls l :
  In l ls -> memory_unit_of_line l = None -> memory_units_of_lines ls = None.
Proof.
  induction ls as [|l' ls IH]; [intros []|]. intros [<-|Hl] Hn; cbn [memory_units_of_lines].
  - now rewrite Hn.
  - destruct (memory_unit_of_line l'); [|reflexivity]. now rewrite (IH Hl Hn).
Qed.

Lemma dumped_none m :
  memory_unit_of_line (model_dump_json m) = None <->
  PrimFloat.is_finite (confidence m) = false \/
  exists xs f, embedding m = Some xs /\ In f xs /\ PrimFloat.is_finite f = false.
Proof.
  rewrite reload_dumped. destruct (PrimFloat.is_finite (confidence m)) eqn:Hc.
  - destruct (embedding m) as [xs|] eqn:He.
    + destruct (float_list (map json_number xs)) as [ys|] eqn:Hys; split.
      * discriminate.
      * intros [H|(xs' & f & [= <-] & Hf & Hnf)]; [discriminate|].
        assert (Hn : float_list (map json_number xs) = None)
          by (apply float_list_none; eauto). congruence.
      * intros _. right. apply float_list_none in Hys as (f & Hf & Hnf). eauto.
      * reflexivity.
    + split; [discriminate|]. intros [H|(xs & f & Hxs & _)]; discriminate.
  - split; [auto|reflexivity].
Qed.

Lemma line_finite_reload l :
  line_finite l = true ->
  exists m, memory_unit_of_line l = Some m /\ model_dump_json m = l /\ id m = line_id l.
Proof.
  destruct l as [i mt sj pr ob ft cs ce vi [c|] ia pv ve sp sb ur uc em at']; unfold line_finite; cbn;
    [|discriminate].
  intro H. apply andb_prop in H as [H H3]. apply andb_prop in H as [H1 H2].
  assert (Huc : match uc with Some f => json_number f | None => None end = uc).
  { destruct uc as [f|]; [exact (json_number_finite f H2)|reflexivity]. }
  destruct em as [xs|].
  - assert (Hxs : exists ys, float_list xs = Some ys /\ map json_number ys = xs).
    { clear -H3. induction xs as [|[f|] xs IH]; cbn in *.
      - exists []. auto.
      - apply andb_prop in H3 as [Hf Ht]. destruct (IH Ht) as (ys & -> & Hm).
        exists (f :: ys). cbn. rewrite (json_number_finite f Hf), Hm. auto.
      - discriminate. }
    destruct Hxs as (ys & Hys & Hm). rewrite Hys. cbn.
    eexists. split; [reflexivity|]. unfold model_dump_json. cbn.
    rewrite (json_number_finite c H1), Huc, Hm. auto.
  - cbn. eexists. split; [reflexivity|]. unfold model_dump_json. cbn.
    rewrite (json_number_finite c H1), Huc. auto.
Qed.

Lemma lines_finite_reload ls :
  Forall (fun l => line_finite l = true) ls ->
  exists ms, memory_units_of_lines ls = Some ms /\ map model_dump_json ms = ls /\
             map id ms = map line_id ls.
Proof.
  induction 1 as [|l ls Hl _ (ms & Hms & Hd & Hi)]; [exists []; auto|].
  destruct (line_finite_reload l Hl) as (m & Hm & Hdm & Him).
  exists (m :: ms). cbn. rewrite Hm, Hms. cbn. rewrite Hdm, Hd, Him, Hi. auto.
Qed.

(** Round trip of a file: a file whose lines have distinct ids and whose
    floats are all finite numbers (no [null], [NaN] or [Infinity]) loads,
    and saving the store writes the same lines back, in the same order. *)
Theorem save_memories_load_memories lines :
  NoDup (map line_id lines) -> Forall (fun l => line_finite l = true) lines ->
  exists st, load_memories_lines lines = Some st /\ save_memories st = lines.
Proof.
  intros Hnd Hf. destruct (lines_finite_reload lines Hf) as (ms & Hms & Hd & Hi).
  exists (load_memories ms). split.
  - unfold load_memories_lines. rewrite Hms. reflexivity.
  - unfold save_memories. rewrite stored_records_load_memories; [exact Hd|]. now rewrite Hi.
Qed.

Lemma save_memories_load_memories_witness :
  NoDup (map line_id (map model_dump_json
    [demo_record "m1" None 1; demo_record "m2" (Some "m1"%string) 2])) /\
  Forall (fun l => line_finite l = true) (map model_dump_json
    [demo_record "m1" None 1; demo_record "m2" (Some "m1"%string) 2]) /\
  exists st, load_memories_lines (map model_dump_json
    [demo_record "m1" None 1; demo_record "m2" (Some "m1"%string) 2]) = Some st /\
  save_memories st = map model_dump_json
    [demo_record "m1" None 1; demo_record "m2" (Some "m1"%string) 2].
Proof.
  assert (H1 : NoDup (map line_id (map model_dump_json
    [demo_record "m1" None 1; demo_record "m2" (Some "m1"%string) 2]))).
  { cbn. constructor; [cbn; intros [E|[]]; discriminate|]. constructor; [intros []|constructor]. }
  assert (H2 : Forall (fun l => line_finite l = true) (map model_dump_json
    [demo_record "m1" None 1; demo_record "m2" (Some "m1"%string) 2])).
  { repeat constructor. }
  split; [exact H1|]. split; [exact H2|]. exact (save_memories_load_memories _ H1 H2).
Defined.

(** Round trip of a store: a store built by the resolver whose records hold
    only finite floats is saved, and the saved lines load again into a store
    with the same [all_memories] and [chapter_memories] and the same records,
    which saves the same lines and answers [get_memories_at_chapter] in the
    same way. *)
Theorem load_memories_save_memories (uuid4 : nat -> string)
  (uuid4_inj : forall k1 k2, uuid4 k1 = uuid4 k2 -> k1 = k2) st :
  resolver_reachable uuid4 any_call st ->
  Forall (fun m => finite_floats m = true) (stored_records st) ->
  exists st', load_memories_lines (save_memories st) = Some st' /\
  next_addr st' = next_addr st /\
  (forall a, (a < next_addr st)%nat -> heap st' a = heap st a) /\
  all_memories st' = all_memories st /\
  chapter_memories st' = chapter_memories st /\
  save_memories st' = save_memories st /\
  (forall c, map (heap st') (get_memories_at_chapter st' c) =
             map (heap st) (get_memories_at_chapter st c)).
Proof.
  intros Hr Hf. pose proof (inv_shape uuid4 st (InvStore_reachable uuid4 uuid4_inj _ st Hr)) as Hs.
  exists (load_memories (stored_records st)). set (st' := load_memories (stored_records st)).
  split; [unfold load_memories_lines, save_memories; rewrite units_of_lines_dump by exact Hf; reflexivity|].
  assert (Hnd : NoDup (map id (stored_records st))).
  { rewrite (stored_records_shape st Hs), map_map.
    apply (NoDup_map_NoDup_ForallPairs); [|apply seq_NoDup].
    intros x y Hx Hy E. apply in_seq in Hx, Hy. apply (sh_ids st Hs); auto; lia. }
  destruct (load_memories_spec _ Hnd) as (Hs' & Hn & Hh).
  fold st' in Hs', Hn, Hh.
  rewrite (stored_records_shape st Hs), length_map, length_seq in Hn.
  assert (Hh' : forall a, (a < next_addr st)%nat -> heap st' a = heap st a).
  { intros a Ha. rewrite Hh by (rewrite (stored_records_shape st Hs), length_map, length_seq; exact Ha).
    rewrite (stored_records_shape st Hs). apply nth_map_seq. exact Ha. }
  destruct (Shape_same_indexes st' st Hs' Hs Hn ltac:(intros a Ha; apply Hh'; lia)) as [Ham Hcm].
  split; [exact Hn|]. split; [exact Hh'|]. split; [exact Ham|]. split; [exact Hcm|].
  split.
  - unfold save_memories, stored_records. rewrite Ham. rewrite (values_shape st Hs).
    f_equal. apply map_seq_ext. exact Hh'.
  - intro c. unfold get_memories_at_chapter. rewrite Hcm, !flat_map_concat_map, !concat_map, !map_map.
    f_equal. apply map_ext. intro ch.
    destruct (Py.get Z.eqb ch (chapter_memories st)) as [l|] eqn:Hg; [|reflexivity].
    assert (Hl : forall a, In a l -> heap st' a = heap st a)
      by (intros a Ha; apply Hh'; exact (cm_lists_below st ch l a Hs Hg Ha)).
    rewrite (filter_ext_in (fun a => visible_at c (heap st' a)) (fun a => visible_at c (heap st a)))
      by (intros a Ha; now rewrite Hl).
    apply map_ext_in. intros a Ha. apply Hl. apply filter_In in Ha. tauto.
Qed.

Lemma load_memories_save_memories_witness :
  (forall k1 k2, demo_uuid k1 = demo_uuid k2 -> k1 = k2) /\
  resolver_reachable demo_uuid any_call demo_store2 /\
  Forall (fun m => finite_floats m = true) (stored_records demo_store2) /\
  exists st', load_memories_lines (save_memories demo_store2) = Some st' /\
  chapter_memories st' = chapter_memories demo_store2.
Proof.
  assert (Hr : resolver_reachable demo_uuid any_call demo_store2).
  { apply reach_step; [|exact I]. apply reach_step; [|exact I]. apply reach_empty. }
  assert (Hf : Forall (fun m => finite_floats m = true) (stored_records demo_store2)).
  { vm_compute. repeat constructor. }
  split; [exact demo_uuid_inj|]. split; [exact Hr|]. split; [exact Hf|].
  destruct (load_memories_save_memories demo_uuid demo_uuid_inj _ Hr Hf)
    as (st' & Hl & _ & _ & _ & Hcm & _).
  exists st'. split; [exact Hl|exact Hcm].
Defined.

(** A record whose [confidence] is NaN or an infinity, or whose [embedding]
    holds one, is written with [null] in its place; the saved file then no
    longer loads: [MemoryUnit( **memory_data)] raises on that line. *)
Theorem save_memories_nonfinite st m :
  In m (stored_records st) ->
  PrimFloat.is_finite (confidence m) = false \/
  (exists xs f, embedding m = Some xs /\ In f xs /\ PrimFloat.is_finite f = false) ->
  load_memories_lines (save_memories st) = None.
Proof.
  intros Hm Hnf. unfold load_memories_lines, save_memories.
  rewrite (units_of_lines_none _ (model_dump_json m)); [reflexivity| |].
  - now apply in_map.
  - now apply dumped_none.
Qed.

(** The store after one candidate whose [confidence] is NaN. *)
Definition demo_store_nan : Store :=
  fst (fst (smart_update_or_create demo_uuid empty_store
    (demo_trust "sylvain trusts annette" ["sylvain"; "annette"]%string PrimFloat.nan 1)
    1 default_threshold)).

Lemma save_memories_nonfinite_witness :
  In (heap demo_store_nan 0%nat) (stored_records demo_store_nan) /\
  PrimFloat.is_finite (confidence (heap demo_store_nan 0%nat)) = false /\
  load_memories_lines (save_memories demo_store_nan) = None.
Proof.
  assert (H1 : In (heap demo_store_nan 0%nat) (stored_records demo_store_nan))
    by (left; reflexivity).
  assert (H2 : PrimFloat.is_finite (confidence (heap demo_store_nan 0%nat)) = false)
    by (vm_compute; reflexivity).
  split; [exact H1|]. split; [exact H2|].
  exact (save_memories_nonfinite demo_store_nan _ H1 (or_introl H2)).
Defined.

(** Writing a record and reading its line back: this fails exactly when
    [confidence] or an element of [embedding] is NaN or an infinity; when it
    succeeds, an [update_confidence] that is NaN or an infinity comes back as
    [None], and every other field is read back unchanged. *)
Theorem model_dump_json_reload m :
  (memory_unit_of_line (model_dump_json m) = None <->
     PrimFloat.is_finite (confidence m) = false \/
     exists xs f, embedding m = Some xs /\ In f xs /\ PrimFloat.is_finite f = false) /\
  (forall m', memory_unit_of_line (model_dump_json m) = Some m' ->
     set_update_confidence m' None = set_update_confidence m None /\
     (forall f, update_confidence m' = Some f <->
                update_confidence m = Some f /\ PrimFloat.is_finite f = true)).
Proof.
  split; [apply dumped_none|]. intros m' Hm'. rewrite reload_dumped in Hm'.
  assert (Huc : forall f, (match update_confidence m with Some g => json_number g | None => None end) = Some f <->
                update_confidence m = Some f /\ PrimFloat.is_finite f = true).
  { intro f. destruct (update_confidence m) as [g|]; [|split; [discriminate|intros [? _]; discriminate]].
    unfold json_number. destruct (PrimFloat.is_finite g) eqn:Hg; split.
    - intros [= <-]. auto.
    - intros [[= <-] _]. reflexivity.
    - discriminate.
    - intros [[= <-] E]. congruence. }
  destruct (PrimFloat.is_finite (confidence m)); [|discriminate].
  destruct (embedding m) as [xs|] eqn:He.
  - destruct (float_list (map json_number xs)) as [ys|] eqn:Hys; [|discriminate].
    injection Hm' as <-. split; [|exact Huc].
    assert (Hys' : ys = xs).
    { clear -Hys. revert ys Hys. induction xs as [|x xs IH]; intros ys Hys; cbn in Hys.
      - now injection Hys as <-.
      - unfold json_number at 1 in Hys. destruct (PrimFloat.is_finite x); [|discriminate].
        destruct (float_list (map json_number xs)) as [zs|]; [|discriminate].
        injection Hys as <-. f_equal. now apply IH. }
    subst ys. destruct m; cbn in *. now rewrite He.
  - injection Hm' as <-. split; [|exact Huc]. destruct m; reflexivity.
Qed.

(** A record whose [update_confidence] is an infinity. *)
Definition demo_inf_update : MemoryUnit :=
  set_update_confidence (demo_record "m1" None 1) (Some PrimFloat.infinity).

Lemma model_dump_json_reload_witness :
  memory_unit_of_line (model_dump_json demo_inf_update) = Some (demo_record "m1" None 1) /\
  set_update_confidence (demo_record "m1" None 1) None = set_update_confidence demo_inf_update None /\
  (forall f, update_confidence (demo_record "m1" None 1) = Some f <->
             update_confidence demo_inf_update = Some f /\ PrimFloat.is_finite f = true).
Proof.
  assert (H : memory_unit_of_line (model_dump_json demo_inf_update) = Some (demo_record "m1" None 1))
    by (vm_compute; reflexivity).
  exact (conj H (proj2 (model_dump_json_reload demo_inf_update) _ H)).
Defined.

Lemma smart_total_step (uuid4 : nat -> string)
  (uuid4_inj : forall k1 k2, uuid4 k1 = uuid4 k2 -> k1 = k2) P st memory chapter thr :
  resolver_reachable uuid4 P st ->
  get_total_memories (fst (fst (smart_update_or_create uuid4 st memory chapter thr))) =
  get_total_memories st + 1.
Proof.
  intro Hr. pose proof (InvStore_reachable uuid4 uuid4_inj _ st Hr) as Hi.
  pose proof (InvStore_smart uuid4 uuid4_inj st memory chapter thr Hi) as Hi'.
  rewrite (get_total_memories_shape _ (inv_shape _ _ Hi')),
          (get_total_memories_shape _ (inv_shape _ _ Hi)),
          (smart_next_addr uuid4 st memory chapter thr Hi).
  lia.
Qed.

(** Each call of [smart_update_or_create] on a resolver-built store adds
    exactly one record: [get_total_memories] goes up by one, whether the call
    updates or creates. *)
Theorem smart_update_or_create_total (uuid4 : nat -> string)
  (uuid4_inj : forall k1 k2, uuid4 k1 = uuid4 k2 -> k1 = k2) st memory chapter thr :
  resolver_reachable uuid4 any_call st ->
  get_total_memories (fst (fst (smart_update_or_create uuid4 st memory chapter thr))) =
  get_total_memories st + 1.
Proof. exact (smart_total_step uuid4 uuid4_inj any_call st memory chapter thr). Qed.

Lemma smart_update_or_create_total_witness :
  (forall k1 k2, demo_uuid k1 = demo_uuid k2 -> k1 = k2) /\
  resolver_reachable demo_uuid any_call demo_store1 /\
  get_total_memories demo_store2 = get_total_memories demo_store1 + 1.
Proof.
  assert (Hr : resolver_reachable demo_uuid any_call demo_store1).
  { apply reach_step; [|exact I]. apply reach_empty. }
  split; [exact demo_uuid_inj|]. split; [exact Hr|].
  exact (smart_update_or_create_total demo_uuid demo_uuid_inj demo_store1 _ 3 default_threshold Hr).
Defined.

Section Processing.
Variable uuid4 : nat -> string.
Hypothesis uuid4_inj : forall k1 k2, uuid4 k1 = uuid4 k2 -> k1 = k2.
Variable P : MemoryUnit -> Z -> Prop.

Lemma process_chapter_memories_spec st ms c tn tu :
  resolver_reachable uuid4 P st -> Forall (fun m => P m c) ms ->
  let '(st', n, u) := process_chapter_memories uuid4 st ms c tn tu in
  resolver_reachable uuid4 P st' /\ n + u = tn + tu + Z.of_nat (List.length ms) /\
  get_total_memories st' = get_total_memories st + Z.of_nat (List.length ms).
Proof.
  revert st tn tu. induction ms as [|m ms IH]; intros st tn tu Hr Hf.
  - cbn. split; [exact Hr|]. lia.
  - inversion Hf as [|? ? Hm Hf']; subst. cbn [process_chapter_memories].
    pose proof (reach_step uuid4 P st m c default_threshold Hr Hm) as Hr1.
    pose proof (smart_total_step uuid4 uuid4_inj P st m c default_threshold Hr) as Ht.
    destruct (smart_update_or_create uuid4 st m c default_threshold) as [[st1 r] act] eqn:E.
    cbn in Hr1, Ht.
    destruct act.
    + specialize (IH st1 tn (tu + 1) Hr1 Hf').
      destruct (process_chapter_memories uuid4 st1 ms c tn (tu + 1)) as [[st' n] u].
      destruct IH as (H1 & H2 & H3). cbn [List.length]. split; [exact H1|]. lia.
    + specialize (IH st1 (tn + 1) tu Hr1 Hf').
      destruct (process_chapter_memories uuid4 st1 ms c (tn + 1) tu) as [[st' n] u].
      destruct IH as (H1 & H2 & H3). cbn [List.length]. split; [exact H1|]. lia.
Qed.

Lemma process_chapters_spec st chs tn tu :
  resolver_reachable uuid4 P st ->
  Forall (fun ch => Forall (fun m => P m (fst ch)) (snd ch)) chs ->
  let '(st', n, u) := process_chapters uuid4 st chs tn tu in
  resolver_reachable uuid4 P st' /\
  n + u = tn + tu + Z.of_nat (List.length (flat_map snd chs)) /\
  get_total_memories st' = get_total_memories st + Z.of_nat (List.length (flat_map snd chs)).
Proof.
  revert st tn tu. induction chs as [|[c ms] chs IH]; intros st tn tu Hr Hf.
  - cbn. split; [exact Hr|]. lia.
  - inversion Hf as [|? ? Hm Hf']; subst. cbn [process_chapters flat_map fst snd] in *.
    pose proof (process_chapter_memories_spec st ms c tn tu Hr Hm) as H.
    destruct (process_chapter_memories uuid4 st ms c tn tu) as [[st1 n1] u1].
    destruct H as (H1 & H2 & H3).
    specialize (IH st1 n1 u1 H1 Hf').
    destruct (process_chapters uuid4 st1 chs n1 u1) as [[st' n] u].
    destruct IH as (I1 & I2 & I3). rewrite length_app.
    split; [exact I1|]. lia.
Qed.

End Processing.

(** [process_chapters_sequentially] on a store built by the resolver: every
    extracted memory is counted once, as new or as updated; the reported
    total is the store's earlier total plus that count; [chapters_processed]
    counts every chapter, with or without memories; and the store it leaves
    is again one built by the resolver. *)
Theorem process_chapters_sequentially_counts (uuid4 : nat -> string)
  (uuid4_inj : forall k1 k2, uuid4 k1 = uuid4 k2 -> k1 = k2) chapters st :
  resolver_reachable uuid4 any_call st ->
  let '(st', r) := process_chapters_sequentially uuid4 chapters st in
  resolver_reachable uuid4 any_call st' /\
  chapters_processed r = Z.of_nat (List.length chapters) /\
  new_memories r + updated_memories r = Z.of_nat (List.length (flat_map snd chapters)) /\
  total_memories r = get_total_memories st + new_memories r + updated_memories r /\
  total_memories r = get_total_memories st'.
Proof.
  intro Hr. unfold process_chapters_sequentially.
  assert (Hf : Forall (fun ch => Forall (fun m => any_call m (fst ch)) (snd ch)) chapters).
  { apply Forall_forall. intros ch _. apply Forall_forall. intros m _. exact I. }
  pose proof (process_chapters_spec uuid4 uuid4_inj any_call st chapters 0 0 Hr Hf) as H.
  destruct (process_chapters uuid4 st chapters 0 0) as [[st' n] u].
  destruct H as (H1 & H2 & H3). cbn.
  split; [exact H1|]. split; [reflexivity|]. split; [lia|]. split; [lia|reflexivity].
Qed.

Definition demo_chapters : list (Z * list MemoryUnit) :=
  [(1, [demo_trust "sylvain trusts annette" ["sylvain"; "annette"]%string 0.9 1]);
   (2, []);
   (3, [demo_trust "annette trusts sylvain" ["annette"; "sylvain"]%string 1.0 3])].

Lemma process_chapters_sequentially_counts_witness :
  (forall k1 k2, demo_uuid k1 = demo_uuid k2 -> k1 = k2) /\
  resolver_reachable demo_uuid any_call empty_store /\
  (let '(st', r) := process_chapters_sequentially demo_uuid demo_chapters empty_store in
   resolver_reachable demo_uuid any_call st' /\
   chapters_processed r = Z.of_nat (List.length demo_chapters) /\
   new_memories r + updated_memories r = Z.of_nat (List.length (flat_map snd demo_chapters)) /\
   total_memories r = get_total_memories empty_store + new_memories r + updated_memories r /\
   total_memories r = get_total_memories st') /\
  chapters_processed (snd (process_chapters_sequentially demo_uuid demo_chapters empty_store)) = 3 /\
  updated_memories (snd (process_chapters_sequentially demo_uuid demo_chapters empty_store)) = 1.
Proof.
  split; [exact demo_uuid_inj|]. split; [apply reach_empty|].
  split; [exact (process_chapters_sequentially_counts demo_uuid demo_uuid_inj
                   demo_chapters empty_store (reach_empty _ _))|].
  split; vm_compute; reflexivity.
Defined.

(** ** Counting by chapter *)

Lemma filter_map_comm {A B} (p : B -> bool) (f : A -> B) l :
  filter p (map f l) = map f (filter (fun x => p (f x)) l).
Proof. induction l as [|x l IH]; cbn; [reflexivity|]. destruct (p (f x)); cbn; now rewrite IH. Qed.

Lemma sumZ_plus {A} (g h : A -> Z) K :
  fold_right Z.add 0 (map (fun k => g k + h k) K) =
  fold_right Z.add 0 (map g K) + fold_right Z.add 0 (map h K).
Proof. induction K as [|k K IH]; cbn; lia. Qed.

Lemma sumZ_indicator_out v K :
  ~ In v K -> fold_right Z.add 0 (map (fun k => if v =? k then 1 else 0) K) = 0.
Proof.
  induction K as [|k K IH]; cbn; [reflexivity|]. intro Hn.
  destruct (Z.eqb_spec v k); [subst; tauto|]. rewrite IH by tauto. reflexivity.
Qed.

Lemma sumZ_indicator_in v K :
  NoDup K -> In v K -> fold_right Z.add 0 (map (fun k => if v =? k then 1 else 0) K) = 1.
Proof.
  induction K as [|k K IH]; cbn; [tauto|]. intros Hd Hv. inversion Hd as [|? ? Hk HK]; subst.
  destruct (Z.eqb_spec v k).
  - subst. rewrite sumZ_indicator_out by exact Hk. reflexivity.
  - destruct Hv as [->|Hv]; [congruence|]. rewrite IH by assumption. reflexivity.
Qed.

(** Counting the elements of [l] by the key [f], over a duplicate-free list
    of keys that covers them, counts every element once. *)
Lemma sum_counts {A} (f : A -> Z) K l :
  NoDup K -> (forall x, In x l -> In (f x) K) ->
  fold_right Z.add 0 (map (fun k => Z.of_nat (List.length (filter (fun x => f x =? k) l))) K) =
  Z.of_nat (List.length l).
Proof.
  intro Hd. induction l as [|x l IH]; intro Hc.
  - cbn. clear Hd Hc. induction K; cbn in *; lia.
  - rewrite (map_ext _ (fun k => (if f x =? k then 1 else 0) +
                                 Z.of_nat (List.length (filter (fun x => f x =? k) l))))
      by (intro k; cbn; destruct (f x =? k); cbn [List.length]; lia).
    rewrite sumZ_plus, sumZ_indicator_in by (auto; apply Hc; now left).
    rewrite IH by (intros y Hy; apply Hc; now right). cbn [List.length]. lia.
Qed.

Lemma opt_some {A} (l v : list A) : opt l = Some v -> l = v /\ l <> [].
Proof. destruct l; cbn; [discriminate|]. intros [= <-]. split; [reflexivity|discriminate]. Qed.

Lemma Shape_cm_entry st p :
  Shape st -> In p (chapter_memories st) -> snd p = by_chapter st (fst p) /\ by_chapter st (fst p) <> [].
Proof.
  intros Hs Hp. destruct p as [ch l].
  assert (Hd : NoDup (map fst (chapter_memories st)))
    by (rewrite (sh_cm_keys st Hs); apply first_keys_nodup).
  pose proof (in_nodup_get Z.eqb Z_eqb_spec' ch l _ Hd Hp) as Hg.
  rewrite (sh_cm st Hs) in Hg. apply opt_some in Hg as [E Hne]. cbn. rewrite <- E. now split.
Qed.

Lemma by_chapter_count st ch :
  Shape st ->
  List.length (by_chapter st ch) =
  List.length (filter (fun m => chapter_start m =? ch) (stored_records st)).
Proof.
  intro Hs. rewrite (stored_records_shape st Hs), filter_map_comm, length_map. reflexivity.
Qed.

(** [get_chapter_summary] on a store built by the resolver: one entry per
    chapter that has records, no chapter twice; each entry counts exactly
    the stored records whose [chapter_start] is that chapter; and the counts
    add up to [get_total_memories]. *)
Theorem get_chapter_summary_counts (uuid4 : nat -> string)
  (uuid4_inj : forall k1 k2, uuid4 k1 = uuid4 k2 -> k1 = k2) st :
  resolver_reachable uuid4 any_call st ->
  NoDup (map fst (get_chapter_summary st)) /\
  (forall ch n, In (ch, n) (get_chapter_summary st) <->
     0 < n /\ n = Z.of_nat (List.length (filter (fun m => chapter_start m =? ch) (stored_records st)))) /\
  fold_right Z.add 0 (map snd (get_chapter_summary st)) = get_total_memories st.
Proof.
  intro Hr. pose proof (inv_shape uuid4 st (InvStore_reachable uuid4 uuid4_inj _ st Hr)) as Hs.
  assert (Hk : map fst (get_chapter_summary st) = first_keys (starts st)).
  { unfold get_chapter_summary. rewrite map_map. cbn. exact (sh_cm_keys st Hs). }
  split; [rewrite Hk; apply first_keys_nodup|]. split.
  - intros ch n. unfold get_chapter_summary. rewrite in_map_iff. split.
    + intros ([ch' l] & [= <- <-] & Hp).
      destruct (Shape_cm_entry st _ Hs Hp) as [E Hne]. cbn in E, Hne |- *. subst l.
      rewrite <- by_chapter_count by exact Hs.
      destruct (by_chapter st ch') eqn:Hb; [congruence|]. cbn [List.length]. lia.
    + intros [Hn ->]. rewrite <- by_chapter_count in Hn |- * by exact Hs.
      assert (Hne : by_chapter st ch <> []) by (intro Hb; rewrite Hb in Hn; cbn in Hn; lia).
      apply by_chapter_nonempty in Hne as Hin. rewrite <- in_first_keys, <- (sh_cm_keys st Hs) in Hin.
      apply in_map_iff in Hin as ([ch' l] & Ech & Hp). cbn in Ech. subst ch'.
      exists (ch, l). destruct (Shape_cm_entry st _ Hs Hp) as [E _]. cbn in E |- *.
      rewrite E in Hp |- *. split; [reflexivity|exact Hp].
  - unfold get_chapter_summary. rewrite map_map.
    rewrite (map_ext_in _ (fun p => Z.of_nat (List.length (by_chapter st (fst p)))))
      by (intros p Hp; cbn; now rewrite (proj1 (Shape_cm_entry st p Hs Hp))).
    rewrite <- (map_map fst (fun k => Z.of_nat (List.length (by_chapter st k)))), (sh_cm_keys st Hs).
    rewrite (get_total_memories_shape st Hs).
    unfold by_chapter. transitivity (Z.of_nat (List.length (seq 0 (next_addr st))));
      [|now rewrite length_seq].
    apply (sum_counts (fun a => chapter_start (heap st a))); [apply first_keys_nodup|].
    intros a Ha. apply in_first_keys. unfold starts. exact (in_map (fun a => chapter_start (heap st a)) _ _ Ha).
Qed.

Lemma get_chapter_summary_counts_witness :
  (forall k1 k2, demo_uuid k1 = demo_uuid k2 -> k1 = k2) /\
  resolver_reachable demo_uuid any_call demo_store2 /\
  fold_right Z.add 0 (map snd (get_chapter_summary demo_store2)) = get_total_memories demo_store2.
Proof.
  assert (Hr : resolver_reachable demo_uuid any_call demo_store2).
  { apply reach_step; [|exact I]. apply reach_step; [|exact I]. apply reach_empty. }
  split; [exact demo_uuid_inj|]. split; [exact Hr|].
  exact (proj2 (proj2 (get_chapter_summary_counts demo_uuid demo_uuid_inj _ Hr))).
Defined.

(** ** Sorting integers *)

Lemma insert_Z_perm x l : Permutation (insert_Z x l) (x :: l).
Proof.
  induction l as [|y t IH]; cbn; [reflexivity|]. destruct (x <=? y); [reflexivity|].
  rewrite IH. apply perm_swap.
Qed.

Lemma sort_Z_perm l : Permutation (sort_Z l) l.
Proof.
  induction l as [|x t IH]; cbn; [reflexivity|]. rewrite insert_Z_perm, IH. reflexivity.
Qed.

Lemma insert_Z_hd y x l : HdRel Z.le y l -> y <= x -> HdRel Z.le y (insert_Z x l).
Proof.
  intros H Hyx. destruct l as [|z t]; cbn; [now constructor|].
  destruct (x <=? z); constructor; [exact Hyx|]. now apply HdRel_inv in H.
Qed.

Lemma insert_Z_sorted x l : Sorted Z.le l -> Sorted Z.le (insert_Z x l).
Proof.
  induction l as [|y t IH]; cbn; intro Hs; [now repeat constructor|].
  apply Sorted_inv in Hs as [Ht Hh]. destruct (Z.leb_spec x y).
  - constructor; [constructor; assumption|now constructor].
  - constructor; [now apply IH|]. apply insert_Z_hd; [exact Hh|lia].
Qed.

Lemma sort_Z_sorted l : Sorted Z.le (sort_Z l).
Proof. induction l as [|x t IH]; cbn; [constructor|]. now apply insert_Z_sorted. Qed.

Lemma sorted_le_nodup_lt l : Sorted Z.le l -> NoDup l -> Sorted Z.lt l.
Proof.
  induction l as [|x t IH]; intros Hs Hd; [constructor|].
  apply Sorted_inv in Hs as [Ht Hh]. inversion Hd as [|? ? Hx Hdt]; subst.
  constructor; [now apply IH|]. destruct t as [|y t']; constructor.
  apply HdRel_inv in Hh. assert (x <> y) by (intro E; subst; apply Hx; now left). lia.
Qed.

(** [get_chapters_with_memories] on a store built by the resolver lists, in
    strictly increasing order, exactly the chapters in which some saved
    record starts. *)
Theorem get_chapters_with_memories_spec (uuid4 : nat -> string)
  (uuid4_inj : forall k1 k2, uuid4 k1 = uuid4 k2 -> k1 = k2) st :
  resolver_reachable uuid4 any_call st ->
  Sorted Z.lt (get_chapters_with_memories st) /\
  (forall ch, In ch (get_chapters_with_memories st) <->
              exists m, In m (stored_records st) /\ chapter_start m = ch).
Proof.
  intro Hr. pose proof (inv_shape uuid4 st (InvStore_reachable uuid4 uuid4_inj _ st Hr)) as Hs.
  unfold get_chapters_with_memories. rewrite (sh_cm_keys st Hs).
  split.
  - apply sorted_le_nodup_lt; [apply sort_Z_sorted|].
    apply (Permutation_NoDup (Permutation_sym (sort_Z_perm _))). apply first_keys_nodup.
  - intro ch. split.
    + intro H. apply (Permutation_in _ (sort_Z_perm _)) in H. rewrite in_first_keys in H.
      unfold starts in H. apply in_map_iff in H as (a & E & Ha).
      exists (heap st a). split; [|exact E].
      rewrite (stored_records_shape st Hs). now apply in_map.
    + intros (m & Hm & E). rewrite (stored_records_shape st Hs) in Hm.
      apply in_map_iff in Hm as (a & <- & Ha).
      apply (Permutation_in _ (Permutation_sym (sort_Z_perm _))). rewrite in_first_keys.
      unfold starts. rewrite <- E. exact (in_map (fun a => chapter_start (heap st a)) _ _ Ha).
Qed.

Lemma get_chapters_with_memories_spec_witness :
  (forall k1 k2, demo_uuid k1 = demo_uuid k2 -> k1 = k2) /\
  resolver_reachable demo_uuid any_call demo_store_late /\
  Sorted Z.lt (get_chapters_with_memories demo_store_late).
Proof.
  assert (Hr : resolver_reachable demo_uuid any_call demo_store_late).
  { apply reach_step; [|exact I]. apply reach_step; [|exact I]. apply reach_empty. }
  split; [exact demo_uuid_inj|]. split; [exact Hr|].
  exact (proj1 (get_chapters_with_memories_spec demo_uuid demo_uuid_inj _ Hr)).
Defined.

(** ** The timeline sort *)

Definition le_start (m1 m2 : MemoryUnit) : Prop := chapter_start m1 <= chapter_start m2.

Lemma insert_by_start_perm m l : Permutation (insert_by_start m l) (m :: l).
Proof.
  induction l as [|y t IH]; cbn; [reflexivity|].
  destruct (chapter_start m <? chapter_start y); [reflexivity|]. rewrite IH. apply perm_swap.
Qed.

Lemma insert_by_start_sorted m l :
  StronglySorted le_start l -> StronglySorted le_start (insert_by_start m l).
Proof.
  induction l as [|y t IH]; cbn; intro Hs; [now repeat constructor|].
  apply StronglySorted_inv in Hs as [Ht Hy]. unfold le_start in *.
  destruct (Z.ltb_spec (chapter_start m) (chapter_start y)).
  - constructor; [now constructor|]. constructor; [lia|].
    eapply Forall_impl; [|exact Hy]. cbn. intros. lia.
  - constructor; [now apply IH|]. apply Forall_forall. intros z Hz.
    apply (Permutation_in _ (insert_by_start_perm m t)) in Hz as [<-|Hz]; [lia|].
    exact (proj1 (Forall_forall _ _) Hy z Hz).
Qed.

(** Inserting [m] keeps, for each chapter, the order of the records already
    there, and puts [m] after those of its own chapter. *)
Lemma insert_by_start_filter m l c :
  StronglySorted le_start l ->
  filter (fun x => chapter_start x =? c) (insert_by_start m l) =
  filter (fun x => chapter_start x =? c) l ++
  (if chapter_start m =? c then [m] else []).
Proof.
  induction l as [|y t IH]; cbn; intro Hs; [now destruct (chapter_start m =? c)|].
  apply StronglySorted_inv in Hs as [Ht Hy]. unfold le_start in Hy.
  destruct (Z.ltb_spec (chapter_start m) (chapter_start y)).
  - cbn. destruct (Z.eqb_spec (chapter_start m) c).
    + assert (Hn : filter (fun x => chapter_start x =? c) (y :: t) = []).
      { rewrite <- (filter_false (y :: t)). apply filter_ext_in. intros z [<-|Hz].
        - apply Z.eqb_neq. lia.
        - pose proof (proj1 (Forall_forall _ _) Hy z Hz) as Hz'. unfold le_start in Hz'.
          apply Z.eqb_neq. lia. }
      cbn in Hn. rewrite Hn. reflexivity.
    + rewrite app_nil_r. reflexivity.
  - cbn. rewrite IH by exact Ht. now destruct (chapter_start y =? c).
Qed.

Lemma sort_by_start_fold l acc c :
  StronglySorted le_start acc ->
  StronglySorted le_start (fold_left (fun acc m => insert_by_start m acc) l acc) /\
  Permutation (fold_left (fun acc m => insert_by_start m acc) l acc) (acc ++ l) /\
  filter (fun x => chapter_start x =? c) (fold_left (fun acc m => insert_by_start m acc) l acc) =
  filter (fun x => chapter_start x =? c) acc ++ filter (fun x => chapter_start x =? c) l.
Proof.
  revert acc. induction l as [|m l IH]; intros acc Hs; cbn.
  - rewrite !app_nil_r. auto.
  - destruct (IH (insert_by_start m acc) (insert_by_start_sorted m acc Hs)) as (H1 & H2 & H3).
    split; [exact H1|]. split.
    + rewrite H2, insert_by_start_perm. apply Permutation_middle.
    + rewrite H3, insert_by_start_filter by exact Hs. rewrite <- app_assoc.
      now destruct (chapter_start m =? c).
Qed.

(** [get_memory_timeline] returns the stored records under [canonical_key],
    each once, ordered by [chapter_start]; records with the same
    [chapter_start] keep their order in [all_memories] (the sort is stable). *)
Theorem get_memory_timeline_spec st canonical_key :
  let same := filter (fun m => String.eqb (get_key m) canonical_key) (stored_records st) in
  Permutation (get_memory_timeline st canonical_key) same /\
  Sorted le_start (get_memory_timeline st canonical_key) /\
  (forall c, filter (fun m => chapter_start m =? c) (get_memory_timeline st canonical_key) =
             filter (fun m => chapter_start m =? c) same).
Proof.
  intro same. unfold get_memory_timeline, sort_by_start. fold (stored_records st). fold same.
  destruct (sort_by_start_fold same [] 0 (SSorted_nil _)) as (H1 & H2 & _).
  split; [exact H2|]. split.
  - apply StronglySorted_Sorted. exact H1.
  - intro c. destruct (sort_by_start_fold same [] c (SSorted_nil _)) as (_ & _ & H3). exact H3.
Qed.

(** ** Bounds of the update score *)

Lemma nnzf_leb_zero (x : float) : FloatFacts.nnzf x -> (0 <=? x)%float = true.
Proof.
  unfold FloatFacts.nnzf. intro H. rewrite leb_spec. change (Prim2SF 0) with (S754_zero false).
  destruct (Prim2SF x) as [[]|[]| |[] mx ex]; cbn in H |- *; try contradiction; reflexivity.
Qed.

Lemma fmin_one_leb (x : float) : (Py.fmin 1.0 x <=? 1.0)%float = true.
Proof.
  unfold Py.fmin. destruct (x <? 1.0)%float eqn:E; [now apply FloatFacts.ltb_leb|reflexivity].
Qed.

Lemma nan_unique (x : float) : Prim2SF x = S754_nan -> x = nan.
Proof. intro H. rewrite <- (SF2Prim_Prim2SF x), H. reflexivity. Qed.

Lemma nan_add_l (y : float) : (nan + y)%float = nan.
Proof. apply nan_unique. rewrite add_spec. reflexivity. Qed.

(** [get_update_score] never exceeds [1.0], even when the sum is NaN
    ([min(1.0, nan)] is [1.0]); when the candidate's confidence is
    non-negative the score is also at least [0.0] (and not NaN). *)
Theorem get_update_score_bounds (e m : MemoryUnit) :
  (get_update_score e m <=? 1.0)%float = true /\
  ((0 <=? confidence m)%float = true -> (0 <=? get_update_score e m)%float = true).
Proof.
  split.
  - unfold get_update_score. destruct (negb (can_update e m)); [reflexivity|].
    apply fmin_one_leb.
  - intro Hc. destruct (can_update e m) eqn:Hu.
    + destruct (get_update_score_spec e m Hu Hc) as [-> H]. now apply nnzf_leb_zero.
    + unfold get_update_score. rewrite Hu. reflexivity.
Qed.

(** A candidate whose confidence is NaN, on a record it may update, gets the
    highest score, [1.0]: every comparison with NaN is false, so the final
    [min(1.0, score)] keeps [1.0]. *)
Theorem get_update_score_nan (e m : MemoryUnit) :
  can_update e m = true -> Prim2SF (confidence m) = S754_nan ->
  get_update_score e m = 1.0%float.
Proof.
  intros Hu Hn. apply nan_unique in Hn.
  unfold get_update_score. rewrite Hu, Hn. cbn [negb].
  change (nan * 0.3)%float with nan. change (0 + nan)%float with nan.
  destruct (confidence e <? nan)%float, (chapter_start e <? chapter_start m - 5);
    repeat rewrite nan_add_l; reflexivity.
Qed.

Lemma get_update_score_nan_witness :
  can_update (demo_trust "sylvain trusts annette" ["sylvain"; "annette"]%string 0.9 1)
             (demo_trust "annette trusts sylvain" ["annette"; "sylvain"]%string nan 3) = true /\
  Prim2SF (confidence (demo_trust "annette trusts sylvain" ["annette"; "sylvain"]%string nan 3)) = S754_nan /\
  get_update_score (demo_trust "sylvain trusts annette" ["sylvain"; "annette"]%string 0.9 1)
                   (demo_trust "annette trusts sylvain" ["annette"; "sylvain"]%string nan 3) = 1.0%float.
Proof.
  assert (H1 : can_update (demo_trust "sylvain trusts annette" ["sylvain"; "annette"]%string 0.9 1)
             (demo_trust "annette trusts sylvain" ["annette"; "sylvain"]%string nan 3) = true)
    by (vm_compute; reflexivity).
  assert (H2 : Prim2SF (confidence (demo_trust "annette trusts sylvain" ["annette"; "sylvain"]%string nan 3)) = S754_nan)
    by (vm_compute; reflexivity).
  split; [exact H1|]. split; [exact H2|]. exact (get_update_score_nan _ _ H1 H2).
Defined.

Lemma get_update_score_bounds_witness :
  (0 <=? confidence (demo_trust "annette trusts sylvain" ["annette"; "sylvain"]%string 1.0 3))%float = true /\
  (0 <=? get_update_score (demo_trust "sylvain trusts annette" ["sylvain"; "annette"]%string 0.9 1)
      (demo_trust "annette trusts sylvain" ["annette"; "sylvain"]%string 1.0 3))%float = true.
Proof.
  assert (H : (0 <=? confidence (demo_trust "annette trusts sylvain" ["annette"; "sylvain"]%string 1.0 3))%float = true)
    by (vm_compute; reflexivity).
  split; [exact H|].
  exact (proj2 (get_update_score_bounds _ _) H).
Defined.

(** ** Time-overlap conflicts *)

Lemma overlap_scan_iff l c :
  In c (overlap_scan l) <->
  exists pre m1 mid m2 post, l = pre ++ m1 :: mid ++ m2 :: post /\ In c (overlap_of m1 m2).
Proof.
  induction l as [|x rest IH]; cbn.
  - split; [tauto|]. intros (pre & m1 & mid & m2 & post & E & _). now destruct pre.
  - rewrite in_app_iff, in_flat_map, IH. split.
    + intros [(m2 & Hm2 & Hc)|(pre & m1 & mid & m2 & post & E & Hc)].
      * apply in_split in Hm2 as (mid & post & ->).
        now exists [], x, mid, m2, post.
      * exists (x :: pre), m1, mid, m2, post. rewrite E. now split.
    + intros (pre & m1 & mid & m2 & post & E & Hc). destruct pre as [|y pre]; cbn in E.
      * injection E as <- ->. left. exists m2. split; [apply in_app_iff; right; now left|exact Hc].
      * injection E as <- ->. right. now exists pre, m1, mid, m2, post.
Qed.

Lemma overlap_of_iff m1 m2 c :
  In c (overlap_of m1 m2) <->
  get_key m1 = get_key m2 /\ chapter_start m1 <> chapter_start m2 /\
  is_active m1 = true /\ is_active m2 = true /\
  c = mkTimeOverlapConflict (id m1) (id m2) (get_key m1) (chapter_start m1) (chapter_start m2)
        (fact_text m1) (fact_text m2).
Proof.
  unfold overlap_of. destruct (String.eqb_spec (get_key m1) (get_key m2)); [|cbn; intuition].
  destruct (Z.eqb_spec (chapter_start m1) (chapter_start m2)); cbn; [intuition|].
  destruct (is_active m1), (is_active m2); cbn; intuition congruence.
Qed.

(** [check_time_overlap_conflicts] reports exactly the pairs of saved
    records, the first saved before the second, that share a key, differ in
    [chapter_start] and are both active. *)
Theorem check_time_overlap_conflicts_iff st c :
  In c (check_time_overlap_conflicts st) <->
  exists pre m1 mid m2 post,
    stored_records st = pre ++ m1 :: mid ++ m2 :: post /\
    get_key m1 = get_key m2 /\ chapter_start m1 <> chapter_start m2 /\
    is_active m1 = true /\ is_active m2 = true /\
    c = mkTimeOverlapConflict (id m1) (id m2) (get_key m1) (chapter_start m1) (chapter_start m2)
          (fact_text m1) (fact_text m2).
Proof.
  unfold check_time_overlap_conflicts. fold (stored_records st). rewrite overlap_scan_iff.
  split; intros (pre & m1 & mid & m2 & post & E & H); exists pre, m1, mid, m2, post;
    split; try exact E; apply overlap_of_iff; exact H.
Qed.

(** ** The knowledge index of [check_crosstalk_violations] *)

(** [b] is listed in [ck[s][c]]. *)
Definition ck_has (ck : list (string * list (Z * list addr))) (s : string) (c : Z) (b : addr) : Prop :=
  exists chs l, Py.get String.eqb s ck = Some chs /\ Py.get Z.eqb c chs = Some l /\ In b l.

(** Every inner dict has distinct keys; so has the outer one. *)
Definition ck_nodup (ck : list (string * list (Z * list addr))) : Prop :=
  NoDup (map fst ck) /\ forall s chs, Py.get String.eqb s ck = Some chs -> NoDup (map fst chs).

Definition ok_subject (s : string) : Prop := s <> "world"%string /\ s <> "user_123"%string.

Lemma get_default_in {A} (o : option (list A)) (b : A) :
  In b (match o with Some l => l | None => [] end) <-> exists l, o = Some l /\ In b l.
Proof.
  destruct o as [l'|]; cbn; [split; [eauto|intros (l & [= <-] & H); exact H]|].
  split; [tauto|]. now intros (? & ? & _).
Qed.

Lemma add_knowledge_has ch a ck subject s c b :
  ck_has (add_knowledge ch a ck subject) s c b <->
  ck_has ck s c b \/ (s = subject /\ c = ch /\ b = a /\ ok_subject subject).
Proof.
  unfold add_knowledge, ok_subject.
  destruct (String.eqb_spec subject "world"), (String.eqb_spec subject "user_123"); cbn [negb andb];
    try (split; [tauto|intros [H|H]; [exact H|tauto]]).
  unfold ck_has. rewrite (get_setitem String.eqb String_eqb_spec').
  destruct (String.eqb_spec s subject) as [->|Hs].
  - set (chapters := match Py.get String.eqb subject ck with Some c0 => c0 | None => [] end).
    destruct (Z.eqb_spec c ch) as [->|Hc].
    + set (lst := match Py.get Z.eqb ch chapters with Some l => l | None => [] end).
      split.
      * intros (chs & l & [= <-] & Hg & Hb). rewrite (get_setitem Z.eqb Z_eqb_spec'), Z.eqb_refl in Hg.
        injection Hg as <-. apply in_app_iff in Hb as [Hb|[<-|[]]]; [left|right; tauto].
        unfold lst in Hb. apply get_default_in in Hb as (l & Hl & Hb).
        unfold chapters in Hl. destruct (Py.get String.eqb subject ck) as [chs|] eqn:E; [|discriminate].
        now exists chs, l.
      * intros H. exists (Py.setitem Z.eqb ch (lst ++ [a]) chapters), (lst ++ [a]).
        rewrite (get_setitem Z.eqb Z_eqb_spec'), Z.eqb_refl. split; [reflexivity|]. split; [reflexivity|].
        apply in_app_iff. destruct H as [(chs & l & E & Hg & Hb)|(_ & _ & -> & _)]; [left|right; now left].
        unfold lst, chapters. rewrite E, Hg. exact Hb.
    + split.
      * intros (chs & l & [= <-] & Hg & Hb). rewrite (get_setitem Z.eqb Z_eqb_spec') in Hg.
        apply Z.eqb_neq in Hc as Hc'. rewrite Hc' in Hg. left.
        unfold chapters in Hg. destruct (Py.get String.eqb subject ck) as [chs|] eqn:E; [|discriminate].
        now exists chs, l.
      * intros [(chs & l & E & Hg & Hb)|(_ & E & _)]; [|congruence].
        exists (Py.setitem Z.eqb ch ((match Py.get Z.eqb ch chapters with Some l => l | None => [] end) ++ [a]) chapters), l.
        rewrite (get_setitem Z.eqb Z_eqb_spec'). apply Z.eqb_neq in Hc as Hc'. rewrite Hc'.
        unfold chapters. rewrite E. now split.
  - split; [tauto|]. intros [H|(E & _)]; [exact H|congruence].
Qed.

Lemma add_knowledge_nodup ch a ck subject : ck_nodup ck -> ck_nodup (add_knowledge ch a ck subject).
Proof.
  intros [Hk Hc]. unfold add_knowledge.
  destruct (negb _ && negb _); [|split; assumption].
  split; [now apply (setitem_nodup String.eqb String_eqb_spec')|].
  intros s chs Hg. rewrite (get_setitem String.eqb String_eqb_spec') in Hg.
  destruct (String.eqb s subject) eqn:E; [|exact (Hc s chs Hg)].
  injection Hg as <-. apply (setitem_nodup Z.eqb Z_eqb_spec').
  destruct (Py.get String.eqb subject ck) as [chs|] eqn:Eg; [exact (Hc _ _ Eg)|constructor].
Qed.

Lemma fold_add_knowledge_spec ch a subs ck :
  ck_nodup ck ->
  ck_nodup (fold_left (add_knowledge ch a) subs ck) /\
  forall s c b, ck_has (fold_left (add_knowledge ch a) subs ck) s c b <->
    ck_has ck s c b \/ (In s subs /\ ok_subject s /\ c = ch /\ b = a).
Proof.
  revert ck. induction subs as [|x subs IH]; intros ck Hn; cbn.
  - split; [exact Hn|]. intros. split; [tauto|]. intros [H|[[] _]]; exact H.
  - destruct (IH _ (add_knowledge_nodup ch a ck x Hn)) as [H1 H2]. split; [exact H1|].
    intros s c b. rewrite H2, add_knowledge_has. split.
    + intros [[H|(-> & -> & -> & Ho)]|(Hs & Ho & -> & ->)]; [left; exact H|right; tauto|right; tauto].
    + intros [H|([->|Hs] & Ho & -> & ->)]; [left; left; exact H|left; right; tauto|right; tauto].
Qed.

Lemma character_knowledge_fold st L ck :
  ck_nodup ck ->
  ck_nodup (fold_left (add_memory_knowledge st) L ck) /\
  forall s c b, ck_has (fold_left (add_memory_knowledge st) L ck) s c b <->
    ck_has ck s c b \/
    (In b L /\ is_active (heap st b) = true /\ In s (subjects (heap st b)) /\ ok_subject s /\
     c = chapter_start (heap st b)).
Proof.
  revert ck. induction L as [|x L IH]; intros ck Hn; cbn.
  - split; [exact Hn|]. intros. split; [tauto|]. intros [H|[[] _]]; exact H.
  - destruct (is_active (heap st x)) eqn:Ha.
    + assert (E : add_memory_knowledge st ck x =
                  fold_left (add_knowledge (chapter_start (heap st x)) x) (subjects (heap st x)) ck)
        by (unfold add_memory_knowledge; now rewrite Ha).
      rewrite E. destruct (fold_add_knowledge_spec (chapter_start (heap st x)) x (subjects (heap st x)) ck Hn)
        as [F1 F2].
      destruct (IH _ F1) as [H1 H2]. split; [exact H1|].
      intros s c b. rewrite H2, F2. split.
      * intros [[H|(Hs & Ho & -> & ->)]|(Hb & Hr)]; [left; exact H|right|right; tauto].
        split; [now left|]. tauto.
      * intros [H|([<-|Hb] & Hr)]; [left; left; exact H|left; right; tauto|right; tauto].
    + assert (E : add_memory_knowledge st ck x = ck) by (unfold add_memory_knowledge; now rewrite Ha).
      rewrite E. destruct (IH _ Hn) as [H1 H2]. split; [exact H1|].
      intros s c b. rewrite H2. split.
      * intros [H|(Hb & Hr)]; [left; exact H|right; tauto].
      * intros [H|([<-|Hb] & Hr)]; [left; exact H|destruct Hr as [Hr _]; congruence|right; tauto].
Qed.

Lemma character_knowledge_spec st :
  ck_nodup (character_knowledge st) /\
  forall s c b, ck_has (character_knowledge st) s c b <->
    In b (Py.values (all_memories st)) /\ is_active (heap st b) = true /\
    In s (subjects (heap st b)) /\ ok_subject s /\ c = chapter_start (heap st b).
Proof.
  unfold character_knowledge.
  destruct (character_knowledge_fold st (Py.values (all_memories st)) []) as [H1 H2];
    [split; [constructor|discriminate]|].
  split; [exact H1|]. intros s c b. rewrite H2. unfold ck_has. cbn [Py.get].
  split; [intros [(? & ? & [=] & _)|H]; exact H|tauto].
Qed.

Lemma ck_in_get (ck : list (string * list (Z * list addr))) s chs :
  ck_nodup ck -> In (s, chs) ck <-> Py.get String.eqb s ck = Some chs.
Proof.
  intros [Hk _]. split; [now apply (in_nodup_get String.eqb String_eqb_spec')|].
  apply (get_in String.eqb String_eqb_spec').
Qed.

Lemma crosstalk_of_iff st ck character chapter a v :
  ck_nodup ck ->
  In v (crosstalk_of st ck character chapter a) <->
  exists other oc b, ck_has ck other oc b /\ other <> character /\ chapter < oc /\
    mem_type (heap st b) = "C2U"%string /\
    Py.contains (Py.lower (fact_text (heap st a))) (Py.lower other) = true /\
    v = mkCrosstalkViolation (id (heap st a)) character chapter other oc (fact_text (heap st a)).
Proof.
  intro Hn. pose proof (proj2 Hn) as Hi. unfold crosstalk_of. rewrite in_flat_map. split.
  - intros ([other ochs] & Hin & Hv). cbv beta iota in Hv.
    destruct (String.eqb_spec other character) as [|Ho]; cbn [negb] in Hv; [destruct Hv|].
    apply in_flat_map in Hv as ([oc oms] & Hoc & Hv). cbv beta iota in Hv.
    destruct (Z.ltb_spec chapter oc) as [Hlt|]; [|destruct Hv].
    apply in_flat_map in Hv as (b & Hb & Hv).
    destruct (String.eqb_spec (mem_type (heap st b)) "C2U") as [Ht|]; [|destruct Hv].
    destruct (Py.contains _ _) eqn:Hc; [|destruct Hv].
    destruct Hv as [<-|[]].
    exists other, oc, b. split; [|tauto].
    apply (ck_in_get ck _ _ Hn) in Hin. exists ochs, oms. split; [exact Hin|]. split; [|exact Hb].
    apply (in_nodup_get Z.eqb Z_eqb_spec'); [exact (Hi _ _ Hin)|exact Hoc].
  - intros (other & oc & b & (ochs & oms & Hg & Hg' & Hb) & Ho & Hlt & Ht & Hc & ->).
    exists (other, ochs). split; [now apply (ck_in_get ck _ _ Hn)|]. cbv beta iota.
    destruct (String.eqb_spec other character); [contradiction|]. cbn [negb].
    apply in_flat_map. exists (oc, oms). split; [exact (get_in Z.eqb Z_eqb_spec' _ _ _ Hg')|].
    cbv beta iota. destruct (Z.ltb_spec chapter oc); [|lia].
    apply in_flat_map. exists b. split; [exact Hb|].
    destruct (String.eqb_spec (mem_type (heap st b)) "C2U"); [|contradiction].
    rewrite Hc. now left.
Qed.

Lemma check_crosstalk_violations_has st v :
  In v (check_crosstalk_violations st) <->
  exists character chapter a, ck_has (character_knowledge st) character chapter a /\
    In v (crosstalk_of st (character_knowledge st) character chapter a).
Proof.
  destruct (character_knowledge_spec st) as [Hn _].
  unfold check_crosstalk_violations. set (ck := character_knowledge st) in *. clearbody ck.
  rewrite in_flat_map. split.
  - intros ([character chs] & Hin & Hv). cbv beta iota in Hv.
    apply in_flat_map in Hv as (chapter & Hch & Hv).
    apply (Permutation_in _ (sort_Z_perm _)) in Hch.
    destruct (in_keys_get Z.eqb Z_eqb_spec' chapter chs Hch) as (l & Hl).
    rewrite Hl in Hv. apply in_flat_map in Hv as (a & Ha & Hv).
    exists character, chapter, a. split; [|exact Hv].
    exists chs, l. split; [now apply (ck_in_get ck _ _ Hn)|]. now split.
  - intros (character & chapter & a & (chs & l & Hg & Hg' & Ha) & Hv).
    exists (character, chs). split; [now apply (ck_in_get ck _ _ Hn)|]. cbv beta iota.
    apply in_flat_map. exists chapter. split.
    + apply (Permutation_in _ (Permutation_sym (sort_Z_perm _))).
      apply in_map_iff. exists (chapter, l). split; [reflexivity|].
      exact (get_in Z.eqb Z_eqb_spec' _ _ _ Hg').
    + rewrite Hg'. apply in_flat_map. now exists a.
Qed.

(** [check_crosstalk_violations] reports a violation exactly for a saved
    active record [m1] with a subject [character] and another name [other]
    such that [other] is a subject of a saved active "C2U" record [m2] whose
    [chapter_start] is later than [m1]'s, and [other] in lowercase occurs in
    [m1]'s lowercased fact text; neither name is "world" or "user_123". *)
Theorem check_crosstalk_violations_iff st v :
  In v (check_crosstalk_violations st) <->
  exists m1 m2 character other,
    In m1 (stored_records st) /\ In m2 (stored_records st) /\
    is_active m1 = true /\ is_active m2 = true /\
    In character (subjects m1) /\ In other (subjects m2) /\
    ok_subject character /\ ok_subject other /\ other <> character /\
    chapter_start m1 < chapter_start m2 /\ mem_type m2 = "C2U"%string /\
    Py.contains (Py.lower (fact_text m1)) (Py.lower other) = true /\
    v = mkCrosstalkViolation (id m1) character (chapter_start m1) other (chapter_start m2)
          (fact_text m1).
Proof.
  destruct (character_knowledge_spec st) as [Hn Hs].
  rewrite check_crosstalk_violations_has. unfold stored_records. split.
  - intros (character & chapter & a & Ha & Hv).
    apply (crosstalk_of_iff st _ _ _ _ _ Hn) in Hv as (other & oc & b & Hb & Ho & Hlt & Ht & Hc & ->).
    apply Hs in Ha as (Ha & Haa & Hca & Hoka & ->). apply Hs in Hb as (Hb & Hba & Hob & Hokb & ->).
    exists (heap st a), (heap st b), character, other.
    split; [now apply in_map|]. split; [now apply in_map|]. tauto.
  - intros (m1 & m2 & character & other & H1 & H2 & A1 & A2 & S1 & S2 & O1 & O2 & Ho & Hlt & Ht & Hc & ->).
    apply in_map_iff in H1 as (a & <- & Ha). apply in_map_iff in H2 as (b & <- & Hb).
    exists character, (chapter_start (heap st a)), a. split; [apply Hs; tauto|].
    apply (crosstalk_of_iff st _ _ _ _ _ Hn).
    exists other, (chapter_start (heap st b)), b. split; [apply Hs; tauto|]. tauto.
Qed.

(** ** New records and time-overlap conflicts *)

Lemma smart_created_store (uuid4 : nat -> string) st m chapter thr :
  snd (smart_update_or_create uuid4 st m chapter thr) = CreatedNew ->
  fst (fst (smart_update_or_create uuid4 st m chapter thr)) = fst (add_new_memory uuid4 st m chapter).
Proof.
  unfold smart_update_or_create.
  destruct (find_best_update_candidate st m thr) as [[a s]|].
  - destruct (update_existing_memory uuid4 st a m chapter _). discriminate.
  - destruct (add_new_memory uuid4 st m chapter). reflexivity.
Qed.

(** When [smart_update_or_create] creates a record on a store built by the
    resolver, the new record is saved last, after the earlier records in
    their order; and each active earlier record with the candidate's key and
    a [chapter_start] other than [chapter] now forms a time-overlap conflict
    with it (if the candidate is active). *)
Theorem smart_created_overlaps (uuid4 : nat -> string)
  (uuid4_inj : forall k1 k2, uuid4 k1 = uuid4 k2 -> k1 = k2) st m chapter thr :
  resolver_reachable uuid4 any_call st ->
  snd (smart_update_or_create uuid4 st m chapter thr) = CreatedNew ->
  let st' := fst (fst (smart_update_or_create uuid4 st m chapter thr)) in
  let nm := heap st' (next_addr st) in
  stored_records st' = stored_records st ++ [nm] /\
  (is_active m = true ->
   forall e, In e (stored_records st) -> is_active e = true -> get_key e = get_key m ->
     chapter_start e <> chapter ->
     In (mkTimeOverlapConflict (id e) (id nm) (get_key e) (chapter_start e) chapter
           (fact_text e) (fact_text m))
        (check_time_overlap_conflicts st')).
Proof.
  intros Hr Hc st' nm.
  pose proof (InvStore_reachable uuid4 uuid4_inj _ st Hr) as Hi.
  pose proof (inv_shape _ _ (InvStore_smart uuid4 uuid4_inj st m chapter thr Hi)) as Hs'.
  pose proof (inv_shape _ _ Hi) as Hs. fold st' in Hs'.
  assert (E : st' = fst (add_new_memory uuid4 st m chapter)) by exact (smart_created_store uuid4 st m chapter thr Hc).
  pose proof (add_new_memory_result uuid4 st m chapter) as R.
  destruct (add_new_memory uuid4 st m chapter) as [st1 na] eqn:Ea. cbn in E. subst st1.
  destruct R as (-> & Hn & _ & Hh & Ho & _).
  assert (Hsave : stored_records st' = stored_records st ++ [nm]).
  { rewrite (stored_records_shape st' Hs'), (stored_records_shape st Hs), Hn, seq_S, map_app.
    cbn [map]. f_equal. apply map_seq_ext. intros a Ha. apply Ho. lia. }
  split; [exact Hsave|].
  intros Hm e He Hea Hk Hch.
  unfold check_time_overlap_conflicts. fold (stored_records st'). rewrite Hsave.
  apply in_split in He as (pre & post & ->).
  apply overlap_scan_iff. exists pre, e, post, nm, [].
  split; [now rewrite <- app_assoc|].
  unfold nm. rewrite Hh. apply overlap_of_iff. cbn.
  split; [exact Hk|]. split; [exact Hch|]. split; [exact Hea|]. split; [exact Hm|reflexivity].
Qed.

Definition demo_early : MemoryUnit :=
  demo_trust "annette trusts sylvain" ["annette"; "sylvain"]%string 0.9 0.

Lemma smart_created_overlaps_witness :
  (forall k1 k2, demo_uuid k1 = demo_uuid k2 -> k1 = k2) /\
  resolver_reachable demo_uuid any_call demo_store1 /\
  snd (smart_update_or_create demo_uuid demo_store1 demo_early 0 default_threshold) = CreatedNew /\
  In (mkTimeOverlapConflict (id (heap demo_store1 0%nat)) (id (heap (fst (fst (smart_update_or_create demo_uuid demo_store1 demo_early 0 default_threshold)))
                                           (next_addr demo_store1)))
        (get_key (heap demo_store1 0%nat)) 1 0 (fact_text (heap demo_store1 0%nat)) (fact_text demo_early))
     (check_time_overlap_conflicts
        (fst (fst (smart_update_or_create demo_uuid demo_store1 demo_early 0 default_threshold)))).
Proof.
  assert (Hr : resolver_reachable demo_uuid any_call demo_store1).
  { apply reach_step; [|exact I]. apply reach_empty. }
  assert (Hc : snd (smart_update_or_create demo_uuid demo_store1 demo_early 0 default_threshold)
    = CreatedNew) by (vm_compute; reflexivity).
  split; [exact demo_uuid_inj|]. split; [exact Hr|]. split; [exact Hc|].
  destruct (smart_created_overlaps demo_uuid demo_uuid_inj demo_store1 demo_early 0 default_threshold Hr Hc)
    as [_ H].
  apply (H eq_refl (heap demo_store1 0%nat)).
  - unfold stored_records. vm_compute. left. reflexivity.
  - vm_compute. reflexivity.
  - vm_compute. reflexivity.
  - vm_compute. discriminate.
Defined.

(** ** Versions along [supersedes] links *)

Section Versions.
Variable uuid4 : nat -> string.
Hypothesis uuid4_inj : forall k1 k2, uuid4 k1 = uuid4 k2 -> k1 = k2.

(** A record that supersedes another carries the next version number. *)
Definition InvVer (st : Store) : Prop :=
  forall a b, (a < next_addr st)%nat -> (b < next_addr st)%nat ->
    supersedes (heap st b) = Some (id (heap st a)) -> version (heap st b) = version (heap st a) + 1.

Lemma InvVer_extend st st' :
  InvVer st -> InvIds uuid4 st -> InvIds uuid4 st' ->
  next_addr st' = S (next_addr st) ->
  (forall b, (b < next_addr st)%nat ->
     id (heap st' b) = id (heap st b) /\ supersedes (heap st' b) = supersedes (heap st b) /\
     version (heap st' b) = version (heap st b)) ->
  (supersedes (heap st' (next_addr st)) = None \/
   exists a, (a < next_addr st)%nat /\
     supersedes (heap st' (next_addr st)) = Some (id (heap st a)) /\
     version (heap st' (next_addr st)) = version (heap st a) + 1) ->
  InvVer st'.
Proof.
  intros Hv Hi Hi' Hn Hold Hnew a b Ha Hb Hs. rewrite Hn in Ha, Hb.
  destruct (Nat.eq_dec b (next_addr st)) as [->|Hbn].
  - destruct Hnew as [Hnone|(a0 & Ha0 & Hs0 & Hv0)]; [congruence|].
    rewrite Hs0 in Hs. injection Hs as Hs.
    destruct (Hold a0 Ha0) as (Hid0 & _ & Hver0).
    assert (a = a0) as ->.
    { apply (ids_inj uuid4 st' Hi'); [rewrite Hn; lia|rewrite Hn; lia|congruence]. }
    rewrite Hver0. exact Hv0.
  - assert (Hb' : (b < next_addr st)%nat) by lia.
    destruct (Hold b Hb') as (_ & Hsb & Hvb). rewrite Hsb in Hs.
    destruct (ids_back uuid4 st Hi b _ Hb' Hs) as (a' & Hab & Hida' & _).
    destruct (Hold a' ltac:(lia)) as (Hid' & _ & Hver').
    assert (a = a') as ->.
    { apply (ids_inj uuid4 st' Hi'); [rewrite Hn; lia|rewrite Hn; lia|congruence]. }
    rewrite Hvb, Hver'. apply Hv; [lia|exact Hb'|]. congruence.
Qed.

Lemma InvVer_reachable st : resolver_reachable uuid4 fresh_call st -> InvVer st.
Proof.
  intro Hr. induction Hr as [|st m chapter thr Hr IH Hm].
  - intros a b Ha. cbn in Ha. lia.
  - pose proof (InvIds_reachable uuid4 uuid4_inj st Hr) as Hi.
    pose proof (InvIds_reachable uuid4 uuid4_inj _ (reach_step uuid4 _ st m chapter thr Hr Hm)) as Hi'.
    destruct (smart_update_or_create_cases uuid4 st m chapter thr) as [(ea & r & Hea & E)|E];
      rewrite E in Hi' |- *.
    + apply candidate_props in Hea as [Hea _].
      pose proof (idx_am_alloc _ (InvIdx_reachable uuid4 _ st Hr) ea Hea) as Hlt.
      pose proof (update_existing_memory_result uuid4 st ea m chapter r Hlt) as H.
      destruct (update_existing_memory uuid4 st ea m chapter r) as [st' na]. cbn [fst] in Hi' |- *.
      destruct H as (-> & Hnext & _ & He & Hna & Hother & _).
      apply (InvVer_extend st st' IH Hi Hi' Hnext).
      * intros b Hb. destruct (Nat.eq_dec b ea) as [->|Hne].
        -- rewrite He. auto.
        -- rewrite Hother by lia. auto.
      * right. exists ea. split; [exact Hlt|]. rewrite Hna. auto.
    + pose proof (add_new_memory_result uuid4 st m chapter) as H.
      destruct (add_new_memory uuid4 st m chapter) as [st' na]. cbn [fst] in Hi' |- *.
      destruct H as (-> & Hnext & _ & Hna & Hother & _).
      apply (InvVer_extend st st' IH Hi Hi' Hnext).
      * intros b Hb. rewrite Hother by lia. auto.
      * left. rewrite Hna. cbn. exact (proj1 (proj2 Hm)).
Qed.

(** The property of consecutive records of a chain. *)
Definition links_ok (r : list MemoryUnit) : Prop :=
  forall pre x y post, r = pre ++ x :: y :: post ->
    version y = version x + 1 /\ supersedes y = Some (id x).

Lemma links_ok_cons x l :
  links_ok l ->
  (match l with y :: _ => version y = version x + 1 /\ supersedes y = Some (id x) | [] => True end) ->
  links_ok (x :: l).
Proof.
  intros Hl Hx pre x' y post E. destruct pre as [|p pre]; cbn in E.
  - injection E as <- ->. exact Hx.
  - injection E as <- E. exact (Hl pre x' y post E).
Qed.

Lemma evolution_loop_links st cur ev r :
  InvIds uuid4 st -> InvVer st ->
  evolution_loop st cur ev r ->
  links_ok ev ->
  (match ev with y :: _ => supersedes y = cur /\ exists b, (b < next_addr st)%nat /\ y = heap st b
               | [] => True end) ->
  links_ok r.
Proof.
  intros Hi Hv. induction 1 as [ev|ev|cid ev _ _|cid a ev r Hne Hg Hl IH]; auto.
  intros Hok Hhd. apply (ids_index uuid4 st Hi) in Hg as Hg'. destruct Hg' as [Ha Hida].
  apply IH.
  - apply links_ok_cons; [exact Hok|]. destruct ev as [|y ev]; [exact I|].
    destruct Hhd as (Hs & b & Hb & ->). rewrite <- Hida in Hs.
    split; [exact (Hv a b Ha Hb Hs)|exact Hs].
  - split; [reflexivity|]. now exists a.
Qed.

End Versions.

(** On every store the resolver builds from fresh candidates, a chain that
    [get_memory_evolution] returns runs from the oldest version to the
    newest: each record is superseded by the next one, whose version is one
    higher. *)
Theorem get_memory_evolution_versions (uuid4 : nat -> string)
  (uuid4_inj : forall k1 k2, uuid4 k1 = uuid4 k2 -> k1 = k2) st :
  resolver_reachable uuid4 fresh_call st ->
  forall i r, get_memory_evolution st i r ->
  forall pre x y post, r = pre ++ x :: y :: post ->
    version y = version x + 1 /\ supersedes y = Some (id x).
Proof.
  intros Hr i r Hl.
  apply (evolution_loop_links uuid4 st (Some i) [] r (InvIds_reachable uuid4 uuid4_inj st Hr)
           (InvVer_reachable uuid4 uuid4_inj st Hr) Hl); [|exact I].
  intros pre x y post E. destruct pre as [|? [|? ?]]; discriminate.
Qed.

Lemma get_memory_evolution_versions_witness :
  (forall k1 k2, demo_uuid k1 = demo_uuid k2 -> k1 = k2) /\
  resolver_reachable demo_uuid fresh_call demo_store2 /\
  get_memory_evolution demo_store2 (id (heap demo_store2 1%nat))
    [heap demo_store2 0%nat; heap demo_store2 1%nat] /\
  version (heap demo_store2 1%nat) = version (heap demo_store2 0%nat) + 1.
Proof.
  assert (Hr : resolver_reachable demo_uuid fresh_call demo_store2).
  { apply reach_step; [|repeat split]. apply reach_step; [|repeat split]. apply reach_empty. }
  assert (He : get_memory_evolution demo_store2 (id (heap demo_store2 1%nat))
                 [heap demo_store2 0%nat; heap demo_store2 1%nat]).
  { unfold get_memory_evolution.
    apply (evo_step _ _ 1%nat); [vm_compute; discriminate|vm_compute; reflexivity|].
    change (supersedes (heap demo_store2 1%nat)) with (Some (id (heap demo_store2 0%nat))).
    apply (evo_step _ _ 0%nat); [vm_compute; discriminate|vm_compute; reflexivity|].
    change (supersedes (heap demo_store2 0%nat)) with (@None string).
    apply evo_stop_none. }
  split; [exact demo_uuid_inj|]. split; [exact Hr|]. split; [exact He|].
  exact (proj1 (get_memory_evolution_versions demo_uuid demo_uuid_inj demo_store2 Hr _ _ He
                  [] _ _ [] eq_refl)).
Defined.

(** ** Looking records up by id after a resolver call *)

Lemma smart_fresh_ids (uuid4 : nat -> string) st m chapter thr :
  InvStore uuid4 st ->
  let res := smart_update_or_create uuid4 st m chapter thr in
  snd (fst res) = next_addr st /\
  (forall b, (b < next_addr st)%nat -> id (heap (fst (fst res)) b) = id (heap st b)) /\
  exists k, (uuid_ctr st <= k)%nat /\ id (heap (fst (fst res)) (next_addr st)) = uuid4 k.
Proof.
  intros Hi res. unfold res, smart_update_or_create.
  destruct (find_best_update_candidate st m thr) as [[ea s]|] eqn:Hb.
  - apply find_best_in_candidates in Hb as [Hea _]. apply candidate_props in Hea as [Hea _].
    rewrite (values_shape st (inv_shape uuid4 st Hi)) in Hea. apply in_seq in Hea.
    match goal with |- context [update_existing_memory uuid4 st ea m chapter ?r] =>
      pose proof (update_existing_memory_result uuid4 st ea m chapter r ltac:(lia)) as H;
      destruct (update_existing_memory uuid4 st ea m chapter r) as [st' na]
    end.
    destruct H as (-> & _ & _ & He & Hna & Ho & _). cbn [fst snd].
    split; [reflexivity|]. split.
    + intros b Hlt. destruct (Nat.eq_dec b ea) as [->|Hne]; [now rewrite He|].
      rewrite Ho by lia. reflexivity.
    + exists (S (uuid_ctr st)). split; [lia|]. now rewrite Hna.
  - pose proof (add_new_memory_result uuid4 st m chapter) as H.
    destruct (add_new_memory uuid4 st m chapter) as [st' na].
    destruct H as (-> & _ & _ & Hna & Ho & _). cbn [fst snd].
    split; [reflexivity|]. split.
    + intros b Hlt. rewrite Ho by lia. reflexivity.
    + exists (uuid_ctr st). split; [lia|]. now rewrite Hna.
Qed.

(** After [smart_update_or_create] on a store built by the resolver, the
    record it returns is the newly allocated one; its id was not in
    [all_memories] before and now maps to it; every other id maps to what it
    mapped to before (an updated record stays under its own id). *)
Theorem smart_update_or_create_lookup (uuid4 : nat -> string)
  (uuid4_inj : forall k1 k2, uuid4 k1 = uuid4 k2 -> k1 = k2) st m chapter thr :
  resolver_reachable uuid4 any_call st ->
  let '(st', na, _) := smart_update_or_create uuid4 st m chapter thr in
  na = next_addr st /\
  Py.get String.eqb (id (heap st' na)) (all_memories st) = None /\
  Py.get String.eqb (id (heap st' na)) (all_memories st') = Some na /\
  (forall i, i <> id (heap st' na) ->
     Py.get String.eqb i (all_memories st') = Py.get String.eqb i (all_memories st)).
Proof.
  intro Hr. pose proof (InvStore_reachable uuid4 uuid4_inj _ st Hr) as Hi.
  pose proof (InvStore_smart uuid4 uuid4_inj st m chapter thr Hi) as Hi'.
  pose proof (smart_next_addr uuid4 st m chapter thr Hi) as Hn.
  pose proof (smart_fresh_ids uuid4 st m chapter thr Hi) as (Hna & Hold & k & Hk & Hid).
  destruct (smart_update_or_create uuid4 st m chapter thr) as [[st' na] act].
  cbn [fst snd] in Hi', Hn, Hna, Hold, Hid. subst na.
  pose proof (inv_shape _ _ Hi) as Hs. pose proof (inv_shape _ _ Hi') as Hs'.
  split; [reflexivity|]. split; [|split].
  - destruct (Py.get String.eqb (id (heap st' (next_addr st))) (all_memories st)) as [a|] eqn:Hg;
      [|reflexivity].
    apply (Shape_get_am st _ _ Hs) in Hg as [Ha E]. rewrite Hid in E.
    destruct (InvStore_fresh uuid4 uuid4_inj st k a Hi Hk Ha E).
  - apply (Shape_get_am st' _ _ Hs'). split; [lia|reflexivity].
  - intros i Hne.
    assert (Hiff : forall a, Py.get String.eqb i (all_memories st') = Some a <->
                             Py.get String.eqb i (all_memories st) = Some a).
    { intro a. rewrite (Shape_get_am st' _ _ Hs'), (Shape_get_am st _ _ Hs), Hn. split.
      - intros [Ha E]. destruct (Nat.eq_dec a (next_addr st)) as [->|Hne']; [congruence|].
        split; [lia|]. rewrite <- Hold by lia. exact E.
      - intros [Ha E]. split; [lia|]. rewrite Hold by lia. exact E. }
    destruct (Py.get String.eqb i (all_memories st)) as [a|] eqn:E1.
    + now apply Hiff.
    + destruct (Py.get String.eqb i (all_memories st')) as [a|] eqn:E2; [|reflexivity].
      discriminate (proj1 (Hiff a) eq_refl).
Qed.

Lemma smart_update_or_create_lookup_witness :
  (forall k1 k2, demo_uuid k1 = demo_uuid k2 -> k1 = k2) /\
  resolver_reachable demo_uuid any_call demo_store1 /\
  (let '(st', na, _) := smart_update_or_create demo_uuid demo_store1
         (demo_trust "annette trusts sylvain" ["annette"; "sylvain"]%string 1.0 3) 3 default_threshold in
   na = next_addr demo_store1 /\
   Py.get String.eqb (id (heap st' na)) (all_memories demo_store1) = None /\
   Py.get String.eqb (id (heap st' na)) (all_memories st') = Some na /\
   (forall i, i <> id (heap st' na) ->
      Py.get String.eqb i (all_memories st') = Py.get String.eqb i (all_memories demo_store1))) /\
  Py.get String.eqb (id (heap demo_store1 0%nat)) (all_memories demo_store2) = Some 0%nat.
Proof.
  assert (Hr : resolver_reachable demo_uuid any_call demo_store1).
  { apply reach_step; [|exact I]. apply reach_empty. }
  split; [exact demo_uuid_inj|]. split; [exact Hr|]. split.
  - exact (smart_update_or_create_lookup demo_uuid demo_uuid_inj demo_store1
      (demo_trust "annette trusts sylvain" ["annette"; "sylvain"]%string 1.0 3) 3 default_threshold Hr).
  - vm_compute. reflexivity.
Defined.
